(** * gwf: execution backends

    A shallow embedding of the execution layer of the gwf workflow engine:

    - [Local]: the self-hosted local cluster of [gwf/backends/local.py]
      (wire messages, [Worker], [JoinedWorker], [Server]);
    - [Slurm]: the Slurm backend of [gwf/backends/slurm.py] (job-state
      table, script generation, job database and its persistence);
    - [Legacy]: the older scheduler wrappers of [gwf/backends.py].

    [gwf/backends/slurm.py] is read as the Python 3 code it is (it names
    [FileNotFoundError]): what it reads from a pipe is [bytes].
    [gwf/backends.py] is Python 2 code ([print >> f], a list added to the
    result of [map]): its pipes yield text.

    Python dictionaries are finite maps ([gmap]) unless their iteration
    order is observable, in which case they are association lists; Python
    sets are [gset]s.  A function that may raise returns an [outcome]; a
    method that mutates its object before raising returns the mutated
    object together with the exception. *)

From stdpp Require Import gmap strings list fin_maps.
From Stdlib Require Import ZArith DecimalString Ascii.

Set Warnings "-clear-no-such-hyp".

(** ** Python exceptions *)

Inductive exn :=
  | KeyError (key : string)
  | ValueError (msg : string)
  | TypeError (msg : string)
  | AttributeError (attr : string)
  | BackendError (msg : string)
  | UnsupportedOperationError (op : string)
  | JSONDecodeError
  | Exception (msg : string).

Inductive outcome (A : Type) :=
  | Returned (a : A)
  | Raised (e : exn).
Arguments Returned {A} a.
Arguments Raised {A} e.

(** [str(n)] for a Python integer. *)
Definition str_of_int (n : Z) : string := NilZero.string_of_int (Z.to_int n).

(** ** Insertion-ordered dictionaries

    A [dict] whose iteration order matters: assignment to an existing key
    keeps its position, a new key goes last, [del] of a missing key is a
    [KeyError]. *)

Section Dict.
Context {V : Type}.

Fixpoint dict_get (k : string) (d : list (string * V)) : option V :=
  match d with
  | [] => None
  | (k', v) :: d' => if decide (k = k') then Some v else dict_get k d'
  end.

Fixpoint dict_set (k : string) (v : V) (d : list (string * V)) : list (string * V) :=
  match d with
  | [] => [(k, v)]
  | (k', v') :: d' =>
      if decide (k = k') then (k, v) :: d' else (k', v') :: dict_set k v d'
  end.

Fixpoint dict_del (k : string) (d : list (string * V)) : option (list (string * V)) :=
  match d with
  | [] => None
  | (k', v') :: d' =>
      if decide (k = k') then Some d'
      else match dict_del k d' with
           | Some d'' => Some ((k', v') :: d'')
           | None => None
           end
  end.
End Dict.

(** ** The local cluster ([gwf/backends/local.py]) *)

Module Local.

Inductive LocalStatus := UNKNOWN | SUBMITTED | RUNNING | FAILED | COMPLETED.

#[global] Instance LocalStatus_eq_dec : EqDecision LocalStatus.
Proof. solve_decision. Defined.

(** [LocalStatus.X.name] *)
Definition status_name (st : LocalStatus) : string :=
  match st with
  | UNKNOWN => "UNKNOWN"
  | SUBMITTED => "SUBMITTED"
  | RUNNING => "RUNNING"
  | FAILED => "FAILED"
  | COMPLETED => "COMPLETED"
  end.

(** [LocalStatus[name]]: a [KeyError] when [name] is no member. *)
Definition status_of_name (name : string) : outcome LocalStatus :=
  if decide (name = "UNKNOWN") then Returned UNKNOWN
  else if decide (name = "SUBMITTED") then Returned SUBMITTED
  else if decide (name = "RUNNING") then Returned RUNNING
  else if decide (name = "FAILED") then Returned FAILED
  else if decide (name = "COMPLETED") then Returned COMPLETED
  else Raised (KeyError name).

(** [new_state in (LocalStatus.COMPLETED, LocalStatus.FAILED)] *)
Definition is_terminal (st : LocalStatus) : bool :=
  match st with
  | COMPLETED | FAILED => true
  | _ => false
  end.

Record Task := mkTask {
  task_id : string;
  name : string;
  working_dir : string;
  spec : string;
  dependencies : gset string;
  stdout_path : string;
  stderr_path : string;
}.

(** A [Connection] is identified with its socket. *)
Definition Connection := nat.

(** The wire protocol: one constructor per message type. *)
Module Message.

Inductive t :=
  | join_worker (worker_id : string)
  | leave_worker (worker_id : string)
  | submit_task (task_id name working_dir spec : string)
      (dependencies : list string) (stdout_path stderr_path : string)
  | update_task_state (task_id new_state : string)
  | get_task_states
  | task_states (tasks : gmap string string)
  | run_task (task : Task)
  | shutdown
  | close.

Definition type (m : t) : string :=
  match m with
  | join_worker _ => "join_worker"
  | leave_worker _ => "leave_worker"
  | submit_task _ _ _ _ _ _ _ => "submit_task"
  | update_task_state _ _ => "update_task_state"
  | get_task_states => "get_task_states"
  | task_states _ => "task_states"
  | run_task _ => "run_task"
  | shutdown => "shutdown"
  | close => "close"
  end.

End Message.

(** [conn.send(...)]: the message and the connection it is written to. *)
Definition packet : Type := Connection * Message.t.

(** *** Worker *)

Module Worker.

Record t := mk {
  worker_id : string;
  conn : Connection;
  _shutdown_requested : bool;
}.

(** The exceptions in what follows are those [except Exception] catches.

    What the operating system does with the subprocess of one task:
    setting it up (opening the two log files, [Popen], feeding the spec
    to its input) raises, or it starts, [process.poll()] is [None] for
    [polls] turns of the wait loop, and then it has exited or
    [process.wait] raises. *)
Inductive ending :=
  | exited (returncode : Z)
  | wait_raises (e : exn).

Inductive execution :=
  | setup_raises (e : exn)
  | started (polls : nat) (fin : ending).

Definition _update_state (w : t) (task_id : string) (new_state : LocalStatus)
  : packet :=
  (conn w, Message.update_task_state task_id (status_name new_state)).

(** [while process.poll() is None: ...] *)
Fixpoint wait_loop (w : t) (polls : nat) : option exn :=
  match polls with
  | 0 => None
  | S rest =>
      if _shutdown_requested w
      then Some (Exception "Worker received shutdown signal")
      else wait_loop w rest
  end.

(** The body of the [try] block: [None] when it falls through to
    [else], [Some e] when [e] is raised inside it. *)
Definition try_body (w : t) (task : Task) (env : execution) : option exn :=
  match env with
  | setup_raises e => Some e
  | started polls fin =>
      match wait_loop w polls with
      | Some e => Some e
      | None =>
          match fin with
          | wait_raises e => Some e
          | exited returncode =>
              if decide (returncode ≠ 0%Z)
              then Some (Exception
                     ("Task " +:+ task_id task +:+ " (" +:+ name task
                      +:+ ") exited with return code "
                      +:+ str_of_int returncode +:+ "."))
              else None
          end
      end
  end.

(** [run_task]: the reports it sends. *)
Definition run_task (w : t) (task : Task) (env : execution) : list packet :=
  let running := _update_state w (task_id task) RUNNING in
  match try_body w task env with
  | Some _ => [running; _update_state w (task_id task) FAILED]
  | None => [running; _update_state w (task_id task) COMPLETED]
  end.

Definition handle_run_task (w : t) (task : Task) (env : execution) : list packet :=
  run_task w task env.

Definition handle_shutdown (w : t) : t :=
  mk (worker_id w) (conn w) true.

(** How [start] ends: the loop left after a shutdown and the worker
    said goodbye, the inbox ran dry with the worker idle in [recv], or
    an exception escaped the loop. *)
Inductive exit := left_cluster | idle | crashed (e : exn).

(** [start]: the receive loop over the messages that arrive, each
    paired with what the subprocess it starts will do. *)
Fixpoint start (w : t) (inbox : list (Message.t * execution))
  : t * list packet * exit :=
  if _shutdown_requested w
  then (w, [(conn w, Message.leave_worker (worker_id w)); (conn w, Message.close)],
        left_cluster)
  else
    match inbox with
    | [] => (w, [], idle)
    | (Message.run_task task, env) :: rest =>
        let out1 := handle_run_task w task env in
        let '(w2, out2, r) := start w rest in
        (w2, out1 ++ out2, r)
    | (Message.shutdown, _) :: rest =>
        start (handle_shutdown w) rest
    | (m, _) :: _ =>
        (w, [], crashed (AttributeError ("handle_" +:+ Message.type m)))
    end.

End Worker.

(** *** JoinedWorker *)

Module JoinedWorker.

Record t := mk {
  worker_id : string;
  conn : Connection;
}.

Definition run_task (w : t) (task : Task) : packet :=
  (conn w, Message.run_task task).

Definition shutdown (w : t) : packet :=
  (conn w, Message.shutdown).

End JoinedWorker.

(** *** Server *)

Module Server.

(** The attributes that scheduling and the event loop read and write.
    [_scheduled_tasks] is never used by the class; the listening socket,
    the selector and the logger are left to the events below. *)
Record t := mk {
  _tasks : gmap string Task;
  _task_states : gmap string LocalStatus;
  _pending_tasks : gset string;
  _joined_workers : list (string * JoinedWorker.t);
  _used_workers : gmap string string;
  _shutdown_requested : bool;
  _conns : gset Connection;
}.

Definition init : t := mk ∅ ∅ ∅ [] ∅ false ∅.

Definition set_tasks (s : t) (v : gmap string Task) : t :=
  mk v (_task_states s) (_pending_tasks s) (_joined_workers s)
     (_used_workers s) (_shutdown_requested s) (_conns s).
Definition set_task_states (s : t) (v : gmap string LocalStatus) : t :=
  mk (_tasks s) v (_pending_tasks s) (_joined_workers s)
     (_used_workers s) (_shutdown_requested s) (_conns s).
Definition set_pending_tasks (s : t) (v : gset string) : t :=
  mk (_tasks s) (_task_states s) v (_joined_workers s)
     (_used_workers s) (_shutdown_requested s) (_conns s).
Definition set_joined_workers (s : t) (v : list (string * JoinedWorker.t)) : t :=
  mk (_tasks s) (_task_states s) (_pending_tasks s) v
     (_used_workers s) (_shutdown_requested s) (_conns s).
Definition set_used_workers (s : t) (v : gmap string string) : t :=
  mk (_tasks s) (_task_states s) (_pending_tasks s) (_joined_workers s)
     v (_shutdown_requested s) (_conns s).
Definition set_shutdown_requested (s : t) (v : bool) : t :=
  mk (_tasks s) (_task_states s) (_pending_tasks s) (_joined_workers s)
     (_used_workers s) v (_conns s).
Definition set_conns (s : t) (v : gset Connection) : t :=
  mk (_tasks s) (_task_states s) (_pending_tasks s) (_joined_workers s)
     (_used_workers s) (_shutdown_requested s) v.

(** What a handler leaves behind: the server after it, the messages it
    sent, and the exception that ended it, if any. *)
Definition result : Type := t * list packet * option exn.

(** [d.values()] *)
Definition values (d : gmap string string) : list string :=
  (map_to_list d).*2.

(** [any(P(dep_id) for dep_id in deps)] *)
Definition any_dep (P : string → bool) (deps : gset string) : bool :=
  existsb P (elements deps).

(** The first joined worker whose id is not among the values of the
    assignment table, in the table's insertion order. *)
Definition first_free (joined : list (string * JoinedWorker.t))
    (used : gmap string string) : option (string * JoinedWorker.t) :=
  find (λ kv, bool_decide (kv.1 ∉ values used)) joined.

(** The locals of [_schedule_once], with the messages sent so far. *)
Record pass := mk_pass {
  failed_tasks : gset string;
  scheduled_tasks : gset string;
  used_workers : gmap string string;
  sent : list packet;
}.

(** [for task_id in self._pending_tasks: ...], the pending set being
    visited in the order [order]. *)
Fixpoint schedule_loop (s : t) (order : list string) (p : pass)
  : pass * option exn :=
  match order with
  | [] => (p, None)
  | task_id :: rest =>
      match _tasks s !! task_id with
      | None => (p, Some (KeyError task_id))
      | Some task =>
          if any_dep (λ dep_id,
               bool_decide (_task_states s !! dep_id = Some FAILED))
               (dependencies task)
          then schedule_loop s rest
                 (mk_pass ({[task_id]} ∪ failed_tasks p) (scheduled_tasks p)
                    (used_workers p) (sent p))
          else if any_dep (λ dep_id,
               bool_decide (_task_states s !! dep_id ≠ Some COMPLETED))
               (dependencies task)
          then schedule_loop s rest p
          else
            match first_free (_joined_workers s) (_used_workers s) with
            | Some (worker_id, worker) =>
                schedule_loop s rest
                  (mk_pass (failed_tasks p) ({[task_id]} ∪ scheduled_tasks p)
                     (<[task_id := worker_id]> (used_workers p))
                     (sent p ++ [JoinedWorker.run_task worker task]))
            | None => schedule_loop s rest p
            end
      end
  end.

(** [for task_id in scheduled_tasks: self._pending_tasks.remove(task_id)] *)
Fixpoint remove_scheduled (s : t) (l : list string) : t * option exn :=
  match l with
  | [] => (s, None)
  | task_id :: rest =>
      if decide (task_id ∈ _pending_tasks s)
      then remove_scheduled
             (set_pending_tasks s (_pending_tasks s ∖ {[task_id]})) rest
      else (s, Some (KeyError task_id))
  end.

(** [for task_id in failed_tasks: ...] *)
Fixpoint fail_tasks (s : t) (l : list string) : t * option exn :=
  match l with
  | [] => (s, None)
  | task_id :: rest =>
      let s1 := set_task_states s (<[task_id := FAILED]> (_task_states s)) in
      if decide (task_id ∈ _pending_tasks s1)
      then fail_tasks
             (set_pending_tasks s1 (_pending_tasks s1 ∖ {[task_id]})) rest
      else (s1, Some (KeyError task_id))
  end.

Section Handlers.

(** The order in which a [for] loop visits a Python set is not fixed
    by the language: every such loop asks [enum] for it. *)
Variable enum : gset string → list string.

Definition _schedule_once (s : t) : result :=
  match schedule_loop s (enum (_pending_tasks s)) (mk_pass ∅ ∅ ∅ []) with
  | (p, Some e) => (s, sent p, Some e)
  | (p, None) =>
      (* self._used_workers.update(used_workers) *)
      let s1 := set_used_workers s (used_workers p ∪ _used_workers s) in
      match remove_scheduled s1 (enum (scheduled_tasks p)) with
      | (s2, Some e) => (s2, sent p, Some e)
      | (s2, None) =>
          let '(s3, r) := fail_tasks s2 (enum (failed_tasks p)) in
          (s3, sent p, r)
      end
  end.

Definition handle_join_worker (s : t) (conn : Connection)
    (worker_id : string) : result :=
  _schedule_once
    (set_joined_workers s
       (dict_set worker_id (JoinedWorker.mk worker_id conn)
          (_joined_workers s))).

Definition handle_leave_worker (s : t) (conn : Connection)
    (worker_id : string) : result :=
  match dict_del worker_id (_joined_workers s) with
  | Some d => (set_joined_workers s d, [], None)
  | None => (s, [], Some (KeyError worker_id))
  end.

Definition handle_update_task_state (s : t) (conn : Connection)
    (task_id new_state : string) : result :=
  match status_of_name new_state with
  | Raised e => (s, [], Some e)
  | Returned new_state =>
      let s1 := set_task_states s (<[task_id := new_state]> (_task_states s)) in
      if is_terminal new_state
      then
        match _used_workers s1 !! task_id with
        | None => (s1, [], Some (KeyError task_id))
        | Some _ =>
            _schedule_once
              (set_used_workers s1 (delete task_id (_used_workers s1)))
        end
      else _schedule_once s1
  end.

Definition handle_get_task_states (s : t) (conn : Connection) : result :=
  (s, [(conn, Message.task_states (status_name <$> _task_states s))], None).

Definition handle_submit_task (s : t) (conn : Connection)
    (task_id name working_dir spec : string) (dependencies : list string)
    (stdout_path stderr_path : string) : result :=
  let task :=
    mkTask task_id name working_dir spec (list_to_set dependencies)
      stdout_path stderr_path in
  let s1 := set_tasks s (<[task_id := task]> (_tasks s)) in
  let s2 := set_task_states s1 (<[task_id := SUBMITTED]> (_task_states s1)) in
  let s3 := set_pending_tasks s2 ({[task_id]} ∪ _pending_tasks s2) in
  _schedule_once s3.

Definition handle_close (s : t) (conn : Connection) : result :=
  if decide (conn ∈ _conns s)
  then (set_conns s (_conns s ∖ {[conn]}), [(conn, Message.close)], None)
  else (s, [], Some (KeyError "sock")).

(** [getattr(self, f"handle_{msg_type}")(conn, **msg)] *)
Definition handle (s : t) (conn : Connection) (m : Message.t) : result :=
  match m with
  | Message.join_worker worker_id => handle_join_worker s conn worker_id
  | Message.leave_worker worker_id => handle_leave_worker s conn worker_id
  | Message.update_task_state task_id new_state =>
      handle_update_task_state s conn task_id new_state
  | Message.get_task_states => handle_get_task_states s conn
  | Message.submit_task task_id name working_dir spec deps out err =>
      handle_submit_task s conn task_id name working_dir spec deps out err
  | Message.close => handle_close s conn
  | Message.task_states _ | Message.run_task _ | Message.shutdown =>
      (s, [], Some (AttributeError ("handle_" +:+ Message.type m)))
  end.

(** [shutdown], called by the cluster from its own thread. *)
Definition shutdown (s : t) : result :=
  (set_shutdown_requested s true,
   map (λ kv, JoinedWorker.shutdown kv.2) (_joined_workers s), None).

(** What the selector of [start] reports: a connection to accept or
    a message to read; [stop] is the cluster calling [shutdown]. *)
Inductive event :=
  | accept (client : Connection)
  | readable (client : Connection) (m : Message.t)
  | stop.

Definition _accept (s : t) (client : Connection) : result :=
  (set_conns s ({[client]} ∪ _conns s), [], None).

Definition _read (s : t) (client : Connection) (m : Message.t) : result :=
  if decide (client ∈ _conns s)
  then handle s client m
  else (s, [], Some (KeyError "client")).

(** The condition of the [while] loop of [start]. *)
Definition serving (s : t) : bool :=
  negb (_shutdown_requested s)
  || negb (bool_decide (_joined_workers s = [])).

Definition on_event (s : t) (ev : event) : result :=
  match ev with
  | accept client => _accept s client
  | readable client m => _read s client m
  | stop => shutdown s
  end.

(** [start]: events are served one at a time until the loop condition
    fails or a handler raises; the result carries the messages sent
    for each served event. *)
Fixpoint start (s : t) (evs : list event)
  : t * list (event * list packet) * option exn :=
  match evs with
  | [] => (s, [], None)
  | ev :: rest =>
      if serving s then
        match on_event s ev with
        | (s1, out, Some e) => (s1, [(ev, out)], Some e)
        | (s1, out, None) =>
            let '(s2, log, r) := start s1 rest in
            (s2, (ev, out) :: log, r)
        end
      else (s, [], None)
  end.

End Handlers.

End Server.

(** *** LocalOps: the adapter plugged into the tracking backend *)

Module LocalOps.

Record t := mk {
  working_dir : string;
  host : string;
  port : Z;
}.

Definition cancel_job (ops : t) (job_id : string) : outcome unit :=
  Raised (UnsupportedOperationError "cancel").

End LocalOps.

(** *** Client *)

Module Client.

Record t := mk {
  conn : Connection;
}.

(** [submit]: the message sent and the identifier returned; [task_id] is
    what [_gen_task_id] draws, [deps] is [None] when the argument is
    left out. *)
Definition submit (c : t) (task_id : string)
    (name spec working_dir stdout_path stderr_path : string)
    (deps : option (list string)) : packet * string :=
  ((conn c,
    Message.submit_task task_id name working_dir spec (default [] deps)
      stdout_path stderr_path),
   task_id).

(** [{k: LocalStatus[v] for k, v in response["tasks"].items()}] *)
Fixpoint decode_states (items : list (string * string))
    (acc : gmap string LocalStatus) : outcome (gmap string LocalStatus) :=
  match items with
  | [] => Returned acc
  | (k, v) :: rest =>
      match status_of_name v with
      | Returned st => decode_states rest (<[k := st]> acc)
      | Raised e => Raised e
      end
  end.

(** [status]: the request sent, and what is made of the message read in
    reply.  The failed assertion is an [Exception] with its text. *)
Definition status (c : t) (reply : Message.t)
  : packet * outcome (gmap string LocalStatus) :=
  ((conn c, Message.get_task_states),
   match reply with
   | Message.task_states tasks => decode_states (map_to_list tasks) ∅
   | _ => Raised (Exception "invalid response received")
   end).

(** [close] *)
Definition close (c : t) : packet := (conn c, Message.close).

End Client.

End Local.

(** ** Text helpers *)

Definition newline : string := String (ascii_of_nat 10) EmptyString.
Definition dquote : string := String (ascii_of_nat 34) EmptyString.

(** The characters [strip()] removes: space, tab, line feed, vertical tab,
    form feed and carriage return. *)
Definition is_space (c : ascii) : bool :=
  let n := nat_of_ascii c in
  bool_decide (n = 32 ∨ (9 ≤ n ∧ n ≤ 13)).

Fixpoint lstrip (s : string) : string :=
  match s with
  | EmptyString => EmptyString
  | String c s' => if is_space c then lstrip s' else s
  end.

Fixpoint rstrip (s : string) : string :=
  match s with
  | EmptyString => EmptyString
  | String c s' =>
      match rstrip s' with
      | EmptyString => if is_space c then EmptyString else String c EmptyString
      | r => String c r
      end
  end.

(** [s.strip()] *)
Definition strip (s : string) : string := rstrip (lstrip s).

(** [s.split(sep)] for a one-character separator. *)
Fixpoint split (sep : ascii) (s : string) : list string :=
  match s with
  | EmptyString => [EmptyString]
  | String c s' =>
      if decide (c = sep) then EmptyString :: split sep s'
      else match split sep s' with
           | w :: ws => String c w :: ws
           | [] => [String c EmptyString]
           end
  end.

(** [sep.join(l)] *)
Definition join (sep : string) (l : list string) : string := String.concat sep l.

(** ** Text and bytes

    Python 3 keeps [str] and [bytes] apart.  The lines read from a pipe
    that [Popen] opens without text mode are [bytes], and the methods of
    [bytes] refuse a [str] argument. *)
Inductive pipe_line :=
  | Str (s : string)
  | Bytes (b : string).

Definition bytes_refuse_str : exn :=
  TypeError "a bytes-like object is required, not 'str'".

(** [line.strip()] *)
Definition line_strip (line : pipe_line) : pipe_line :=
  match line with
  | Str s => Str (strip s)
  | Bytes b => Bytes (strip b)
  end.

(** [line.split(sep)], the separator being a [str] of one character. *)
Definition line_split (sep : ascii) (line : pipe_line) : outcome (list string) :=
  match line with
  | Str s => Returned (split sep s)
  | Bytes _ => Raised bytes_refuse_str
  end.

(** ** Subprocesses

    [Popen] connects an output stream of the child to a pipe only when
    it is asked to.  [communicate] returns what the child wrote to a
    stream that is a pipe, and [None] for a stream that is not. *)

Module Subprocess.

Record Popen := mk {
  args : list string;
  stdout_piped : bool;
  stderr_piped : bool;
}.

(** What the child does once it is started: what it writes to its two
    output streams, and its exit status. *)
Record child := ran {
  written : string;
  written_err : string;
  returncode : Z;
}.

Definition communicate (proc : Popen) (c : child) : option string * option string :=
  (if stdout_piped proc then Some (written c) else None,
   if stderr_piped proc then Some (written_err c) else None).

End Subprocess.

(** ** A file system

    Paths map to contents.  A file opened for writing has a buffer that
    reaches the file when it is flushed or closed.  A crash is modelled by
    stopping a program after some of its operations. *)

Module FS.

Record t := mk {
  files : gmap string string;
  handle : option (string * string);
}.

Definition of_files (files : gmap string string) : t := mk files None.

Inductive op :=
  | open_w (path : string)
  | write (data : string)
  | flush
  | fsync
  | close
  | rename (src dst : string).

Definition run_op (fs : t) (o : op) : outcome t :=
  match o with
  | open_w path => Returned (mk (<[path := ""]> (files fs)) (Some (path, "")))
  | write data =>
      match handle fs with
      | Some (path, buf) => Returned (mk (files fs) (Some (path, buf +:+ data)))
      | None => Raised (ValueError "I/O operation on closed file")
      end
  | flush =>
      match handle fs with
      | Some (path, buf) =>
          Returned (mk (<[path := default "" (files fs !! path) +:+ buf]> (files fs))
                       (Some (path, "")))
      | None => Raised (ValueError "I/O operation on closed file")
      end
  | fsync =>
      match handle fs with
      | Some _ => Returned fs
      | None => Raised (ValueError "I/O operation on closed file")
      end
  | close =>
      match handle fs with
      | Some (path, buf) =>
          Returned (mk (<[path := default "" (files fs !! path) +:+ buf]> (files fs))
                       None)
      | None => Returned fs
      end
  | rename src dst =>
      match files fs !! src with
      | Some data => Returned (mk (<[dst := data]> (delete src (files fs))) (handle fs))
      | None => Raised (Exception "FileNotFoundError")
      end
  end.

(** Run a program to its end or to its first exception. *)
Fixpoint run (fs : t) (prog : list op) : outcome t :=
  match prog with
  | [] => Returned fs
  | o :: rest =>
      match run_op fs o with
      | Returned fs' => run fs' rest
      | Raised e => Raised e
      end
  end.

(** The program is cut short after its first [n] operations. *)
Definition crash_after (n : nat) (fs : t) (prog : list op) : outcome t :=
  run fs (take n prog).

End FS.

(** ** JSON for objects of strings

    What [json.dump] writes for a [dict] from [str] to [str] (default
    separators, [ensure_ascii]) and what [json.load] reads back, for
    characters below 256. *)

Module Json.

Definition backslash : ascii := ascii_of_nat 92.
Definition quote : ascii := ascii_of_nat 34.

Definition hex_digit (n : nat) : ascii :=
  nth n (String.list_ascii_of_string "0123456789abcdef") (ascii_of_nat 48).

Definition escape_char (c : ascii) : string :=
  let n := nat_of_ascii c in
  if decide (n = 34) then String backslash dquote
  else if decide (n = 92) then String backslash (String backslash EmptyString)
  else if decide (n = 10) then String backslash "n"
  else if decide (n = 13) then String backslash "r"
  else if decide (n = 9) then String backslash "t"
  else if decide (n = 8) then String backslash "b"
  else if decide (n = 12) then String backslash "f"
  else if decide (32 ≤ n ∧ n ≤ 126) then String c EmptyString
  else String backslash
         (String "u" (String "0" (String "0"
            (String (hex_digit (n / 16)) (String (hex_digit (n mod 16)) EmptyString))))).

Fixpoint escape (s : string) : string :=
  match s with
  | EmptyString => EmptyString
  | String c s' => escape_char c +:+ escape s'
  end.

Definition dumps_string (s : string) : string := dquote +:+ escape s +:+ dquote.

Definition dumps_entry (kv : string * string) : string :=
  dumps_string kv.1 +:+ ": " +:+ dumps_string kv.2.

Definition dumps_members (l : list (string * string)) : string :=
  join ", " (map dumps_entry l).

Definition dumps (obj : gmap string string) : string :=
  "{" +:+ dumps_members (map_to_list obj) +:+ "}".

Definition hex_value (c : ascii) : option nat :=
  let n := nat_of_ascii c in
  if decide (48 ≤ n ∧ n ≤ 57) then Some (n - 48)
  else if decide (97 ≤ n ∧ n ≤ 102) then Some (n - 87)
  else if decide (65 ≤ n ∧ n ≤ 70) then Some (n - 55)
  else None.

Definition unescape (c : ascii) : option ascii :=
  let n := nat_of_ascii c in
  if decide (n = 34 ∨ n = 92 ∨ n = 47) then Some c
  else if decide (n = 110) then Some (ascii_of_nat 10)
  else if decide (n = 114) then Some (ascii_of_nat 13)
  else if decide (n = 116) then Some (ascii_of_nat 9)
  else if decide (n = 98) then Some (ascii_of_nat 8)
  else if decide (n = 102) then Some (ascii_of_nat 12)
  else None.

Definition cons_char (c : ascii) (r : option (string * string))
  : option (string * string) :=
  match r with
  | Some (body, rest) => Some (String c body, rest)
  | None => None
  end.

(** The rest of a string literal after its opening quote: the decoded
    body and what follows the closing quote. *)
Fixpoint loads_string (s : string) : option (string * string) :=
  match s with
  | EmptyString => None
  | String c rest =>
      if decide (c = quote) then Some (EmptyString, rest)
      else if decide (c = backslash) then
        match rest with
        | String e rest1 =>
            if decide (e = "u"%char) then
              match rest1 with
              | String a (String b (String h (String l rest2))) =>
                  match hex_value a, hex_value b, hex_value h, hex_value l with
                  | Some 0, Some 0, Some h, Some l =>
                      cons_char (ascii_of_nat (16 * h + l)) (loads_string rest2)
                  | _, _, _, _ => None
                  end
              | _ => None
              end
            else
              match unescape e with
              | Some c' => cons_char c' (loads_string rest1)
              | None => None
              end
        | EmptyString => None
        end
      else cons_char c (loads_string rest)
  end.

(** The members of an object after its opening brace. *)
Fixpoint loads_members (fuel : nat) (s : string) (acc : gmap string string)
  : option (gmap string string) :=
  match fuel, lstrip s with
  | S fuel, String q rest =>
      if decide (q = quote) then
        match loads_string rest with
        | Some (k, rest1) =>
            match lstrip rest1 with
            | String ":" rest2 =>
                match lstrip rest2 with
                | String q' rest3 =>
                    if decide (q' = quote) then
                      match loads_string rest3 with
                      | Some (v, rest4) =>
                          match lstrip rest4 with
                          | String "," rest5 =>
                              loads_members fuel rest5 (<[k := v]> acc)
                          | String "}" rest5 =>
                              if decide (lstrip rest5 = EmptyString)
                              then Some (<[k := v]> acc) else None
                          | _ => None
                          end
                      | None => None
                      end
                    else None
                | EmptyString => None
                end
            | _ => None
            end
        | None => None
        end
      else None
  | _, _ => None
  end.

Definition loads (s : string) : outcome (gmap string string) :=
  match lstrip s with
  | String "{" rest =>
      match lstrip rest with
      | String "}" rest' =>
          if decide (lstrip rest' = EmptyString) then Returned ∅
          else Raised JSONDecodeError
      | body =>
          match loads_members (String.length body) body ∅ with
          | Some obj => Returned obj
          | None => Raised JSONDecodeError
          end
      end
  | _ => Raised JSONDecodeError
  end.

End Json.

(** ** Option values of a target: integers and strings *)

Inductive value :=
  | VInt (n : Z)
  | VStr (s : string).

(** How [format] renders a value. *)
Definition str (v : value) : string :=
  match v with
  | VInt n => str_of_int n
  | VStr s => s
  end.

#[global] Instance outcome_ret : MRet outcome := λ A a, Returned a.
#[global] Instance outcome_bind : MBind outcome := λ A B f m,
  match m with
  | Returned a => f a
  | Raised e => Raised e
  end.

(** ** The Slurm backend ([gwf/backends/slurm.py]) *)

Module Slurm.

(** see squeue man page under JOB STATE CODES *)
Definition JOB_STATE_CODES : gmap string string :=
  list_to_map
    [ ("BF", "?"); ("CA", "?"); ("CD", "?"); ("CF", "R"); ("CG", "R");
      ("F", "?"); ("NF", "?"); ("PD", "Q"); ("PR", "?"); ("R", "R");
      ("S", "R"); ("TO", "?"); ("SE", "Q") ].

Definition OPTION_TABLE : gmap string string :=
  list_to_map
    [ ("nodes", "-N "); ("cores", "-c "); ("memory", "--mem=");
      ("walltime", "-t "); ("queue", "-p "); ("account", "-A ");
      ("constraint", "-C "); ("mail_type", "--mail-type=");
      ("mail_user", "--mail-user=") ].

Definition supported_options : gset string := dom OPTION_TABLE.

Definition job_db_path : string := ".gwf/slurm-backend-jobdb.json".

Record Target := mkTarget {
  name : string;
  working_dir : string;
  spec : string;
  options : list (string * value);
}.

Definition _find_exe (find_executable : string → option string) (name : string)
  : outcome string :=
  match find_executable name with
  | Some (String c exe) => Returned (String c exe)
  | _ =>
      Raised (BackendError
        ("Could not find executable " +:+ dquote +:+ name +:+ dquote +:+ "."))
  end.

(** [for line in stat.stdout: ...] of [_live_job_states] *)
Fixpoint live_loop (lines : list pipe_line) (result : gmap string string)
  : outcome (gmap string string) :=
  match lines with
  | [] => Returned result
  | line :: rest =>
      match line_split ";" (line_strip line) with
      | Raised e => Raised e
      | Returned [job_id; state; depends] =>
          match JOB_STATE_CODES !! state with
          | None => Raised (KeyError state)
          | Some simple_state =>
              if decide (simple_state = "Q" ∧ depends ≠ "")
              then live_loop rest (<[job_id := "H"]> result)
              else live_loop rest (<[job_id := simple_state]> result)
          end
      | Returned _ => Raised (ValueError "unpack")
      end
  end.

(** [_live_job_states], on the lines [squeue] prints.  [Popen] is given
    [stdout=subprocess.PIPE] and no text mode, so [stat.stdout] yields
    each line as [bytes]. *)
Definition _live_job_states (squeue_output : list string)
  : outcome (gmap string string) :=
  live_loop (Bytes <$> squeue_output) ∅.

(** The backend object once [configure] has set its attributes.
    [live_job_states] is the attribute that [configure] stores the
    result of the method [_live_job_states] under. *)
Record t := mk {
  squeue : string;
  sbatch : string;
  scancel : string;
  _job_db : gmap string string;
  live_job_states : gmap string string;
}.

Definition _compile_script (target : Target) : string :=
  let out := ["#!/bin/bash"] in
  let out :=
    foldl (λ out kv,
             if decide (kv.1 ∈ supported_options)
             then out ++ ["#SBATCH " +:+ (OPTION_TABLE !!! kv.1) +:+ str kv.2]
             else out)
          out (options target) in
  let out := out ++ [""] in
  let out := out ++ ["### Generated by GWF"] in
  let out := out ++ ["cd " +:+ working_dir target] in
  let out := out ++ ["export GWF_JOBID=$SLURM_JOBID"] in
  let out := out ++ ["export GWF_TARGET_NAME=" +:+ dquote +:+ name target +:+ dquote] in
  let out := out ++ ["set -e"] in
  let out := out ++ [""] in
  let out := out ++ [spec target] in
  join newline out.

(** [submitted] *)
Definition submitted (b : t) (target : Target) : bool :=
  bool_decide (name target ∈ dom (_job_db b)).

(** [running]; [None] stands for the [None] that [get] returns for a
    target without a job, which is no key of the live states. *)
Definition running (b : t) (target : Target) : bool :=
  match _job_db b !! name target with
  | Some target_job_id =>
      bool_decide (default "?" (live_job_states b !! target_job_id) = "R")
  | None => false
  end.

(** [submit]: [dependencies] are the names of the targets this one
    depends on, [sbatch_run] is what [sbatch] does once started.
    [Popen(cmd)] asks for no pipe.  An [error_text] that is [None] is
    written as it prints.  The result carries the command line that was
    run. *)
Definition submit (b : t) (target : Target) (dependencies : list string)
    (sbatch_run : Subprocess.child)
  : t * list (list string) * option exn :=
  let dependency_ids := omap (λ dep, _job_db b !! dep) dependencies in
  let cmd := [sbatch b; "--parsable"] in
  let cmd :=
    match dependency_ids with
    | [] => cmd
    | _ => cmd ++ ["--dependency=afterok:" +:+ join "," dependency_ids]
    end in
  let script_contents := _compile_script target in
  let proc := Subprocess.mk cmd false false in
  let '(new_job_id, error_text) := Subprocess.communicate proc sbatch_run in
  if decide (Subprocess.returncode sbatch_run ≠ 0%Z)
  then (b, [cmd], Some (BackendError (default "None" error_text)))
  else
    match new_job_id with
    | None => (b, [cmd], Some (AttributeError "strip"))
    | Some new_job_id =>
        let new_job_id := strip new_job_id in
        (mk (squeue b) (sbatch b) (scancel b)
            (<[name target := new_job_id]> (_job_db b))
            (<[new_job_id := "H"]> (live_job_states b)),
         [cmd], None)
    end.

(** [cancel]: the command lines that were run. *)
Definition cancel (b : t) (target : Target) : list (list string) :=
  let target_job_id := default "?" (_job_db b !! name target) in
  if decide (target_job_id ∈ dom (live_job_states b))
  then [[scancel b; "-j"; target_job_id]]
  else [].

Section Persistence.

(** [json.dump] and [json.load] on the job database. *)
Variable json_dump : gmap string string → string.
Variable json_load : string → outcome (gmap string string).

Definition dump_atomic (obj : gmap string string) (path : string) : list FS.op :=
  [ FS.open_w (path +:+ ".new");
    FS.write (json_dump obj);
    FS.flush;
    FS.fsync;
    FS.close;
    FS.close;   (* leaving the [with] block *)
    FS.rename (path +:+ ".new") path ].

Definition _read_job_db (fs : FS.t) (path : string)
  : outcome (gmap string string) :=
  match FS.files fs !! path with
  | Some data => json_load data
  | None => Returned ∅
  end.

(** [configure], given what the machine offers: the executables on
    the path, the files, and the lines [squeue] prints. *)
Definition configure (find_executable : string → option string) (fs : FS.t)
    (squeue_output : list string) : outcome t :=
  squeue ← _find_exe find_executable "squeue";
  sbatch ← _find_exe find_executable "sbatch";
  scancel ← _find_exe find_executable "scancel";
  job_db ← _read_job_db fs job_db_path;
  live ← _live_job_states squeue_output;
  let job_db := omap (λ job_id, live !! job_id) job_db in
  mret (mk squeue sbatch scancel job_db live).

(** [close] *)
Definition close (b : t) : list FS.op :=
  dump_atomic (_job_db b) job_db_path.

End Persistence.

End Slurm.

(** ** More text helpers *)

(** [s.startswith(prefix)] *)
Fixpoint startswith (prefix s : string) : bool :=
  match prefix, s with
  | EmptyString, _ => true
  | String a prefix', String b s' => bool_decide (a = b) && startswith prefix' s'
  | String _ _, EmptyString => false
  end.

(** [s.split()]: the words between runs of white space; [cur] is the
    word being read. *)
Fixpoint split_whitespace (cur : option string) (s : string) : list string :=
  match s with
  | EmptyString =>
      match cur with
      | Some w => [w]
      | None => []
      end
  | String c s' =>
      if is_space c then
        match cur with
        | Some w => w :: split_whitespace None s'
        | None => split_whitespace None s'
        end
      else split_whitespace (Some (default EmptyString cur +:+ String c EmptyString)) s'
  end.

Definition words (s : string) : list string := split_whitespace None s.

(** ** The older wrappers ([gwf/backends.py]) *)

Module Legacy.

Module SlurmBackend.

(** A value of the result of [get_state_of_jobs]: [False] or a state. *)
Inductive state :=
  | PyFalse
  | PyStr (s : string).

Definition map_state : gmap string string :=
  list_to_map
    [ ("BF", "?"); ("CA", "?"); ("CD", "?"); ("CF", "R"); ("CG", "R");
      ("F", "?"); ("NF", "?"); ("PD", "Q"); ("PR", "?"); ("R", "R");
      ("S", "R"); ("TO", "?"); ("SE", "Q") ].

(** The loop inside [try: ... except: pass]: an exception ends the
    loop and keeps what was stored before it. *)
Fixpoint state_loop (lines : list string) (result : gmap string state)
  : gmap string state :=
  match lines with
  | [] => result
  | line :: rest =>
      match split ";" (strip line) with
      | [job_id; state; depends] =>
          match map_state !! state with
          | None => result
          | Some simple_state =>
              if decide (simple_state = "Q" ∧ depends ≠ "")
              then state_loop rest (<[job_id := PyStr "H"]> result)
              else state_loop rest (<[job_id := PyStr simple_state]> result)
          end
      | _ => result
      end
  end.

Definition get_state_of_jobs (job_ids : list string) (squeue_output : list string)
  : gmap string state :=
  state_loop squeue_output (list_to_map ((λ job_id, (job_id, PyFalse)) <$> job_ids)).

(** [write_script_header]: the lines printed to [f], and the
    [KeyError] of a missing mandatory option. *)
Definition write_script_header (options : gmap string value)
  : list string * option exn :=
  match options !! "nodes" with
  | None => ([], Some (KeyError "nodes"))
  | Some nodes =>
  let f := ["#SBATCH -N " +:+ str nodes] in
  match options !! "cores" with
  | None => (f, Some (KeyError "cores"))
  | Some cores =>
  let f := f ++ ["#SBATCH -c " +:+ str cores] in
  match options !! "memory" with
  | None => (f, Some (KeyError "memory"))
  | Some memory =>
  let f := f ++ ["#SBATCH --mem=" +:+ str memory] in
  match options !! "walltime" with
  | None => (f, Some (KeyError "walltime"))
  | Some walltime =>
  let f := f ++ ["#SBATCH -t " +:+ str walltime] in
  let f := match options !! "queue" with
           | Some v => f ++ ["#SBATCH -p " +:+ str v] | None => f end in
  let f := match options !! "account" with
           | Some v => f ++ ["#SBATCH -A " +:+ str v] | None => f end in
  let f := match options !! "constraint" with
           | Some v => f ++ ["#SBATCH -C " +:+ str v] | None => f end in
  let f := match options !! "mail_type" with
           | Some v => f ++ ["#SBATCH --mail-type=" +:+ str v] | None => f end in
  let f := match options !! "mail_user" with
           | Some v => f ++ ["#SBATCH --mail-user=" +:+ str v] | None => f end in
  (f, None)
  end end end end.

Definition write_script_variables : list string :=
  ["export GWF_JOBID=$SLURM_JOBID"].

End SlurmBackend.

Module TorqueBackend.

(** The loop over the lines [qstat -f] prints for one job, inside
    [try: ... except: pass]: every line that starts with [job_state]
    stores its third word as the state of the job; a line with fewer
    words raises [IndexError], which ends the loop. *)
Fixpoint state_lines (lines : list string) (job_id : string)
    (result : gmap string (option string)) : gmap string (option string) :=
  match lines with
  | [] => result
  | line :: rest =>
      let line := strip line in
      if startswith "job_state" line then
        match words line !! 2 with
        | Some status => state_lines rest job_id (<[job_id := Some status]> result)
        | None => result
        end
      else state_lines rest job_id result
  end.

(** [get_state_of_jobs]; [qstat] is what running [qstat -f job_id]
    gives: the lines it prints, or the exception of [Popen].  A value
    [None] of the result is Python's [None]. *)
Definition get_state_of_jobs (qstat : string → outcome (list string))
    (job_ids : list string) : gmap string (option string) :=
  foldl (λ result job_id,
           match qstat job_id with
           | Returned lines => state_lines lines job_id result
           | Raised _ => result
           end)
        (list_to_map ((λ job_id, (job_id, None)) <$> job_ids)) job_ids.

(** [write_script_header]: the lines printed to [f], and the
    [KeyError] of a missing mandatory option. *)
Definition write_script_header (options : gmap string value)
  : list string * option exn :=
  match options !! "nodes" with
  | None => ([], Some (KeyError "nodes"))
  | Some nodes =>
  match options !! "cores" with
  | None => ([], Some (KeyError "cores"))
  | Some cores =>
  let f := ["#PBS -l nodes=" +:+ str nodes +:+ ":ppn=" +:+ str cores] in
  match options !! "memory" with
  | None => (f, Some (KeyError "memory"))
  | Some memory =>
  let f := f ++ ["#PBS -l mem=" +:+ str memory] in
  match options !! "walltime" with
  | None => (f, Some (KeyError "walltime"))
  | Some walltime =>
  let f := f ++ ["#PBS -l walltime=" +:+ str walltime] in
  let f := match options !! "queue" with
           | Some v => f ++ ["#PBS -q " +:+ str v] | None => f end in
  let f := match options !! "account" with
           | Some v => f ++ ["#PBS -A " +:+ str v] | None => f end in
  (f, None)
  end end end end.

Definition write_script_variables : list string :=
  ["export GWF_JOBID=$PBS_JOBID"].

End TorqueBackend.

End Legacy.

(** * Specification vocabulary *)

Module ServerSpec.
Import Local Local.Server.

(** An enumeration is a legal iteration order when it lists every set
    once, element by element. *)
Definition iteration_order (enum : gset string → list string) : Prop :=
  ∀ X, enum X ≡ₚ elements X.

(** One turn of the event loop: the loop condition holds and the event
    is served under some legal iteration order. *)
Definition step (s : t) (ev : event) (r : result) : Prop :=
  serving s = true ∧ ∃ enum, iteration_order enum ∧ on_event enum s ev = r.

(** Turns of the event loop whose handlers all returned, with the
    messages each one sent. *)
Inductive run : t → list (event * list packet) → t → Prop :=
  | run_nil s : run s [] s
  | run_cons s ev s1 out log s2 :
      step s ev (s1, out, None) →
      run s1 log s2 →
      run s ((ev, out) :: log) s2.

Definition reachable (s : t) : Prop := ∃ log, run init log s.

(** The claim of section 8: no two tasks share a worker. *)
Definition injective_assignment (s : t) : Prop :=
  ∀ t1 t2 w,
    _used_workers s !! t1 = Some w → _used_workers s !! t2 = Some w → t1 = t2.

(** A [run_task] message for [task] is among [out]. *)
Definition dispatched (out : list packet) (task : Task) : Prop :=
  ∃ c, (c, Message.run_task task) ∈ out.

(** A [run_task] message for the task identifier [id] is among [out]. *)
Definition dispatched_id (out : list packet) (id : string) : Prop :=
  ∃ task, dispatched out task ∧ task_id task = id.

(** An [update_task_state] event recording [COMPLETED] for [id] is
    among [evs]. *)
Definition completed_reported (evs : list event) (id : string) : Prop :=
  ∃ c, readable c (Message.update_task_state id "COMPLETED") ∈ evs.

Definition submits (ev : event) (id : string) : Prop :=
  ∃ c name wd spec deps out err,
    ev = readable c (Message.submit_task id name wd spec deps out err).

(** What the scheduling pass decides for a pending task. *)
Inductive verdict :=
  | failed_dependency
  | not_ready
  | ready (task : Task).

Definition classify (s : t) (task_id : string) : option verdict :=
  match _tasks s !! task_id with
  | None => None
  | Some task =>
      if any_dep (λ dep_id, bool_decide (_task_states s !! dep_id = Some FAILED))
           (dependencies task)
      then Some failed_dependency
      else if any_dep (λ dep_id,
                bool_decide (_task_states s !! dep_id ≠ Some COMPLETED))
                (dependencies task)
      then Some not_ready
      else Some (ready task)
  end.

Definition has_failed_dependency (s : t) (task_id : string) : bool :=
  match classify s task_id with
  | Some failed_dependency => true
  | _ => false
  end.

(** Tables that fit together: every pending task is in the task table
    under its own identifier. *)
Definition well_formed (s : t) : Prop :=
  (∀ id, id ∈ _pending_tasks s → is_Some (_tasks s !! id)) ∧
  (∀ id task, _tasks s !! id = Some task → task_id task = id).

(** The tables the scheduling pass of an event starts from, for the
    events whose handler reaches its pass. *)
Definition pass_state (s : t) (ev : event) : option t :=
  match ev with
  | readable client m =>
      if decide (client ∈ _conns s) then
        match m with
        | Message.join_worker worker_id =>
            Some (set_joined_workers s
                    (dict_set worker_id (JoinedWorker.mk worker_id client)
                       (_joined_workers s)))
        | Message.update_task_state task_id new_state =>
            match status_of_name new_state with
            | Raised _ => None
            | Returned st =>
                let s1 := set_task_states s (<[task_id := st]> (_task_states s)) in
                if is_terminal st then
                  match _used_workers s !! task_id with
                  | Some _ =>
                      Some (set_used_workers s1 (delete task_id (_used_workers s)))
                  | None => None
                  end
                else Some s1
            end
        | Message.submit_task task_id name working_dir spec deps out err =>
            Some (set_pending_tasks
                    (set_task_states
                       (set_tasks s
                          (<[task_id := mkTask task_id name working_dir spec
                                          (list_to_set deps) out err]> (_tasks s)))
                       (<[task_id := SUBMITTED]> (_task_states s)))
                    ({[task_id]} ∪ _pending_tasks s))
        | _ => None
        end
      else None
  | _ => None
  end.

(** What the pass of an event decides for a task, if the event has one. *)
Definition classify_after (s : t) (ev : event) (task_id : string) : option verdict :=
  match pass_state s ev with
  | Some s1 => classify s1 task_id
  | None => None
  end.

(** [a] is an ancestor of [id]: a dependency, or a dependency of one. *)
Inductive ancestor (s : t) : string → string → Prop :=
  | ancestor_direct id task a :
      _tasks s !! id = Some task → a ∈ dependencies task → ancestor s a id
  | ancestor_step id task d a :
      _tasks s !! id = Some task → d ∈ dependencies task →
      ancestor s a d → ancestor s a id.

(** *** Scenarios

    Two connections are accepted: a client on 1, a worker on 2. *)

Definition submit (id : string) (deps : list string) : event :=
  readable 1
    (Message.submit_task id id "/work" "true" deps
       (id +:+ ".stdout") (id +:+ ".stderr")).

Definition task_of (id : string) (deps : list string) : Task :=
  mkTask id id "/work" "true" (list_to_set deps)
    (id +:+ ".stdout") (id +:+ ".stderr").

Definition report (id : string) (st : LocalStatus) : event :=
  readable 2 (Message.update_task_state id (status_name st)).

Definition join (worker_id : string) : event :=
  readable 2 (Message.join_worker worker_id).

(** B depends on A; one worker joins and A starts running. *)
Definition a_running : list event :=
  [accept 1; accept 2; submit "A" []; submit "B" ["A"]; join "Worker0";
   report "A" RUNNING].

(** C depends on B, which depends on A; A is running. *)
Definition chain_running : list event :=
  [accept 1; accept 2; submit "A" []; submit "B" ["A"]; submit "C" ["B"];
   join "Worker0"; report "A" RUNNING].

(** Two independent tasks are submitted before the only worker joins. *)
Definition two_tasks_then_worker : list event :=
  [accept 1; accept 2; submit "T1" []; submit "T2" []; join "Worker0"].

(** The tables the pass of [ev] starts from, once [evs] have been
    served. *)
Definition at_pass (evs : list event) (ev : event) : t :=
  default init (pass_state ((start elements init evs).1.1) ev).

(** The server and the log after [start] has served [evs]. *)
Definition after (evs : list event) : t := (start elements init evs).1.1.
Definition log_of (evs : list event) : list (event * list packet) :=
  (start elements init evs).1.2.

End ServerSpec.

Module WorkerSpec.
Import Local Local.Worker.

(** The ways a task fails: an exception while the subprocess is set up
    or waited for, a shutdown request seen while it is still running, a
    non-zero exit. *)
Inductive fails (w : t) : execution → Prop :=
  | fails_setup e : fails w (setup_raises e)
  | fails_wait polls e : fails w (started polls (wait_raises e))
  | fails_shutdown polls fin :
      _shutdown_requested w = true → 0 < polls → fails w (started polls fin)
  | fails_exit polls returncode :
      returncode ≠ 0%Z → fails w (started polls (exited returncode)).

(** [RUNNING], then one terminal state. *)
Definition reports (w : t) (task : Task) (terminal : LocalStatus) : list packet :=
  [(conn w, Message.update_task_state (task_id task) "RUNNING");
   (conn w, Message.update_task_state (task_id task) (status_name terminal))].

(** The reports of the assignments of an inbox, in order. *)
Definition reports_of (w : t) (inbox : list (Message.t * execution)) : list packet :=
  flat_map (λ m, match m.1 with
                 | Message.run_task task => run_task w task m.2
                 | _ => []
                 end) inbox.

Definition assignment (m : Message.t * execution) : Prop :=
  ∃ task, m.1 = Message.run_task task.

(** A worker on connection 2, and three assignments: the first exits
    with code 1, the second cannot be started, the third succeeds. *)
Definition worker0 : t := mk "Worker0" 2 false.

Definition job (id : string) : Task :=
  mkTask id id "/work" "true" ∅ (id +:+ ".stdout") (id +:+ ".stderr").

Definition three_assignments : list (Message.t * execution) :=
  [ (Message.run_task (job "T1"), started 3 (exited 1));
    (Message.run_task (job "T2"), setup_raises (Exception "No such file or directory"));
    (Message.run_task (job "T3"), started 2 (exited 0)) ].

End WorkerSpec.

Module SlurmSpec.
Import Slurm.

(** The command lines a backend's [cancel] runs, or the exception it
    raises: the part of the backend contract that cancellation needs. *)
Class Backend (B : Type) := {
  job_handle : Type;
  backend_cancel : B → job_handle → outcome (list (list string));
}.

#[global] Instance slurm_backend : Backend Slurm.t := {|
  job_handle := Target;
  backend_cancel b target := Returned (cancel b target);
|}.

#[global] Instance local_backend : Backend Local.LocalOps.t := {|
  job_handle := string;
  backend_cancel ops job_id :=
    match Local.LocalOps.cancel_job ops job_id with
    | Returned _ => Returned []
    | Raised e => Raised e
    end;
|}.


(** *** Scenario: a machine with the Slurm tools, a job database left by
    an earlier run, and what [squeue] prints now. *)

Definition which (name : string) : option string := Some ("/usr/bin/" +:+ name).

Definition persisted : gmap string string :=
  {[ "align" := "4711"; "sort" := "4712" ]}.

Definition disk : FS.t :=
  FS.of_files {[ job_db_path := Json.dumps persisted ]}.

Definition squeue_prints : list string :=
  [ "4711;R;" +:+ newline; "4800;PD;afterok:4711" +:+ newline ].

Definition target (name : string) : Target :=
  mkTarget name "/work" "true" [].

(** *** The job-state table *)

(** The fields of a line of the listing. *)
Definition fields (line : string) : list string := split ";" (strip line).

(** A line of text the loops can digest: three fields, the second a
    state code of the table. *)
Definition digestible (line : string) : Prop :=
  ∃ job_id state depends,
    fields line = [job_id; state; depends] ∧ is_Some (JOB_STATE_CODES !! state).

(** *** Submission scripts *)

(** The directive line of a recognised option. *)
Definition directive (kv : string * value) : string :=
  "#SBATCH " +:+ (OPTION_TABLE !!! kv.1) +:+ str kv.2.

(** What follows the directives. *)
Definition epilogue (target : Target) : list string :=
  [ ""; "### Generated by GWF"; "cd " +:+ working_dir target;
    "export GWF_JOBID=$SLURM_JOBID";
    "export GWF_TARGET_NAME=" +:+ dquote +:+ name target +:+ dquote;
    "set -e"; ""; spec target ].

(** The fixed order of the interface description: nodes, cores, memory,
    walltime, then the optional directives. *)
Definition fixed_order : list (string * string) :=
  [ ("nodes", "-N "); ("cores", "-c "); ("memory", "--mem=");
    ("walltime", "-t "); ("queue", "-p "); ("account", "-A ");
    ("constraint", "-C "); ("mail_type", "--mail-type=");
    ("mail_user", "--mail-user=") ].

(** The directive lines for [options], in the fixed order. *)
Definition in_fixed_order (options : gmap string value) : list string :=
  omap (λ kf, (λ v, "#SBATCH " +:+ kf.2 +:+ str v) <$> options !! kf.1) fixed_order.

Definition with_options (target : Target) (options : list (string * value)) : Target :=
  mkTarget (name target) (working_dir target) (spec target) options.

(** A target whose options are not listed in the fixed order, with one
    option no backend knows. *)
Definition align : Target :=
  mkTarget "align" "/work" "bwa mem ref.fa reads.fq"
    [ ("walltime", VStr "01:00:00"); ("threads", VInt 8); ("nodes", VInt 2) ].

(** Options as the older wrapper receives them. *)
Definition header_options : gmap string value :=
  list_to_map
    [ ("walltime", VStr "01:00:00"); ("threads", VInt 8); ("nodes", VInt 2);
      ("queue", VStr "normal"); ("memory", VStr "8g"); ("cores", VInt 4) ].

(** A backend that tracks two jobs, one of them still live. *)
Definition tracking : Slurm.t :=
  mk "/usr/bin/squeue" "/usr/bin/sbatch" "/usr/bin/scancel"
     {[ "align" := "4711"; "sort" := "4712" ]} {[ "4711" := "R" ]}.



End SlurmSpec.

Module PassSpec.
Import Local Local.Server ServerSpec.

(** A pending task is doomed when one of its dependencies has failed, or
    is itself doomed and not recorded as completed. *)
Inductive doomed (s : t) : string → Prop :=
  | doomed_direct id task d :
      id ∈ _pending_tasks s → _tasks s !! id = Some task →
      d ∈ dependencies task → _task_states s !! d = Some FAILED →
      doomed s id
  | doomed_step id task d :
      id ∈ _pending_tasks s → _tasks s !! id = Some task →
      d ∈ dependencies task → _task_states s !! d ≠ Some COMPLETED →
      doomed s d → doomed s id.

(** Scheduling passes in a row, one for each iteration order given, up
    to the first that raises. *)
Fixpoint passes (enums : list (gset string → list string)) (s : t) : result :=
  match enums with
  | [] => (s, [], None)
  | enum :: rest =>
      match _schedule_once enum s with
      | (s1, out, None) =>
          let '(s2, out2, r) := passes rest s1 in
          (s2, out ++ out2, r)
      | (s1, out, Some e) => (s1, out, Some e)
      end
  end.

(** No two pending tasks are ready at once. *)
Definition at_most_one_ready (s : t) : Prop :=
  ∀ id1 id2 task1 task2,
    id1 ∈ _pending_tasks s → id2 ∈ _pending_tasks s →
    classify s id1 = Some (ready task1) → classify s id2 = Some (ready task2) →
    id1 = id2.

(** The worker identifier has no task assigned. *)
Definition unassigned (s : t) (worker_id : string) : Prop :=
  ∀ task_id, _used_workers s !! task_id ≠ Some worker_id.

(** The [leave_worker] messages of workers, each on its connection. *)
Definition leaves (ws : list (Connection * string)) : list event :=
  (λ cw, readable cw.1 (Message.leave_worker cw.2)) <$> ws.

(** The tables of the pass in which A, on which B depends, on which C
    depends, is found failed. *)
Definition chain_failed : t := at_pass chain_running (report "A" FAILED).

(** One worker has joined and T1 runs on it. *)
Definition busy_worker : list event :=
  [accept 1; accept 2; join "Worker0"; submit "T1" []].

(** The tables of the pass that follows the submission of T1 to a
    cluster of one idle worker. *)
Definition one_ready : t :=
  at_pass [accept 1; accept 2; join "Worker0"] (submit "T1" []).

(** The terminal state a worker reports for a task. *)
Definition terminal_state (w : Worker.t) (task : Task) (env : Worker.execution)
  : LocalStatus :=
  match Worker.try_body w task env with
  | Some _ => FAILED
  | None => COMPLETED
  end.

End PassSpec.

Module BackendSpec.

(** The error of [_find_exe] for a tool that is not installed. *)
Definition not_found (name : string) : exn :=
  BackendError ("Could not find executable " +:+ dquote +:+ name +:+ dquote +:+ ".").

(** A machine on which only [squeue] is installed. *)
Definition only_squeue (name : string) : option string :=
  if decide (name = "squeue") then Some "/usr/bin/squeue" else None.

(** The command line of a submission whose dependencies have the job
    identifiers [ids]. *)
Definition sbatch_command (b : Slurm.t) (ids : list string) : list string :=
  [Slurm.sbatch b; "--parsable"]
    ++ match ids with
       | [] => []
       | _ => ["--dependency=afterok:" +:+ join "," ids]
       end.

(** The options no header is written without, in the order the
    wrappers read them. *)
Definition mandatory : list string := ["nodes"; "cores"; "memory"; "walltime"].

(** The [KeyError] of the first mandatory option that is missing. *)
Definition first_missing (options : gmap string value) : option exn :=
  KeyError <$> head (filter (λ key, options !! key = None) mandatory).

End BackendSpec.

(** * The scheduling pass *)

Section Schedule_loop.
Import Local Local.Server ServerSpec.

Lemma any_dep_true P deps :
  any_dep P deps = true ↔ ∃ d, d ∈ deps ∧ P d = true.
Proof.
  unfold any_dep. rewrite existsb_exists. split.
  - intros (d & Hin & HP). exists d. split; [|done].
    apply elem_of_elements, list_elem_of_In, Hin.
  - intros (d & Hin & HP). exists d. split; [|done].
    apply list_elem_of_In, elem_of_elements, Hin.
Qed.

Lemma any_dep_false P deps :
  any_dep P deps = false ↔ ∀ d, d ∈ deps → P d = false.
Proof.
  split.
  - intros Hany d Hd. destruct (P d) eqn:HP; [|done].
    assert (any_dep P deps = true) by (apply any_dep_true; eauto). congruence.
  - intros Hall. destruct (any_dep P deps) eqn:Hany; [|done].
    apply any_dep_true in Hany as (d & Hd & HP). rewrite Hall in HP; done.
Qed.

Ltac case_any_dep H :=
  match goal with
  | |- context [if any_dep ?P ?X then _ else _] => destruct (any_dep P X) eqn:H
  end.

Lemma classify_failed s id :
  classify s id = Some failed_dependency ↔
  ∃ task d, _tasks s !! id = Some task ∧ d ∈ dependencies task ∧
            _task_states s !! d = Some FAILED.
Proof.
  unfold classify. split.
  - destruct (_tasks s !! id) as [task|]; [|done].
    case_any_dep Hf.
    + intros _. apply any_dep_true in Hf as (d & Hd & HP).
      apply bool_decide_eq_true in HP. eauto.
    + case_any_dep Hw; discriminate.
  - intros (task & d & -> & Hd & Hst).
    assert (any_dep (λ dep_id, bool_decide (_task_states s !! dep_id = Some FAILED))
              (dependencies task) = true) as ->; [|done].
    apply any_dep_true. exists d. split; [done|]. by apply bool_decide_eq_true.
Qed.

Lemma classify_ready s id task :
  classify s id = Some (ready task) ↔
  _tasks s !! id = Some task ∧
  ∀ d, d ∈ dependencies task → _task_states s !! d = Some COMPLETED.
Proof.
  unfold classify. split.
  - destruct (_tasks s !! id) as [task'|]; [|done].
    case_any_dep Hf; [done|]. case_any_dep Hw; [done|].
    intros [= ->]. split; [done|]. intros d Hd.
    rewrite any_dep_false in Hw. specialize (Hw d Hd).
    apply bool_decide_eq_false in Hw.
    destruct (decide (_task_states s !! d = Some COMPLETED)); [done|contradiction].
  - intros [-> Hall].
    assert (any_dep (λ dep_id, bool_decide (_task_states s !! dep_id = Some FAILED))
              (dependencies task) = false) as ->.
    { apply any_dep_false. intros d Hd. apply bool_decide_eq_false.
      rewrite (Hall d Hd). discriminate. }
    assert (any_dep (λ dep_id, bool_decide (_task_states s !! dep_id ≠ Some COMPLETED))
              (dependencies task) = false) as ->; [|done].
    apply any_dep_false. intros d Hd. apply bool_decide_eq_false.
    rewrite (Hall d Hd). auto.
Qed.

(** The loop, one pending task at a time, in terms of [classify]. *)
Lemma schedule_loop_cons s id rest p :
  schedule_loop s (id :: rest) p =
  match classify s id with
  | None => (p, Some (KeyError id))
  | Some failed_dependency =>
      schedule_loop s rest
        (mk_pass ({[id]} ∪ failed_tasks p) (scheduled_tasks p)
           (used_workers p) (sent p))
  | Some not_ready => schedule_loop s rest p
  | Some (ready task) =>
      match first_free (_joined_workers s) (_used_workers s) with
      | Some (worker_id, worker) =>
          schedule_loop s rest
            (mk_pass (failed_tasks p) ({[id]} ∪ scheduled_tasks p)
               (<[id := worker_id]> (used_workers p))
               (sent p ++ [JoinedWorker.run_task worker task]))
      | None => schedule_loop s rest p
      end
  end.
Proof.
  unfold classify. simpl. destruct (_tasks s !! id) as [task|]; [|done].
  case_any_dep Hf; [done|]. case_any_dep Hw; done.
Qed.

(** Every message the loop sends is a [run_task] for a pending task that
    [classify] finds ready, addressed to the first free worker. *)
Lemma schedule_loop_sent s order p p' r :
  schedule_loop s order p = (p', r) →
  ∀ pkt, pkt ∈ sent p' →
    pkt ∈ sent p ∨
    ∃ id task worker_id worker,
      id ∈ order ∧ classify s id = Some (ready task) ∧
      first_free (_joined_workers s) (_used_workers s) = Some (worker_id, worker) ∧
      pkt = JoinedWorker.run_task worker task.
Proof.
  revert p. induction order as [|id rest IH]; intros p Hloop pkt Hpkt.
  - simpl in Hloop. injection Hloop as <- <-. by left.
  - rewrite schedule_loop_cons in Hloop.
    destruct (classify s id) as [[| |task]|] eqn:Hc.
    + destruct (IH _ Hloop pkt Hpkt) as [Hin|(id' & task' & w & wk & Hin & ?)].
      * by left.
      * right. exists id', task', w, wk. split; [by apply list_elem_of_further|done].
    + destruct (IH _ Hloop pkt Hpkt) as [Hin|(id' & task' & w & wk & Hin & ?)].
      * by left.
      * right. exists id', task', w, wk. split; [by apply list_elem_of_further|done].
    + destruct (first_free _ _) as [[worker_id worker]|] eqn:Hff.
      * destruct (IH _ Hloop pkt Hpkt) as [Hin|(id' & task' & w & wk & Hin & ?)].
        -- simpl in Hin. apply elem_of_app in Hin as [Hin|Hin]; [by left|].
           apply list_elem_of_singleton in Hin as ->. right.
           exists id, task, worker_id, worker. split; [apply list_elem_of_here|done].
        -- right. exists id', task', w, wk.
           split; [by apply list_elem_of_further|done].
      * destruct (IH _ Hloop pkt Hpkt) as [Hin|(id' & task' & w & wk & Hin & ?)].
        -- by left.
        -- right. exists id', task', w, wk.
           split; [by apply list_elem_of_further|done].
    + injection Hloop as <- <-. by left.
Qed.

(** The loop runs to its end when every visited task is in the table. *)
Lemma schedule_loop_returns s order p :
  (∀ id, id ∈ order → is_Some (_tasks s !! id)) →
  ∃ p', schedule_loop s order p = (p', None).
Proof.
  revert p. induction order as [|id rest IH]; intros p Hdom.
  - by exists p.
  - rewrite schedule_loop_cons.
    assert (∀ id', id' ∈ rest → is_Some (_tasks s !! id')) as Hrest.
    { intros id' Hin. apply Hdom. by apply list_elem_of_further. }
    destruct (Hdom id) as [task Htask]; [apply list_elem_of_here|].
    unfold classify. rewrite Htask.
    repeat case_any_dep ltac:(fresh); try by apply IH.
    destruct (first_free _ _) as [[worker_id worker]|]; by apply IH.
Qed.

Lemma schedule_loop_failed s order p p' :
  schedule_loop s order p = (p', None) →
  ∀ id, id ∈ failed_tasks p' ↔
        id ∈ failed_tasks p ∨ (id ∈ order ∧ classify s id = Some failed_dependency).
Proof.
  revert p. induction order as [|id0 rest IH]; intros p Hloop id.
  - simpl in Hloop. injection Hloop as <-. set_solver.
  - rewrite schedule_loop_cons in Hloop.
    destruct (classify s id0) as [[| |task]|] eqn:Hc; [| | |done].
    + rewrite (IH _ Hloop id). simpl. rewrite elem_of_cons.
      split; [|set_solver].
      intros [[->%elem_of_singleton|?]%elem_of_union|[? ?]]; eauto.
    + rewrite (IH _ Hloop id), elem_of_cons.
      split; [naive_solver|]. intros [?|[[->|?] ?]]; eauto. congruence.
    + assert (id ∈ failed_tasks p' ↔
              id ∈ failed_tasks p ∨ id ∈ rest ∧ classify s id = Some failed_dependency)
        as ->.
      { destruct (first_free _ _) as [[worker_id worker]|];
          by rewrite (IH _ Hloop id). }
      rewrite elem_of_cons. split; [naive_solver|].
      intros [?|[[->|?] ?]]; eauto. congruence.
Qed.

Lemma schedule_loop_scheduled s order p p' :
  schedule_loop s order p = (p', None) →
  ∀ id, id ∈ scheduled_tasks p' ↔
        id ∈ scheduled_tasks p ∨
        (id ∈ order ∧ (∃ task, classify s id = Some (ready task)) ∧
         is_Some (first_free (_joined_workers s) (_used_workers s))).
Proof.
  revert p. induction order as [|id0 rest IH]; intros p Hloop id.
  - simpl in Hloop. injection Hloop as <-. set_solver.
  - rewrite schedule_loop_cons in Hloop.
    destruct (classify s id0) as [[| |task]|] eqn:Hc; [| | |done].
    + rewrite (IH _ Hloop id), elem_of_cons. simpl.
      split; [naive_solver|]. intros [?|[[->|?] [[task Ht] ?]]]; eauto. congruence.
    + rewrite (IH _ Hloop id), elem_of_cons.
      split; [naive_solver|]. intros [?|[[->|?] [[task Ht] ?]]]; eauto. congruence.
    + destruct (first_free _ _) as [[worker_id worker]|] eqn:Hff.
      * rewrite (IH _ Hloop id), elem_of_cons. simpl. rewrite elem_of_union, elem_of_singleton.
        split; [|naive_solver].
        intros [[->|?]|[? ?]]; eauto 10.
      * rewrite (IH _ Hloop id), elem_of_cons.
        split; [naive_solver|]. intros [?|[[->|?] [? [? [=]]]]]; eauto.
Qed.

(** Every task the loop schedules is given the same worker: the first
    one that was free when the pass began. *)
Lemma schedule_loop_used s order p p' :
  schedule_loop s order p = (p', None) →
  ∀ id, used_workers p' !! id =
        match first_free (_joined_workers s) (_used_workers s), classify s id with
        | Some (worker_id, _), Some (ready _) =>
            if decide (id ∈ order) then Some worker_id else used_workers p !! id
        | _, _ => used_workers p !! id
        end.
Proof.
  revert p. induction order as [|id0 rest IH]; intros p Hloop id.
  - simpl in Hloop. injection Hloop as <-.
    destruct (first_free _ _) as [[? ?]|]; [|done].
    by destruct (classify s id) as [[| |?]|].
  - rewrite schedule_loop_cons in Hloop.
    destruct (classify s id0) as [[| |task]|] eqn:Hc; [| | |done].
    + rewrite (IH _ Hloop id). simpl.
      destruct (first_free _ _) as [[? ?]|]; [|done].
      destruct (classify s id) as [[| |?]|] eqn:Hid; try done.
      repeat case_decide; try done; set_solver.
    + rewrite (IH _ Hloop id).
      destruct (first_free _ _) as [[? ?]|]; [|done].
      destruct (classify s id) as [[| |?]|] eqn:Hid; try done.
      repeat case_decide; try done; set_solver.
    + destruct (first_free _ _) as [[worker_id worker]|] eqn:Hff.
      * rewrite (IH _ Hloop id). simpl.
        destruct (classify s id) as [[| |?]|] eqn:Hid.
        -- rewrite lookup_insert_ne; [done|congruence].
        -- rewrite lookup_insert_ne; [done|congruence].
        -- destruct (decide (id = id0)) as [->|Hne].
           ++ rewrite lookup_insert_eq.
              rewrite (decide_True (P := id0 ∈ id0 :: rest)); [|set_solver].
              by case_decide.
           ++ rewrite lookup_insert_ne; [|done].
              repeat case_decide; try done; set_solver.
        -- rewrite lookup_insert_ne; [done|congruence].
      * by rewrite (IH _ Hloop id).
Qed.

(** *** The two loops after the main loop *)

Lemma remove_scheduled_spec s l :
  NoDup l → (∀ id, id ∈ l → id ∈ _pending_tasks s) →
  remove_scheduled s l =
    (set_pending_tasks s (_pending_tasks s ∖ list_to_set l), None).
Proof.
  revert s. induction l as [|id rest IH]; intros s Hnd Hin.
  - simpl. destruct s; unfold set_pending_tasks; simpl.
    do 2 f_equal. set_solver.
  - simpl. apply NoDup_cons in Hnd as [Hnotin Hnd].
    rewrite decide_True; [|apply Hin; set_solver].
    rewrite IH; [|done|].
    + unfold set_pending_tasks. simpl. do 2 f_equal. set_solver.
    + intros id' Hid'. simpl. apply elem_of_difference. split.
      * apply Hin. set_solver.
      * intros ->%elem_of_singleton. done.
Qed.

Lemma fail_tasks_spec s l :
  NoDup l → (∀ id, id ∈ l → id ∈ _pending_tasks s) →
  ∃ states,
    fail_tasks s l =
      (set_pending_tasks (set_task_states s states)
         (_pending_tasks s ∖ list_to_set l), None) ∧
    ∀ id, states !! id = if decide (id ∈ l) then Some FAILED else _task_states s !! id.
Proof.
  revert s. induction l as [|id0 rest IH]; intros s Hnd Hin.
  - exists (_task_states s). split.
    + simpl. destruct s; unfold set_pending_tasks, set_task_states; simpl.
      do 2 f_equal. set_solver.
    + intros id. rewrite decide_False; [done|apply not_elem_of_nil].
  - apply NoDup_cons in Hnd as [Hnotin Hnd]. simpl.
    rewrite decide_True; [|apply Hin; set_solver].
    destruct (IH (set_pending_tasks
                    (set_task_states s (<[id0:=FAILED]> (_task_states s)))
                    (_pending_tasks s ∖ {[id0]})) Hnd) as (states & -> & Hstates).
    { intros id' Hid'. simpl. apply elem_of_difference. split.
      - apply Hin. set_solver.
      - intros ->%elem_of_singleton. done. }
    exists states. split.
    + unfold set_pending_tasks, set_task_states. simpl. do 2 f_equal. set_solver.
    + intros id. rewrite Hstates. simpl.
      destruct (decide (id = id0)) as [->|Hne].
      * rewrite lookup_insert_eq. repeat case_decide; try done; set_solver.
      * rewrite lookup_insert_ne; [|done]. repeat case_decide; try done; set_solver.
Qed.

(** Whatever their outcome, the loops after the main loop change a
    recorded state only to [FAILED]. *)
Lemma remove_scheduled_fields s l s' r :
  remove_scheduled s l = (s', r) →
  _task_states s' = _task_states s ∧ _tasks s' = _tasks s ∧
  _used_workers s' = _used_workers s ∧ _pending_tasks s' ⊆ _pending_tasks s.
Proof.
  revert s. induction l as [|id rest IH]; intros s Hr; simpl in Hr.
  - by injection Hr as <- <-.
  - case_decide.
    + apply IH in Hr as (-> & -> & -> & Hsub). simpl in *.
      repeat split; try done. set_solver.
    + by injection Hr as <- <-.
Qed.

Lemma fail_tasks_fields s l s' r :
  fail_tasks s l = (s', r) →
  (∀ d st, _task_states s' !! d = Some st → st = FAILED ∨ _task_states s !! d = Some st)
  ∧ _tasks s' = _tasks s ∧ _used_workers s' = _used_workers s
  ∧ _pending_tasks s' ⊆ _pending_tasks s.
Proof.
  revert s. induction l as [|id rest IH]; intros s Hr; simpl in Hr.
  - injection Hr as <- <-. naive_solver.
  - case_decide.
    + apply IH in Hr as (Hst & -> & -> & Hsub). simpl in *.
      repeat split; try done; [|set_solver].
      intros d st Hd. destruct (Hst d st Hd) as [?|Hl]; [by left|].
      destruct (decide (d = id)) as [->|Hne].
      * rewrite lookup_insert_eq in Hl. left. congruence.
      * rewrite lookup_insert_ne in Hl; [|done]. by right.
    + injection Hr as <- <-. simpl. repeat split; try done.
      intros d st Hl. destruct (decide (d = id)) as [->|Hne].
      * rewrite lookup_insert_eq in Hl. left. congruence.
      * rewrite lookup_insert_ne in Hl; [|done]. by right.
Qed.

End Schedule_loop.

Section Schedule_once.
Import Local Local.Server ServerSpec.

Variable enum : gset string → list string.

Lemma enum_elem_of (X : gset string) id :
  iteration_order enum → id ∈ enum X ↔ id ∈ X.
Proof. intros Henum. by rewrite (Henum X), elem_of_elements. Qed.

Lemma enum_NoDup (X : gset string) :
  iteration_order enum → NoDup (enum X).
Proof. intros Henum. rewrite (Henum X). apply NoDup_elements. Qed.

Lemma enum_to_set (X : gset string) :
  iteration_order enum → list_to_set (enum X) = X.
Proof.
  intros Henum. apply set_eq. intros id.
  by rewrite elem_of_list_to_set, enum_elem_of.
Qed.

(** Whatever the outcome of a pass, each message it sent is a
    [run_task] for a task visited by the loop and found ready. *)
Lemma schedule_once_sent s s' out r :
  _schedule_once enum s = (s', out, r) →
  ∀ pkt, pkt ∈ out →
    ∃ id task worker_id worker,
      id ∈ enum (_pending_tasks s) ∧ classify s id = Some (ready task) ∧
      first_free (_joined_workers s) (_used_workers s) = Some (worker_id, worker) ∧
      pkt = JoinedWorker.run_task worker task.
Proof.
  unfold _schedule_once. intros Hpass pkt Hpkt.
  destruct (schedule_loop _ _ _) as [p r0] eqn:Hloop.
  assert (out = sent p) as ->.
  { destruct r0; [by injection Hpass as <- <- <-|].
    destruct (remove_scheduled _ _) as [s2 [e|]]; [by injection Hpass as <- <- <-|].
    destruct (fail_tasks _ _). by injection Hpass as <- <- <-. }
  destruct (schedule_loop_sent _ _ _ _ _ Hloop pkt Hpkt) as [Hnil|?]; [|done].
  by apply elem_of_nil in Hnil.
Qed.

(** Whatever the outcome of a pass, it leaves the task table alone and
    changes recorded states only to [FAILED]. *)
Lemma schedule_once_fields s s' out r :
  _schedule_once enum s = (s', out, r) →
  _tasks s' = _tasks s ∧
  _pending_tasks s' ⊆ _pending_tasks s ∧
  ∀ d st, _task_states s' !! d = Some st →
          st = FAILED ∨ _task_states s !! d = Some st.
Proof.
  unfold _schedule_once. intros Hpass.
  destruct (schedule_loop _ _ _) as [p [e|]] eqn:Hloop.
  { injection Hpass as <- <- <-. naive_solver. }
  destruct (remove_scheduled _ _) as [s2 r2] eqn:Hrem.
  apply remove_scheduled_fields in Hrem as (Hst2 & Ht2 & Hu2 & Hp2).
  destruct r2 as [e|].
  { injection Hpass as <- <- <-. simpl in *. rewrite Hst2, Ht2. naive_solver. }
  destruct (fail_tasks _ _) as [s3 r3] eqn:Hfail.
  apply fail_tasks_fields in Hfail as (Hst3 & Ht3 & Hu3 & Hp3).
  injection Hpass as <- <- <-. simpl in *.
  rewrite Ht3, Ht2. repeat split; [set_solver|].
  intros d st Hd. rewrite <- Hst2. by apply Hst3.
Qed.

(** On tables that fit together the pass returns, and this is what it
    leaves behind. *)
Lemma schedule_once_spec s :
  iteration_order enum → well_formed s →
  ∃ s' out,
    _schedule_once enum s = (s', out, None) ∧
    _tasks s' = _tasks s ∧
    _joined_workers s' = _joined_workers s ∧
    _conns s' = _conns s ∧
    _shutdown_requested s' = _shutdown_requested s ∧
    (∀ id, id ∈ _pending_tasks s' ↔
           id ∈ _pending_tasks s ∧
           classify s id ≠ Some failed_dependency ∧
           ¬ ((∃ task, classify s id = Some (ready task)) ∧
              is_Some (first_free (_joined_workers s) (_used_workers s)))) ∧
    (∀ id, _task_states s' !! id =
           if bool_decide (id ∈ _pending_tasks s) && has_failed_dependency s id
           then Some FAILED else _task_states s !! id) ∧
    (∀ id, _used_workers s' !! id =
           match first_free (_joined_workers s) (_used_workers s), classify s id with
           | Some (worker_id, _), Some (ready _) =>
               if decide (id ∈ _pending_tasks s) then Some worker_id
               else _used_workers s !! id
           | _, _ => _used_workers s !! id
           end).
Proof.
  intros Henum [Hdom Hid]. unfold _schedule_once.
  destruct (schedule_loop_returns s (enum (_pending_tasks s)) (mk_pass ∅ ∅ ∅ []))
    as [p Hloop].
  { intros id Hin. apply Hdom. by apply enum_elem_of in Hin. }
  rewrite Hloop.
  pose proof (schedule_loop_failed _ _ _ _ Hloop) as Hfailed.
  pose proof (schedule_loop_scheduled _ _ _ _ Hloop) as Hsched.
  pose proof (schedule_loop_used _ _ _ _ Hloop) as Hused.
  simpl in Hfailed, Hsched, Hused.
  rewrite remove_scheduled_spec; [|by apply enum_NoDup|]; last first.
  { intros id Hin. apply enum_elem_of in Hin; [|done]. simpl.
    apply Hsched in Hin as [Hin|[Hin _]]; [set_solver|].
    by apply enum_elem_of in Hin. }
  rewrite enum_to_set by done.
  match goal with
  | |- context [fail_tasks ?s0 ?l] =>
      destruct (fail_tasks_spec s0 l) as (states & -> & Hstates)
  end.
  { by apply enum_NoDup. }
  { intros id Hin. apply enum_elem_of in Hin; [|done]. simpl.
    apply elem_of_difference.
    apply Hfailed in Hin as [Hin|[Hin Hc]]; [set_solver|].
    split; [by apply enum_elem_of in Hin|].
    intros [?|(_ & [task Hr] & _)]%Hsched; [set_solver|congruence]. }
  rewrite enum_to_set by done.
  eexists _, _. split; [done|]. simpl. split_and!; try done.
  - intros id. rewrite !elem_of_difference. split.
    + intros [[Hin Hns] Hnf]. split_and!; [done| |].
      * intros Hc. apply Hnf, Hfailed. right. split; [|done].
        by apply enum_elem_of.
      * intros [Hr Hff]. apply Hns, Hsched. right. split; [|done].
        by apply enum_elem_of.
    + intros (Hin & Hnf & Hnr). split_and!; [done| |].
      * intros [?|(_ & ? & ?)]%Hsched; [set_solver|]. by apply Hnr.
      * intros [?|[_ ?]]%Hfailed; [set_solver|done].
  - intros id. rewrite Hstates.
    destruct (decide (id ∈ enum (failed_tasks p))) as [Hin|Hnin].
    + apply enum_elem_of in Hin; [|done].
      apply Hfailed in Hin as [?|[Hin Hc]]; [set_solver|].
      apply enum_elem_of in Hin; [|done].
      unfold has_failed_dependency. rewrite Hc.
      by rewrite bool_decide_eq_true_2.
    + destruct (bool_decide _ && _) eqn:Hb; [|done].
      apply andb_true_iff in Hb as [Hin%bool_decide_eq_true Hc].
      destruct Hnin. apply enum_elem_of; [done|]. apply Hfailed. right.
      split; [by apply enum_elem_of|].
      unfold has_failed_dependency in Hc.
      by destruct (classify s id) as [[| |?]|].
  - intros id. rewrite lookup_union, Hused, lookup_empty.
    destruct (first_free _ _) as [[worker_id worker]|];
      [|by destruct (_used_workers s !! id)].
    destruct (classify s id) as [[| |task]|];
      try by destruct (_used_workers s !! id).
    destruct (decide (id ∈ enum (_pending_tasks s))) as [Hin|Hnin].
    + rewrite decide_True by (by apply enum_elem_of in Hin).
      by destruct (_used_workers s !! id).
    + rewrite decide_False; [by destruct (_used_workers s !! id)|].
      intros Hin. by apply Hnin, enum_elem_of.
Qed.

End Schedule_once.

(** * The event loop *)

Section Events.
Import Local Local.Server ServerSpec.

Lemma status_of_name_completed name :
  status_of_name name = Returned COMPLETED → name = "COMPLETED".
Proof. unfold status_of_name. by repeat case_decide. Qed.

Lemma status_of_name_failed name :
  status_of_name name = Returned FAILED → name = "FAILED".
Proof. unfold status_of_name. by repeat case_decide. Qed.

(** An event whose handler reaches the scheduling pass ends with it. *)
Lemma on_event_pass enum s ev s1 :
  pass_state s ev = Some s1 → on_event enum s ev = _schedule_once enum s1.
Proof.
  destruct ev as [client|client m|]; simpl; [done| |done].
  unfold _read. case_decide; [|done].
  destruct m as [w|w|tid nm wd sp deps so se|tid new_state| |tbl|tk| |]; simpl; try done.
  - by intros [= <-].
  - by intros [= <-].
  - unfold handle_update_task_state.
    destruct (status_of_name new_state) as [st|]; [|done]. simpl.
    destruct (is_terminal st).
    + destruct (_used_workers s !! tid); [|done]. by intros [= <-].
    + by intros [= <-].
Qed.

(** The other events send no [run_task], and when their handler returns
    the scheduling tables are as before. *)
Lemma on_event_no_pass enum s ev s' out r :
  pass_state s ev = None → on_event enum s ev = (s', out, r) →
  (∀ c task, (c, Message.run_task task) ∉ out) ∧
  (r = None →
   _tasks s' = _tasks s ∧ _task_states s' = _task_states s ∧
   _pending_tasks s' = _pending_tasks s ∧ _used_workers s' = _used_workers s).
Proof.
  destruct ev as [client|client m|]; simpl.
  - intros _ [= <- <- <-]. split; [|done]. intros c task. apply not_elem_of_nil.
  - unfold _read. case_decide.
    2:{ intros _ [= <- <- <-]. split; [|done]. intros c task. apply not_elem_of_nil. }
    destruct m as [w|w|tid nm wd sp deps so se|tid new_state| |tbl|tk| |]; simpl; try done.
    + intros _. unfold handle_leave_worker.
      destruct (dict_del _ _); intros [= <- <- <-];
        (split; [intros c task; apply not_elem_of_nil|done]).
    + unfold handle_update_task_state.
      destruct (status_of_name new_state) as [st|]; simpl.
      * destruct (is_terminal st); [|done].
        destruct (_used_workers s !! tid); [done|].
        intros _ [= <- <- <-]. split; [|done]. intros c task. apply not_elem_of_nil.
      * intros _ [= <- <- <-]. split; [|done]. intros c task. apply not_elem_of_nil.
    + intros _ [= <- <- <-]. split; [|done].
      intros c task [=]%list_elem_of_singleton.
    + intros _ [= <- <- <-]. split; [|done]. intros c task. apply not_elem_of_nil.
    + intros _ [= <- <- <-]. split; [|done]. intros c task. apply not_elem_of_nil.
    + intros _ [= <- <- <-]. split; [|done]. intros c task. apply not_elem_of_nil.
    + intros _. unfold handle_close. case_decide; intros [= <- <- <-].
      * split; [|done]. intros c task [=]%list_elem_of_singleton.
      * split; [|done]. intros c task. apply not_elem_of_nil.
  - intros _ [= <- <- <-]. split; [|done].
    intros c task (kv & [=] & _)%list_elem_of_fmap.
Qed.

(** What the tables a pass starts from owe to the event. *)
Lemma pass_state_fields s ev s1 :
  pass_state s ev = Some s1 →
  (∀ d, _task_states s1 !! d = Some COMPLETED →
        _task_states s !! d = Some COMPLETED ∨ completed_reported [ev] d) ∧
  (∀ id, id ∈ _pending_tasks s1 → id ∈ _pending_tasks s ∨ submits ev id) ∧
  (well_formed s → well_formed s1).
Proof.
  destruct ev as [client|client m|]; simpl; [done| |done].
  case_decide; [|done].
  destruct m as [w|w|tid nm wd sp deps so se|tid new_state| |tbl|tk| |]; simpl; try done.
  - intros [= <-]. simpl. naive_solver.
  - intros [= <-]. simpl. split_and!.
    + intros d. destruct (decide (d = tid)) as [->|Hne].
      * by rewrite lookup_insert_eq.
      * rewrite lookup_insert_ne by done. by left.
    + intros id [->%elem_of_singleton|?]%elem_of_union; [|by left].
      right. unfold submits. eauto 10.
    + intros [Hdom Hid]. split; simpl.
      * intros id [->%elem_of_singleton|?]%elem_of_union.
        -- rewrite lookup_insert_eq. eauto.
        -- destruct (decide (id = tid)) as [->|Hne].
           ++ rewrite lookup_insert_eq. eauto.
           ++ rewrite lookup_insert_ne by done. by apply Hdom.
      * intros id task. destruct (decide (id = tid)) as [->|Hne].
        -- rewrite lookup_insert_eq. by intros [= <-].
        -- rewrite lookup_insert_ne by done. apply Hid.
  - destruct (status_of_name new_state) as [st|] eqn:Hname; [|done]. simpl.
    assert (∀ d, (<[tid:=st]> (_task_states s)) !! d = Some COMPLETED →
                 _task_states s !! d = Some COMPLETED ∨
                 completed_reported
                   [readable client (Message.update_task_state tid new_state)] d)
      as Hstates.
    { intros d. destruct (decide (d = tid)) as [->|Hne].
      - rewrite lookup_insert_eq. intros [= ->].
        apply status_of_name_completed in Hname as ->.
        right. exists client. apply list_elem_of_here.
      - rewrite lookup_insert_ne by done. by left. }
    destruct (is_terminal st).
    + destruct (_used_workers s !! tid); [|done].
      intros [= <-]. simpl. naive_solver.
    + intros [= <-]. simpl. naive_solver.
Qed.

Lemma step_fields s ev s' out r :
  step s ev (s', out, r) →
  (* what was sent *)
  (∀ c task, (c, Message.run_task task) ∈ out →
     ∃ id, classify_after s ev id = Some (ready task) ∧
           (id ∈ _pending_tasks s ∨ submits ev id)) ∧
  (* what was recorded, when the handler returned *)
  (r = None →
     (well_formed s → well_formed s') ∧
     (∀ d, _task_states s' !! d = Some COMPLETED →
           _task_states s !! d = Some COMPLETED ∨ completed_reported [ev] d) ∧
     (∀ id, id ∈ _pending_tasks s' → id ∈ _pending_tasks s ∨ submits ev id)).
Proof.
  intros (Hserving & enum & Henum & Hev). unfold classify_after.
  destruct (pass_state s ev) as [s1|] eqn:Hpass.
  - rewrite (on_event_pass _ _ _ _ Hpass) in Hev.
    destruct (pass_state_fields _ _ _ Hpass) as (Hc & Hp & Hwf).
    destruct (schedule_once_fields _ _ _ _ _ Hev) as (Ht & Hsub & Hst).
    split.
    + intros c task Hin.
      destruct (schedule_once_sent _ _ _ _ _ Hev _ Hin)
        as (id & task' & w & wk & Hid & Hcl & _ & [= _ ->]).
      exists id. split; [done|]. apply Hp. by apply enum_elem_of in Hid.
    + intros _. split_and!.
      * intros [Hdom Hid]%Hwf. split.
        -- intros id Hin. rewrite Ht. apply Hdom. set_solver.
        -- intros id task. rewrite Ht. apply Hid.
      * intros d Hd. destruct (Hst d _ Hd) as [[=]|Hd1]. by apply Hc.
      * intros id Hin. apply Hp. set_solver.
  - destruct (on_event_no_pass _ _ _ _ _ _ Hpass Hev) as [Hnone Hsame]. split.
    + intros c task Hin. by apply Hnone in Hin.
    + intros Hr. destruct (Hsame Hr) as (Ht & Hst & Hp & Hu). split_and!.
      * intros [Hdom Hid]. split.
        -- intros id. rewrite Hp, Ht. apply Hdom.
        -- intros id task. rewrite Ht. apply Hid.
      * intros d. rewrite Hst. by left.
      * intros id. rewrite Hp. by left.
Qed.

Lemma init_well_formed : well_formed init.
Proof.
  split; [set_solver|]. intros id task. simpl. by rewrite lookup_empty.
Qed.

Lemma run_well_formed s log s' :
  run s log s' → well_formed s → well_formed s'.
Proof.
  induction 1 as [|s ev s1 out log s2 Hstep _ IH]; [done|].
  intros Hwf. apply IH. by apply (step_fields _ _ _ _ _ Hstep).
Qed.

Lemma reachable_well_formed s : reachable s → well_formed s.
Proof. intros [log Hrun]. eapply run_well_formed; [done|apply init_well_formed]. Qed.

Lemma completed_reported_app evs1 evs2 d :
  completed_reported (evs1 ++ evs2) d ↔
  completed_reported evs1 d ∨ completed_reported evs2 d.
Proof. unfold completed_reported. setoid_rewrite elem_of_app. naive_solver. Qed.

(** A state is [COMPLETED] only where a report said so. *)
Lemma run_completed s log s' d :
  run s log s' → _task_states s' !! d = Some COMPLETED →
  _task_states s !! d = Some COMPLETED ∨ completed_reported log.*1 d.
Proof.
  induction 1 as [|s ev s1 out log s2 Hstep _ IH]; [by left|].
  intros Hd. destruct (IH Hd) as [Hd1|Hrep].
  - destruct (step_fields _ _ _ _ _ Hstep) as [_ Hret].
    destruct (Hret eq_refl) as (_ & Hc & _).
    destruct (Hc d Hd1) as [?|Hrep]; [by left|].
    right. apply (completed_reported_app [ev]). by left.
  - right. apply (completed_reported_app [ev]). by right.
Qed.

(** A task is pending only if it was pending before or was submitted. *)
Lemma run_pending s log s' id :
  run s log s' → id ∈ _pending_tasks s' →
  id ∈ _pending_tasks s ∨ ∃ ev, ev ∈ log.*1 ∧ submits ev id.
Proof.
  induction 1 as [|s ev s1 out log s2 Hstep _ IH]; [by left|].
  intros Hin. destruct (IH Hin) as [Hin1|(ev' & Hev' & Hsub)].
  - destruct (step_fields _ _ _ _ _ Hstep) as [_ Hret].
    destruct (Hret eq_refl) as (_ & _ & Hp).
    destruct (Hp id Hin1) as [?|Hsub]; [by left|].
    right. exists ev. split; [apply list_elem_of_here|done].
  - right. exists ev'. split; [by apply list_elem_of_further|done].
Qed.

(** The loop function [start] is a run of the event loop. *)
Lemma start_run enum s evs s' log :
  iteration_order enum →
  start enum s evs = (s', log, None) → run s log s'.
Proof.
  intros Henum. revert s s' log.
  induction evs as [|ev rest IH]; intros s s' log; simpl.
  - intros [= <- <-]. constructor.
  - destruct (serving s) eqn:Hserving; [|intros [= <- <-]; constructor].
    destruct (on_event enum s ev) as [[s1 out] [e|]] eqn:Hev; [done|].
    destruct (start enum s1 rest) as [[s2 log2] r2] eqn:Hrest.
    intros [= <- <- ->]. econstructor; [|by apply IH].
    split; [done|]. by exists enum.
Qed.

End Events.

(** * Dispatch and dependencies *)

Section Dispatch.
Import Local Local.Server ServerSpec.

Lemma iteration_order_elements : iteration_order elements.
Proof. by intros X. Qed.

Lemma result_eta {A B C} (r : A * B * C) : r = (r.1.1, r.1.2, r.2).
Proof. by destruct r as [[? ?] ?]. Qed.

(** A dispatched task had every dependency [COMPLETED] in the tables
    its pass started from. *)
Lemma dispatched_ready enum s s' out r task d :
  _schedule_once enum s = (s', out, r) →
  dispatched out task → d ∈ dependencies task →
  _task_states s !! d = Some COMPLETED.
Proof.
  intros Hpass [c Hin] Hd.
  destruct (schedule_once_sent _ _ _ _ _ Hpass _ Hin)
    as (id & task' & w & wk & _ & Hcl & _ & [= _ ->]).
  apply classify_ready in Hcl as [_ Hall]. by apply Hall.
Qed.

(** C3. A [run_task] for a task is sent only after an
    [update_task_state] event recording [COMPLETED] has been processed
    for each of its dependencies, whatever the outcome of the handler
    that sends it; and a scheduling pass sends no [run_task] for a task
    one of whose dependencies is [FAILED] in the tables of that pass. *)
Theorem dispatch_only_after_dependencies_completed :
  (∀ log s ev s' out r task d,
      run init log s → step s ev (s', out, r) →
      dispatched out task → d ∈ dependencies task →
      completed_reported (log.*1 ++ [ev]) d) ∧
  (∀ enum s s' out r task d,
      _schedule_once enum s = (s', out, r) →
      d ∈ dependencies task → _task_states s !! d = Some FAILED →
      ¬ dispatched out task).
Proof.
  split.
  - intros log s ev s' out r task d Hrun Hstep [c Hin] Hd.
    destruct (step_fields _ _ _ _ _ Hstep) as [Hsent _].
    destruct (Hsent c task Hin) as (id & Hcl & _). unfold classify_after in Hcl.
    destruct (pass_state s ev) as [s1|] eqn:Hpass; [|done].
    apply classify_ready in Hcl as [_ Hall].
    destruct (pass_state_fields _ _ _ Hpass) as (Hc & _ & _).
    apply completed_reported_app.
    destruct (Hc d (Hall d Hd)) as [Hbefore|?]; [|by right].
    left. destruct (run_completed _ _ _ d Hrun Hbefore) as [Hinit|?]; [|done].
    simpl in Hinit. by rewrite lookup_empty in Hinit.
  - intros enum s s' out r task d Hpass Hd Hfailed Hdisp.
    pose proof (dispatched_ready _ _ _ _ _ _ _ Hpass Hdisp Hd). congruence.
Qed.

Lemma dispatch_only_after_dependencies_completed_witness :
  completed_reported
    ((log_of a_running).*1 ++ [report "A" COMPLETED]) "A" ∧
  ¬ dispatched
      (_schedule_once elements (at_pass a_running (report "A" FAILED))).1.2
      (task_of "B" ["A"]).
Proof.
  split.
  - eapply (proj1 dispatch_only_after_dependencies_completed
              (log_of a_running) (after a_running) (report "A" COMPLETED)
              _ _ _ (task_of "B" ["A"]) "A").
    + apply (start_run elements _ a_running); [apply iteration_order_elements|].
      vm_compute. reflexivity.
    + split; [vm_compute; reflexivity|].
      exists elements. split; [apply iteration_order_elements|].
      apply result_eta.
    + exists 2. vm_compute. apply list_elem_of_here.
    + vm_compute. set_solver.
  - eapply (proj2 dispatch_only_after_dependencies_completed elements
              (at_pass a_running (report "A" FAILED)) _ _ _
              (task_of "B" ["A"]) "A").
    + apply result_eta.
    + vm_compute. set_solver.
    + vm_compute. reflexivity.
Defined.

End Dispatch.

(** * Cascading failure *)

Section Cascade.
Import Local Local.Server ServerSpec.

(** A dispatched task was pending when its event arrived, or the event
    submitted it. *)
Lemma dispatched_pending s ev s' out r id :
  well_formed s → step s ev (s', out, r) → dispatched_id out id →
  id ∈ _pending_tasks s ∨ submits ev id.
Proof.
  intros Hwf Hstep (task & [c Hin] & <-).
  destruct (step_fields _ _ _ _ _ Hstep) as [Hsent _].
  destruct (Hsent c task Hin) as (id & Hcl & Hpend).
  unfold classify_after in Hcl.
  destruct (pass_state s ev) as [s1|] eqn:Hpass; [|done].
  destruct (pass_state_fields _ _ _ Hpass) as (_ & _ & Hwf1).
  apply classify_ready in Hcl as [Htask _].
  destruct (Hwf1 Hwf) as [_ Hid]. by rewrite (Hid _ _ Htask).
Qed.

(** A task that is not pending is not dispatched until it is submitted
    again. *)
Lemma run_not_dispatched s log s' id :
  run s log s' → well_formed s → id ∉ _pending_tasks s →
  (∀ ev, ev ∈ log.*1 → ¬ submits ev id) →
  ∀ ev out, (ev, out) ∈ log → ¬ dispatched_id out id.
Proof.
  induction 1 as [|s ev s1 out log s2 Hstep _ IH]; intros Hwf Hnp Hns ev' out' Hin.
  - by apply elem_of_nil in Hin.
  - assert (¬ submits ev id) as Hev by (apply Hns, list_elem_of_here).
    apply elem_of_cons in Hin as [[= -> ->]|Hin].
    + intros Hd. by destruct (dispatched_pending _ _ _ _ _ _ Hwf Hstep Hd).
    + destruct (step_fields _ _ _ _ _ Hstep) as [_ Hret].
      destruct (Hret eq_refl) as (Hwf1 & _ & Hp).
      eapply (IH (Hwf1 Hwf)); [| |exact Hin].
      * intros [?|?]%Hp; done.
      * intros ev'' ?. by apply Hns, list_elem_of_further.
Qed.

(** The pass on a pending task with a failed direct dependency. *)
Lemma schedule_once_failed_dependency enum s id task d :
  iteration_order enum → well_formed s →
  id ∈ _pending_tasks s → _tasks s !! id = Some task →
  d ∈ dependencies task → _task_states s !! d = Some FAILED →
  ∃ s' out,
    _schedule_once enum s = (s', out, None) ∧
    _task_states s' !! id = Some FAILED ∧ (id ∉ _pending_tasks s') ∧
    ¬ dispatched_id out id.
Proof.
  intros Henum Hwf Hpend Htask Hd Hfailed.
  assert (classify s id = Some failed_dependency) as Hcl.
  { apply classify_failed. eauto. }
  destruct (schedule_once_spec enum s Henum Hwf)
    as (s' & out & Hpass & _ & _ & _ & _ & Hp & Hst & _).
  exists s', out. split_and!; [done| | |].
  - rewrite Hst. unfold has_failed_dependency. rewrite Hcl.
    by rewrite bool_decide_eq_true_2.
  - intros (_ & Hne & _)%Hp. done.
  - intros (task' & [c Hin] & Hid).
    destruct (schedule_once_sent _ _ _ _ _ Hpass _ Hin)
      as (id' & task'' & w & wk & _ & Hcl' & _ & [= _ ->]).
    pose proof Hcl' as [Htask' _]%classify_ready.
    destruct Hwf as [_ Hids]. rewrite (Hids _ _ Htask') in Hid. subst id'.
    congruence.
Qed.

(** The pass on a pending task that is neither failed nor ready. *)
Lemma schedule_once_not_ready enum s id task d :
  iteration_order enum → well_formed s →
  id ∈ _pending_tasks s → _tasks s !! id = Some task →
  (∀ d', d' ∈ dependencies task → _task_states s !! d' ≠ Some FAILED) →
  d ∈ dependencies task → _task_states s !! d ≠ Some COMPLETED →
  ∃ s' out,
    _schedule_once enum s = (s', out, None) ∧
    _task_states s' !! id = (_task_states s !! id) ∧ id ∈ _pending_tasks s' ∧
    ¬ dispatched_id out id.
Proof.
  intros Henum Hwf Hpend Htask Hnf Hd Hnc.
  assert (classify s id = Some not_ready) as Hcl.
  { unfold classify. rewrite Htask.
    assert (any_dep (λ dep_id, bool_decide (_task_states s !! dep_id = Some FAILED))
              (dependencies task) = false) as ->.
    { apply any_dep_false. intros d' Hd'. apply bool_decide_eq_false. by apply Hnf. }
    assert (any_dep (λ dep_id, bool_decide (_task_states s !! dep_id ≠ Some COMPLETED))
              (dependencies task) = true) as ->; [|done].
    apply any_dep_true. exists d. split; [done|]. by apply bool_decide_eq_true. }
  destruct (schedule_once_spec enum s Henum Hwf)
    as (s' & out & Hpass & _ & _ & _ & _ & Hp & Hst & _).
  exists s', out. split_and!; [done| | |].
  - rewrite Hst. unfold has_failed_dependency. rewrite Hcl.
    by rewrite andb_false_r.
  - apply Hp. split_and!; [done|congruence|]. intros [[task' ?] _]. congruence.
  - intros (task' & [c Hin] & Hid).
    destruct (schedule_once_sent _ _ _ _ _ Hpass _ Hin)
      as (id' & task'' & w & wk & _ & Hcl' & _ & [= _ ->]).
    pose proof Hcl' as [Htask' _]%classify_ready.
    destruct Hwf as [_ Hids]. rewrite (Hids _ _ Htask') in Hid. subst id'.
    congruence.
Qed.

(** C4, as the code has it.  A scheduling pass marks [FAILED], removes
    from the pending set and does not dispatch every pending task one of
    whose direct dependencies is [FAILED]; a pending task whose
    dependencies are not [FAILED] but not all [COMPLETED], such as one
    whose failed ancestor is indirect, is left pending and untouched by
    that pass, and not dispatched.  When B depends on A and the report
    that A failed is handled, B becomes [FAILED], and no [run_task] for
    B is sent then or later, as long as B is not submitted again. *)
Theorem failed_dependency_cascades_one_level :
  (∀ enum s id task d,
      iteration_order enum → well_formed s →
      id ∈ _pending_tasks s → _tasks s !! id = Some task →
      d ∈ dependencies task → _task_states s !! d = Some FAILED →
      ∃ s' out,
        _schedule_once enum s = (s', out, None) ∧
        _task_states s' !! id = Some FAILED ∧ (id ∉ _pending_tasks s') ∧
        ¬ dispatched_id out id) ∧
  (∀ enum s id task d,
      iteration_order enum → well_formed s →
      id ∈ _pending_tasks s → _tasks s !! id = Some task →
      (∀ d', d' ∈ dependencies task → _task_states s !! d' ≠ Some FAILED) →
      d ∈ dependencies task → _task_states s !! d ≠ Some COMPLETED →
      ∃ s' out,
        _schedule_once enum s = (s', out, None) ∧
        _task_states s' !! id = (_task_states s !! id) ∧ id ∈ _pending_tasks s' ∧
        ¬ dispatched_id out id) ∧
  (∀ log s a b task c s' out,
      run init log s →
      b ∈ _pending_tasks s → _tasks s !! b = Some task → a ∈ dependencies task →
      step s (readable c (Message.update_task_state a "FAILED")) (s', out, None) →
      _task_states s' !! b = Some FAILED ∧ ¬ dispatched_id out b ∧
      ∀ log' s'',
        run s' log' s'' → (∀ ev, ev ∈ log'.*1 → ¬ submits ev b) →
        ∀ ev out', (ev, out') ∈ log' → ¬ dispatched_id out' b).
Proof.
  split_and!.
  - apply schedule_once_failed_dependency.
  - apply schedule_once_not_ready.
  - intros log s a b task c s' out Hrun Hpend Htask Ha Hstep.
    assert (well_formed s) as Hwf.
    { eapply run_well_formed; [done|apply init_well_formed]. }
    pose proof Hstep as (_ & enum & Henum & Hev).
    destruct (pass_state s (readable c (Message.update_task_state a "FAILED")))
      as [s1|] eqn:Hpass.
    2:{ destruct (on_event_no_pass _ _ _ _ _ _ Hpass Hev) as [_ Hsame].
        simpl in Hpass, Hev. unfold _read in Hev. case_decide; [|done].
        simpl in Hpass, Hev. unfold handle_update_task_state in Hev. simpl in *.
        by destruct (_used_workers s !! a). }
    rewrite (on_event_pass _ _ _ _ Hpass) in Hev.
    destruct (pass_state_fields _ _ _ Hpass) as (_ & _ & Hwf1).
    assert (_pending_tasks s1 = _pending_tasks s ∧ _tasks s1 = _tasks s ∧
            _task_states s1 !! a = Some FAILED) as (Hp1 & Ht1 & Ha1).
    { simpl in Hpass. case_decide; [|done]. simpl in Hpass.
      destruct (_used_workers s !! a); [|done]. injection Hpass as <-. simpl.
      by rewrite lookup_insert_eq. }
    destruct (schedule_once_failed_dependency enum s1 b task a)
      as (s'' & out'' & Hpass' & Hst & Hnp & Hnd);
      [done|by apply Hwf1|by rewrite Hp1|by rewrite Ht1|done|done|].
    rewrite Hev in Hpass'. injection Hpass' as <- <-.
    split_and!; [done|done|].
    intros log' s'' Hrun'. apply (run_not_dispatched _ _ _ _ Hrun'); [|done].
    by apply (step_fields _ _ _ _ _ Hstep).
Qed.

End Cascade.

(** * Assignments within one pass *)

Section Assignments.
Import Local Local.Server ServerSpec.

(** The free worker is looked up in the assignment table as it was when
    the pass began, so all the tasks a pass finds ready go to the same
    worker. *)
Lemma schedule_once_one_worker enum s id1 id2 task1 task2 worker_id worker :
  iteration_order enum → well_formed s →
  id1 ∈ _pending_tasks s → id2 ∈ _pending_tasks s →
  classify s id1 = Some (ready task1) → classify s id2 = Some (ready task2) →
  first_free (_joined_workers s) (_used_workers s) = Some (worker_id, worker) →
  ∃ s' out,
    _schedule_once enum s = (s', out, None) ∧
    _used_workers s' !! id1 = Some worker_id ∧
    _used_workers s' !! id2 = Some worker_id.
Proof.
  intros Henum Hwf Hp1 Hp2 Hc1 Hc2 Hff.
  destruct (schedule_once_spec enum s Henum Hwf)
    as (s' & out & Hpass & _ & _ & _ & _ & _ & _ & Hused).
  exists s', out. split; [done|].
  rewrite !Hused, Hff, Hc1, Hc2. by rewrite !decide_True.
Qed.

End Assignments.

(** * The scenarios, evaluated *)

Section Scenarios.
Import Local Local.Server ServerSpec.

Lemma after_run evs :
  (start elements init evs).2 = None → run init (log_of evs) (after evs).
Proof.
  intros Hr. apply (start_run elements _ evs); [apply iteration_order_elements|].
  rewrite <- Hr. apply result_eta.
Qed.

Lemma after_well_formed evs :
  (start elements init evs).2 = None → well_formed (after evs).
Proof.
  intros Hr. eapply run_well_formed; [by apply after_run|apply init_well_formed].
Qed.

Lemma at_pass_well_formed evs ev :
  (start elements init evs).2 = None → well_formed (at_pass evs ev).
Proof.
  intros Hwf%after_well_formed. unfold at_pass. fold (after evs).
  destruct (pass_state (after evs) ev) as [s1|] eqn:Hpass; simpl.
  - by apply (pass_state_fields _ _ _ Hpass).
  - apply init_well_formed.
Qed.

Lemma step_elements s ev :
  serving s = true → step s ev (on_event elements s ev).
Proof.
  intros Hs. split; [done|]. exists elements.
  split; [apply iteration_order_elements|done].
Qed.

Lemma failed_dependency_cascades_one_level_witness :
  (∃ s' out,
      _schedule_once elements (at_pass a_running (report "A" FAILED))
        = (s', out, None) ∧
      _task_states s' !! "B" = Some FAILED ∧ ("B" ∉ _pending_tasks s') ∧
      ¬ dispatched_id out "B") ∧
  (∃ s' out,
      _schedule_once elements (at_pass chain_running (report "A" FAILED))
        = (s', out, None) ∧
      _task_states s' !! "C"
        = (_task_states (at_pass chain_running (report "A" FAILED)) !! "C") ∧
      "C" ∈ _pending_tasks s' ∧
      ¬ dispatched_id out "C") ∧
  (_task_states (after (a_running ++ [report "A" FAILED])) !! "B" = Some FAILED ∧
   ¬ dispatched_id (on_event elements (after a_running) (report "A" FAILED)).1.2 "B" ∧
   ∀ log' s'',
     run (after (a_running ++ [report "A" FAILED])) log' s'' →
     (∀ ev, ev ∈ log'.*1 → ¬ submits ev "B") →
     ∀ ev out', (ev, out') ∈ log' → ¬ dispatched_id out' "B").
Proof.
  destruct failed_dependency_cascades_one_level as (Hdirect & Hwait & Hevent).
  split; [|split].
  - apply (Hdirect elements _ "B" (task_of "B" ["A"]) "A").
    + apply iteration_order_elements.
    + by apply at_pass_well_formed.
    + vm_compute. set_solver.
    + vm_compute. reflexivity.
    + vm_compute. set_solver.
    + vm_compute. reflexivity.
  - apply (Hwait elements _ "C" (task_of "C" ["B"]) "B").
    + apply iteration_order_elements.
    + by apply at_pass_well_formed.
    + vm_compute. set_solver.
    + vm_compute. reflexivity.
    + intros d' Hd'. simpl in Hd'.
      assert (d' = "B") as -> by set_solver. vm_compute. discriminate.
    + vm_compute. set_solver.
    + vm_compute. discriminate.
  - apply (Hevent (log_of a_running) (after a_running) "A" "B"
             (task_of "B" ["A"]) 2
             (after (a_running ++ [report "A" FAILED]))
             (on_event elements (after a_running) (report "A" FAILED)).1.2).
    + by apply after_run.
    + vm_compute. set_solver.
    + vm_compute. reflexivity.
    + vm_compute. set_solver.
    + split; [vm_compute; reflexivity|]. exists elements.
      split; [apply iteration_order_elements|]. vm_compute. reflexivity.
Defined.

(** C4, as stated, fails on a chain.  C depends on B, which depends on
    A; A is running and reports [FAILED].  In the pass of that report A
    is [FAILED] and A is an ancestor of the pending task C, yet after
    the pass C is still pending and still [SUBMITTED]. *)
Lemma failed_ancestor_left_pending :
  let s := at_pass chain_running (report "A" FAILED) in
  let s' := (_schedule_once elements s).1.1 in
  "C" ∈ _pending_tasks s ∧ ancestor s "A" "C" ∧
  _task_states s !! "A" = Some FAILED ∧
  s' = after (chain_running ++ [report "A" FAILED]) ∧
  _task_states s' !! "B" = Some FAILED ∧
  _task_states s' !! "C" = Some SUBMITTED ∧
  "C" ∈ _pending_tasks s' ∧
  ¬ (_task_states s' !! "C" = Some FAILED ∧ "C" ∉ _pending_tasks s').
Proof.
  split_and!.
  - vm_compute. set_solver.
  - apply (ancestor_step _ "C" (task_of "C" ["B"]) "B");
      [vm_compute; reflexivity|vm_compute; set_solver|].
    apply (ancestor_direct _ "B" (task_of "B" ["A"]));
      [vm_compute; reflexivity|vm_compute; set_solver].
  - vm_compute. reflexivity.
  - vm_compute. reflexivity.
  - vm_compute. reflexivity.
  - vm_compute. reflexivity.
  - vm_compute. set_solver.
  - intros [Hst _]. vm_compute in Hst. discriminate.
Qed.

(** C1 at the failing input: two independent tasks are submitted, then
    the only worker joins.  The pass of the join sends a [run_task] for
    each of them to that worker and records both under it, so the
    assignment table of a reachable state is not injective. *)
Theorem two_ready_tasks_share_the_free_worker :
  let s := after two_tasks_then_worker in
  reachable s ∧
  _used_workers s !! "T1" = Some "Worker0" ∧
  _used_workers s !! "T2" = Some "Worker0" ∧
  _pending_tasks s = ∅ ∧
  (on_event elements (after [accept 1; accept 2; submit "T1" []; submit "T2" []])
     (join "Worker0")).1.2
    = [(2, Message.run_task (task_of "T1" [])); (2, Message.run_task (task_of "T2" []))] ∧
  ¬ injective_assignment s.
Proof.
  split_and!.
  - exists (log_of two_tasks_then_worker). by apply after_run.
  - vm_compute. reflexivity.
  - vm_compute. reflexivity.
  - vm_compute. reflexivity.
  - vm_compute. reflexivity.
  - intros Hinj.
    assert ("T1" = "T2") as Heq; [|discriminate].
    apply (Hinj "T1" "T2" "Worker0"); vm_compute; reflexivity.
Qed.

End Scenarios.

(** * Terminal reports without an assignment *)

Section Terminal_update.
Import Local Local.Server ServerSpec.

(** C10, as the code has it.  A terminal report for a task with no entry
    in the assignment table first records the new state in the state
    table and then raises [KeyError]: nothing else changes, no message
    is sent, no scheduling pass runs.  A terminal report whose handler
    returns was for a task in the assignment table; and on tables that
    fit together the handler does return for such a task. *)
Theorem terminal_update_without_assignment :
  (∀ enum s conn id new_state st,
      status_of_name new_state = Returned st → is_terminal st = true →
      _used_workers s !! id = None →
      handle_update_task_state enum s conn id new_state =
        (set_task_states s (<[id := st]> (_task_states s)), [],
         Some (KeyError id))) ∧
  (∀ enum s conn id new_state st s' out,
      status_of_name new_state = Returned st → is_terminal st = true →
      handle_update_task_state enum s conn id new_state = (s', out, None) →
      is_Some (_used_workers s !! id)) ∧
  (∀ enum s conn id new_state st,
      iteration_order enum → well_formed s →
      status_of_name new_state = Returned st → is_terminal st = true →
      is_Some (_used_workers s !! id) →
      ∃ s' out, handle_update_task_state enum s conn id new_state = (s', out, None)).
Proof.
  split; [|split].
  - intros enum s conn id new_state st Hname Hterm Hnone.
    unfold handle_update_task_state. rewrite Hname, Hterm. simpl.
    by rewrite Hnone.
  - intros enum s conn id new_state st s' out Hname Hterm.
    unfold handle_update_task_state. rewrite Hname, Hterm. simpl.
    destruct (_used_workers s !! id); [eauto|done].
  - intros enum s conn id new_state st Henum Hwf Hname Hterm [w Hw].
    unfold handle_update_task_state. rewrite Hname, Hterm. simpl. rewrite Hw.
    match goal with
    | |- context [_schedule_once enum ?s1] =>
        destruct (schedule_once_spec enum s1 Henum) as (s' & out & Hpass & _)
    end; [|eauto].
    destruct Hwf as [Hdom Hid]. by split.
Qed.

Lemma terminal_update_without_assignment_witness :
  handle_update_task_state elements init 2 "T" "COMPLETED" =
    (set_task_states init (<["T" := COMPLETED]> (_task_states init)), [],
     Some (KeyError "T")) ∧
  is_Some (_used_workers (after a_running) !! "A") ∧
  (∃ s' out,
      handle_update_task_state elements (after a_running) 2 "A" "FAILED"
        = (s', out, None)).
Proof.
  destruct terminal_update_without_assignment as (Hraise & Honly & Hreturns).
  split; [|split].
  - apply (Hraise elements init 2 "T" "COMPLETED" COMPLETED); reflexivity.
  - apply (Honly elements (after a_running) 2 "A" "COMPLETED" COMPLETED
             (handle_update_task_state elements (after a_running) 2 "A" "COMPLETED").1.1
             (handle_update_task_state elements (after a_running) 2 "A" "COMPLETED").1.2);
      [reflexivity|reflexivity|vm_compute; reflexivity].
  - apply (Hreturns elements (after a_running) 2 "A" "FAILED" FAILED).
    + apply iteration_order_elements.
    + by apply after_well_formed.
    + reflexivity.
    + reflexivity.
    + vm_compute. eauto.
Defined.

(** C10, as stated, fails.  A is reported [FAILED], which frees its
    worker; a second terminal report, [COMPLETED], then raises
    [KeyError], but not instead of recording the state: the state table
    now says [COMPLETED] for A. *)
Lemma terminal_update_recorded_before_KeyError :
  let s := after (a_running ++ [report "A" FAILED]) in
  let r := on_event elements s (report "A" COMPLETED) in
  _used_workers s !! "A" = None ∧
  _task_states s !! "A" = Some FAILED ∧
  r.2 = Some (KeyError "A") ∧
  _task_states r.1.1 !! "A" = Some COMPLETED ∧
  _task_states r.1.1 ≠ _task_states s.
Proof.
  split_and!; try (vm_compute; reflexivity).
  intros Heq.
  assert (_task_states (on_event elements (after (a_running ++ [report "A" FAILED]))
                          (report "A" COMPLETED)).1.1 !! "A"
          = _task_states (after (a_running ++ [report "A" FAILED])) !! "A") as Hl
    by (by rewrite Heq).
  vm_compute in Hl. discriminate.
Qed.

End Terminal_update.

(** * The worker *)

Section Worker_reports.
Import Local Local.Worker WorkerSpec.

Lemma wait_loop_raises w polls :
  wait_loop w polls ≠ None ↔ _shutdown_requested w = true ∧ 0 < polls.
Proof.
  induction polls as [|n IH]; simpl.
  - split; [done|]. intros [_ ?]. lia.
  - destruct (_shutdown_requested w).
    + split; [intros _; split; [done|lia]|done].
    + rewrite IH. split; intros [? ?]; done.
Qed.

(** The [try] block raises exactly when the task fails. *)
Lemma try_body_fails w task env :
  try_body w task env ≠ None ↔ fails w env.
Proof.
  split.
  - destruct env as [e|polls fin]; simpl; [intros _; constructor|].
    destruct (wait_loop w polls) as [e|] eqn:Hloop.
    + intros _. assert (wait_loop w polls ≠ None) as Hne by congruence.
      apply wait_loop_raises in Hne as [? ?]. by apply fails_shutdown.
    + destruct fin as [returncode|e]; [|intros _; constructor].
      case_decide; [intros _; by constructor|done].
  - intros Hfails. destruct Hfails as [e|polls e|polls fin Hflag Hpolls|polls rc Hrc]; simpl.
    + done.
    + by destruct (wait_loop w polls).
    + assert (wait_loop w polls ≠ None) as Hne by (by apply wait_loop_raises).
      by destruct (wait_loop w polls).
    + destruct (wait_loop w polls); [done|]. by rewrite decide_True.
Qed.

Lemma run_task_failed w task env :
  fails w env → run_task w task env = reports w task FAILED.
Proof.
  intros Hfails%(try_body_fails w task). unfold run_task.
  by destruct (try_body w task env).
Qed.

Lemma run_task_completed w task env :
  ¬ fails w env → run_task w task env = reports w task COMPLETED.
Proof.
  intros Hok. unfold run_task.
  destruct (try_body w task env) as [e|] eqn:Hbody; [|done].
  destruct Hok. apply (try_body_fails w task). congruence.
Qed.

(** A worker that has not been asked to shut down works through its
    assignments one after the other, whatever becomes of each. *)
Lemma start_assignments w inbox :
  _shutdown_requested w = false → Forall assignment inbox →
  start w inbox = (w, reports_of w inbox, idle).
Proof.
  intros Hflag. induction 1 as [|[m env] rest [task Hm] _ IH].
  - simpl. by rewrite Hflag.
  - simpl in Hm. subst m. cbn [start]. rewrite Hflag, IH. done.
Qed.

(** C8. [run_task] reports [RUNNING] and then one terminal state:
    [FAILED] when the subprocess exits non-zero, a shutdown request
    interrupts the wait or an exception is raised, [COMPLETED] otherwise;
    and the receive loop of a worker does not end on a failed task but
    goes on to its next assignment. *)
Theorem worker_reports_running_then_one_terminal_state :
  (∀ w task env, fails w env → run_task w task env = reports w task FAILED) ∧
  (∀ w task env, ¬ fails w env → run_task w task env = reports w task COMPLETED) ∧
  (∀ w inbox,
      _shutdown_requested w = false → Forall assignment inbox →
      start w inbox = (w, reports_of w inbox, idle)).
Proof.
  split; [|split].
  - apply run_task_failed.
  - apply run_task_completed.
  - apply start_assignments.
Qed.

Lemma worker_reports_running_then_one_terminal_state_witness :
  run_task (mk "Worker0" 2 true) (job "T1") (started 1 (exited 0))
    = reports (mk "Worker0" 2 true) (job "T1") FAILED ∧
  run_task worker0 (job "T3") (started 2 (exited 0))
    = reports worker0 (job "T3") COMPLETED ∧
  start worker0 three_assignments
    = (worker0, reports_of worker0 three_assignments, idle).
Proof.
  destruct worker_reports_running_then_one_terminal_state as (Hf & Hc & Hloop).
  split; [|split].
  - apply Hf. apply fails_shutdown; [reflexivity|lia].
  - apply Hc. intros Hfails. inversion Hfails; done.
  - apply Hloop; [reflexivity|].
    repeat constructor; eexists; reflexivity.
Defined.

End Worker_reports.

(** * The Slurm backend: configuration and cancellation *)

Section Slurm_configure.
Import Slurm SlurmSpec BackendSpec.

Lemma find_exe_found which name c exe :
  which name = Some (String c exe) → _find_exe which name = Returned (String c exe).
Proof. unfold _find_exe. by intros ->. Qed.

Lemma find_exe_missing which name :
  which name = None ∨ which name = Some "" →
  _find_exe which name = Raised (not_found name).
Proof. unfold _find_exe. by intros [->| ->]. Qed.

(** The listing of [squeue] comes from a binary pipe: its first line
    makes [split] raise, whatever the line holds. *)
Lemma live_job_states_cons line rest :
  _live_job_states (line :: rest) = Raised bytes_refuse_str.
Proof. reflexivity. Qed.

Lemma live_job_states_returned lines live :
  _live_job_states lines = Returned live → lines = [] ∧ live = ∅.
Proof. destruct lines as [|line rest]; [by intros [= <-]|done]. Qed.

(** [configure] returns only when [squeue] lists nothing, and then every
    entry of the job database is dropped. *)
Lemma configure_returned json_load which fs lines b :
  configure json_load which fs lines = Returned b →
  lines = [] ∧ _job_db b = ∅ ∧ live_job_states b = ∅.
Proof.
  unfold configure. intros Hconf.
  destruct (_find_exe which "squeue"); [|done].
  destruct (_find_exe which "sbatch"); [|done].
  destruct (_find_exe which "scancel"); [|done]. simpl in Hconf.
  destruct (_read_job_db json_load fs job_db_path) as [db|]; [|done].
  simpl in Hconf.
  destruct (_live_job_states lines) as [live|] eqn:Hlive; [|done].
  apply live_job_states_returned in Hlive as [-> ->]. simpl in Hconf.
  injection Hconf as <-. simpl. split_and!; [done| |done].
  apply map_eq. intros k. rewrite lookup_omap, lookup_empty.
  by destruct (db !! k).
Qed.

(** C2 at the failing input: the job database of an earlier run maps
    align to job 4711 and sort to job 4712, and [squeue] lists 4711 as
    running.  [configure] does not keep align under 4711: it raises
    [TypeError] while it reads the listing, as it does whenever the tools
    are found, the database can be read and [squeue] lists any job.  It
    returns only when nothing is listed, and what it then leaves is an
    empty job database. *)
Theorem configure_raises_when_a_job_is_listed :
  configure Json.loads which disk squeue_prints = Raised bytes_refuse_str ∧
  (∀ json_load find fs line rest db,
      (∀ tool, tool ∈ ["squeue"; "sbatch"; "scancel"] →
               ∃ c exe, find tool = Some (String c exe)) →
      _read_job_db json_load fs job_db_path = Returned db →
      configure json_load find fs (line :: rest) = Raised bytes_refuse_str) ∧
  (∀ json_load find fs lines b,
      configure json_load find fs lines = Returned b →
      lines = [] ∧ _job_db b = ∅ ∧ live_job_states b = ∅).
Proof.
  assert (∀ json_load find fs line rest db,
            (∀ tool, tool ∈ ["squeue"; "sbatch"; "scancel"] →
                     ∃ c exe, find tool = Some (String c exe)) →
            _read_job_db json_load fs job_db_path = Returned db →
            configure json_load find fs (line :: rest) = Raised bytes_refuse_str)
    as Hraise.
  { intros json_load find fs line rest db Htools Hdb.
    destruct (Htools "squeue") as (c1 & e1 & H1); [set_solver|].
    destruct (Htools "sbatch") as (c2 & e2 & H2); [set_solver|].
    destruct (Htools "scancel") as (c3 & e3 & H3); [set_solver|].
    unfold configure.
    rewrite (find_exe_found _ _ _ _ H1), (find_exe_found _ _ _ _ H2),
      (find_exe_found _ _ _ _ H3).
    simpl. rewrite Hdb. reflexivity. }
  split_and!.
  - apply (Hraise Json.loads which disk _ _ persisted).
    + intros tool _. unfold which. by eexists _, _.
    + vm_compute. reflexivity.
  - exact Hraise.
  - apply configure_returned.
Qed.

Lemma configure_raises_when_a_job_is_listed_witness :
  configure Json.loads which disk ["4711;R;"] = Raised bytes_refuse_str ∧
  ∃ b, configure Json.loads which disk [] = Returned b ∧
       _job_db b = ∅ ∧ live_job_states b = ∅.
Proof.
  destruct configure_raises_when_a_job_is_listed as (_ & Hraise & Hreturned).
  split.
  - apply (Hraise Json.loads which disk "4711;R;" [] persisted).
    + intros tool _. unfold which. by eexists _, _.
    + vm_compute. reflexivity.
  - eexists. split; [vm_compute; reflexivity|].
    eapply (Hreturned Json.loads which disk []). vm_compute. reflexivity.
Defined.

End Slurm_configure.

Section Slurm_cancel.
Import Slurm SlurmSpec.




End Slurm_cancel.

(** * JSON: reading back what was written *)

Section Json_round_trip.
Import Json.

Lemma append_cons c s t : String c s +:+ t = String c (s +:+ t).
Proof. reflexivity. Qed.

Lemma append_assoc s t u : (s +:+ t) +:+ u = s +:+ (t +:+ u).
Proof.
  induction s as [|c s IH]; [done|]. rewrite !append_cons. by f_equal.
Qed.

Lemma loads_string_char c tail :
  loads_string (escape_char c +:+ tail) = cons_char c (loads_string tail).
Proof.
  destruct c as [[] [] [] [] [] [] [] []]; reflexivity.
Qed.

Lemma loads_string_escape s tail :
  loads_string (escape s +:+ String quote tail) = Some (s, tail).
Proof.
  induction s as [|c s IH].
  - reflexivity.
  - change (escape (String c s)) with (escape_char c +:+ escape s).
    rewrite append_assoc, loads_string_char, IH. reflexivity.
Qed.

Lemma dumps_text obj :
  dumps obj = String "{" (dumps_members (map_to_list obj) +:+ "}").
Proof. reflexivity. Qed.

Lemma dumps_entry_text kv tail :
  dumps_entry kv +:+ tail =
    String quote (escape kv.1 +:+ String quote
      (String ":" (String " " (String quote (escape kv.2 +:+ String quote tail))))).
Proof.
  unfold dumps_entry, dumps_string, dquote. rewrite !append_assoc. reflexivity.
Qed.

Lemma dumps_members_cons kv kv' l :
  dumps_members (kv :: kv' :: l) = dumps_entry kv +:+ ", " +:+ dumps_members (kv' :: l).
Proof. reflexivity. Qed.

Lemma dumps_members_starts kv l tail :
  ∃ rest, dumps_members (kv :: l) +:+ tail = String quote rest.
Proof.
  destruct l as [|kv' l].
  - change (dumps_members [kv]) with (dumps_entry kv). rewrite dumps_entry_text. eauto.
  - rewrite dumps_members_cons, append_assoc, dumps_entry_text. eauto.
Qed.

Lemma lstrip_keep c s : is_space c = false → lstrip (String c s) = String c s.
Proof. intros H. simpl. by rewrite H. Qed.

Lemma lstrip_skip c s : is_space c = true → lstrip (String c s) = lstrip s.
Proof. intros H. simpl. by rewrite H. Qed.

Lemma loads_members_step fuel s acc kv tail :
  lstrip s = dumps_entry kv +:+ tail →
  loads_members (S fuel) s acc =
    match lstrip tail with
    | String "}" rest5 =>
        if decide (lstrip rest5 = EmptyString)
        then Some (<[kv.1 := kv.2]> acc) else None
    | String "," rest5 => loads_members fuel rest5 (<[kv.1 := kv.2]> acc)
    | _ => None
    end.
Proof.
  intros Hs. simpl. rewrite Hs, dumps_entry_text.
  rewrite decide_True by done. rewrite loads_string_escape.
  rewrite (lstrip_keep ":") by reflexivity. cbv beta iota.
  rewrite (lstrip_skip " ") by reflexivity.
  rewrite (lstrip_keep quote) by reflexivity.
  rewrite decide_True by done. rewrite loads_string_escape. reflexivity.
Qed.

Lemma loads_dumps_members l :
  ∀ fuel s acc,
    l ≠ [] → length l ≤ fuel → lstrip s = dumps_members l +:+ "}" →
    loads_members fuel s acc = Some (foldl (λ acc kv, <[kv.1 := kv.2]> acc) acc l).
Proof.
  induction l as [|kv l IH]; [done|]. intros fuel s acc _ Hfuel Hs.
  destruct fuel as [|fuel]; [simpl in Hfuel; lia|].
  destruct l as [|kv' l].
  - rewrite (loads_members_step _ _ _ kv "}") by done. reflexivity.
  - rewrite dumps_members_cons, append_assoc in Hs.
    rewrite (loads_members_step _ _ _ kv _ Hs).
    rewrite append_assoc.
    change (", " +:+ ?x) with (String "," (String " " x)).
    rewrite (lstrip_keep ",") by reflexivity. cbv beta iota.
    apply IH; [done|simpl in *; lia|].
    rewrite (lstrip_skip " ") by reflexivity.
    destruct (dumps_members_starts kv' l "}") as [rest ->].
    by rewrite (lstrip_keep quote) by reflexivity.
Qed.

Lemma length_append s t : String.length (s +:+ t) = String.length s + String.length t.
Proof.
  induction s as [|c s IH]; [done|]. rewrite append_cons. simpl. by rewrite IH.
Qed.

Lemma length_cons c s : String.length (String c s) = S (String.length s).
Proof. reflexivity. Qed.

Lemma dumps_members_length l : length l ≤ String.length (dumps_members l +:+ "}").
Proof.
  induction l as [|kv l IH]; [simpl; lia|].
  destruct l as [|kv' l].
  - change (dumps_members [kv]) with (dumps_entry kv). rewrite dumps_entry_text.
    rewrite length_cons. simpl length. lia.
  - rewrite dumps_members_cons, append_assoc, dumps_entry_text.
    rewrite length_cons, length_append, length_cons, length_cons, length_cons,
      length_cons, length_append, length_cons, append_assoc, length_append.
    simpl length in *. lia.
Qed.

Lemma foldl_insert (l : list (string * string)) (acc : gmap string string) :
  NoDup l.*1 →
  foldl (λ acc kv, <[kv.1 := kv.2]> acc) acc l = list_to_map l ∪ acc.
Proof.
  revert acc. induction l as [|[k v] l IH]; intros acc Hnd.
  - simpl. by rewrite (left_id_L ∅ (∪)).
  - rewrite fmap_cons in Hnd. apply NoDup_cons in Hnd as [Hk Hnd].
    simpl. rewrite IH by done.
    rewrite <- insert_union_l. symmetry. apply insert_union_r.
    by apply not_elem_of_list_to_map_1.
Qed.

(** Read back, what is written for a mapping is that mapping. *)
Lemma json_loads_dumps (obj : gmap string string) :
  loads (dumps obj) = Returned obj.
Proof.
  rewrite dumps_text. unfold loads.
  rewrite (lstrip_keep "{") by reflexivity. cbv beta iota.
  destruct (map_to_list obj) as [|kv l] eqn:Hl.
  - apply map_to_list_empty_iff in Hl as ->. reflexivity.
  - destruct (dumps_members_starts kv l "}") as [rest Hrest].
    rewrite Hrest. rewrite (lstrip_keep quote) by reflexivity.
    change quote with (Ascii false true false false false true false false) in *.
    cbv beta iota. rewrite <- Hrest.
    rewrite (loads_dumps_members (kv :: l)); [| done | apply dumps_members_length | ].
    + rewrite foldl_insert, (right_id_L ∅ (∪)).
      * by rewrite <- Hl, list_to_map_to_list.
      * rewrite <- Hl. apply NoDup_fst_map_to_list.
    + rewrite Hrest. by apply lstrip_keep.
Qed.

End Json_round_trip.

(** * The job database on disk *)

Section Slurm_persistence.
Import Slurm SlurmSpec.

Variable json_dump : gmap string string → string.
Variable json_load : string → outcome (gmap string string).

Lemma append_empty_r (s : string) : s +:+ "" = s.
Proof.
  induction s as [|c s IH]; [done|].
  change (String c (s +:+ "") = String c s). by f_equal.
Qed.

Lemma new_path_differs (path : string) : path +:+ ".new" ≠ path.
Proof.
  intros Heq. rewrite <- (append_empty_r path) in Heq at 2.
  by apply (inj (String.app path)) in Heq.
Qed.

(** The whole procedure: the final path holds the dump and the temporary
    file is gone. *)
Lemma dump_atomic_run fs obj path :
  FS.run fs (dump_atomic json_dump obj path) =
    Returned (FS.mk (<[path := json_dump obj]>
                       (delete (path +:+ ".new")
                          (<[path +:+ ".new" := json_dump obj]>
                             (<[path +:+ ".new" := json_dump obj]>
                                (<[path +:+ ".new" := ""]> (FS.files fs))))))
                    None).
Proof.
  unfold dump_atomic. simpl. rewrite !lookup_insert_eq. simpl.
  by rewrite append_empty_r.
Qed.

(** Cut short before the rename, the procedure has only touched the
    temporary file. *)
Lemma dump_atomic_crash n fs obj path :
  n < 7 →
  ∃ fs', FS.crash_after n fs (dump_atomic json_dump obj path) = Returned fs' ∧
         ∀ p, p ≠ path +:+ ".new" → FS.files fs' !! p = FS.files fs !! p.
Proof.
  intros Hn. unfold FS.crash_after, dump_atomic.
  do 7 (destruct n as [|n]; [simpl; rewrite ?lookup_insert_eq; simpl;
        eexists; split; [done|];
        intros p Hp; simpl; by rewrite ?lookup_insert_ne by done|]).
  lia.
Qed.

End Slurm_persistence.

Section Slurm_round_trip.
Import Slurm SlurmSpec.

(** C5. Written by the atomic-write procedure and read back, a job
    database comes back as it was: for every [json.dump] and [json.load]
    that round-trip it, and so for the JSON printer and parser above.
    Cut short anywhere before the rename, the procedure leaves the
    previously committed file, and what is read from it, unchanged. *)
Theorem job_db_round_trip_and_crash_safety :
  (∀ json_dump json_load fs obj path,
      json_load (json_dump obj) = Returned obj →
      ∃ fs', FS.run fs (dump_atomic json_dump obj path) = Returned fs' ∧
             _read_job_db json_load fs' path = Returned obj) ∧
  (∀ fs obj path,
      ∃ fs', FS.run fs (dump_atomic Json.dumps obj path) = Returned fs' ∧
             _read_job_db Json.loads fs' path = Returned obj) ∧
  (∀ json_dump json_load n fs obj path,
      n < 7 →
      ∃ fs', FS.crash_after n fs (dump_atomic json_dump obj path) = Returned fs' ∧
             FS.files fs' !! path = FS.files fs !! path ∧
             _read_job_db json_load fs' path = _read_job_db json_load fs path).
Proof.
  assert (∀ json_dump json_load fs obj path,
             json_load (json_dump obj) = Returned obj →
             ∃ fs', FS.run fs (dump_atomic json_dump obj path) = Returned fs' ∧
                    _read_job_db json_load fs' path = Returned obj) as Hround.
  { intros json_dump json_load fs obj path Hjson.
    eexists. split; [apply dump_atomic_run|].
    unfold _read_job_db. simpl. by rewrite lookup_insert_eq. }
  split; [done|split].
  - intros fs obj path. apply Hround, json_loads_dumps.
  - intros json_dump json_load n fs obj path Hn.
    destruct (dump_atomic_crash json_dump n fs obj path Hn) as (fs' & Hrun & Hsame).
    exists fs'. split; [done|].
    assert (FS.files fs' !! path = FS.files fs !! path) as Hpath.
    { apply Hsame. intros Heq. by apply (new_path_differs path). }
    split; [done|]. unfold _read_job_db. by rewrite Hpath.
Qed.

Lemma job_db_round_trip_and_crash_safety_witness :
  (∃ fs', FS.run disk (dump_atomic Json.dumps {[ "align" := "5001" ]} job_db_path)
            = Returned fs' ∧
          _read_job_db Json.loads fs' job_db_path = Returned {[ "align" := "5001" ]}) ∧
  (∃ fs', FS.crash_after 5 disk
            (dump_atomic Json.dumps {[ "align" := "5001" ]} job_db_path)
            = Returned fs' ∧
          FS.files fs' !! job_db_path = FS.files disk !! job_db_path ∧
          _read_job_db Json.loads fs' job_db_path
            = _read_job_db Json.loads disk job_db_path).
Proof.
  destruct job_db_round_trip_and_crash_safety as (Hround & _ & Hcrash).
  split.
  - apply Hround. vm_compute. reflexivity.
  - apply Hcrash. lia.
Defined.

End Slurm_round_trip.

(** * The job-state table *)

Section Job_states.
Import Slurm SlurmSpec.
Import Legacy.SlurmBackend.

Lemma state_loop_indigestible line rest acc :
  ¬ digestible line → state_loop (line :: rest) acc = acc.
Proof.
  intros Hbad. simpl.
  destruct (split ";" (strip line)) as [|job [|state [|depends [|]]]] eqn:Hf;
    try done.
  destruct (map_state !! state) as [simple|] eqn:Hs; [|done].
  destruct Hbad. exists job, state, depends. split; [done|by eexists].
Qed.

Lemma state_loop_app l1 l2 acc :
  Forall digestible l1 →
  state_loop (l1 ++ l2) acc = state_loop l2 (state_loop l1 acc).
Proof.
  intros Hall. revert acc.
  induction Hall as [|line lines (job & state & dep & Hf & [simple Hs]) _ IH];
    intros acc; [done|]. simpl.
  unfold fields in Hf. rewrite Hf.
  change (map_state !! state) with (JOB_STATE_CODES !! state). rewrite Hs.
  case_decide; apply IH.
Qed.

(** The job identifiers asked about only add [False] entries under what
    the loop stores. *)
Lemma state_loop_union lines acc base :
  state_loop lines (acc ∪ base) = state_loop lines acc ∪ base.
Proof.
  revert acc. induction lines as [|line lines IH]; intros acc; simpl; [done|].
  destruct (split ";" (strip line)) as [|job [|state [|depends [|]]]]; try done.
  destruct (map_state !! state) as [simple|]; [|done].
  case_decide; by rewrite insert_union_l, IH.
Qed.

Lemma requested_lookup (job_ids : list string) job_id :
  (list_to_map ((λ j, (j, PyFalse)) <$> job_ids) : gmap string state) !! job_id
  = if decide (job_id ∈ job_ids) then Some PyFalse else None.
Proof.
  induction job_ids as [|j job_ids IH].
  - simpl. rewrite lookup_empty.
    by destruct (decide (job_id ∈ [])) as [?%elem_of_nil|].
  - rewrite fmap_cons, list_to_map_cons.
    destruct (decide (job_id = j)) as [->|Hne].
    + rewrite lookup_insert_eq.
      destruct (decide (j ∈ j :: job_ids)) as [|Hnin]; [done|].
      destruct Hnin. apply list_elem_of_here.
    + rewrite lookup_insert_ne by done. rewrite IH.
      destruct (decide (job_id ∈ job_ids)), (decide (job_id ∈ j :: job_ids));
        try done; set_solver.
Qed.

(** One more row after rows the older loop could digest: what it adds
    to the table. *)
Lemma state_loop_row job_ids lines line job_id state depends simple :
  Forall digestible lines →
  fields line = [job_id; state; depends] → map_state !! state = Some simple →
  get_state_of_jobs job_ids (lines ++ [line]) =
    <[job_id := PyStr (if decide (simple = "Q" ∧ depends ≠ "") then "H" else simple)]>
      (get_state_of_jobs job_ids lines).
Proof.
  intros Hall Hf Hs. unfold get_state_of_jobs.
  rewrite state_loop_app by done. simpl.
  unfold fields in Hf. rewrite Hf, Hs. by case_decide.
Qed.

(** C6 at the failing input: [squeue] lists job 4711 as running.  The
    older implementation stores R for it; [_live_job_states] reads the
    line from a binary pipe and raises [TypeError] when it splits it, as
    it does at the first line of every listing that is not empty, so no
    row is ever mapped and the two implementations agree on no listing
    but the empty one.  Row by row, the mapping of the claim is that of
    the older implementation: after rows it could digest, a row with code
    R stores R for its job, a row with code PD stores H when its
    dependency string is not empty and Q when it is empty. *)
Theorem live_job_states_raises_on_any_row :
  (_live_job_states ["4711;R;"] = Raised bytes_refuse_str ∧
   get_state_of_jobs [] ["4711;R;"] = {[ "4711" := PyStr "R" ]}) ∧
  (∀ line rest, _live_job_states (line :: rest) = Raised bytes_refuse_str) ∧
  _live_job_states [] = Returned ∅ ∧
  (∀ job_ids lines line job_id depends,
      Forall digestible lines → fields line = [job_id; "R"; depends] →
      get_state_of_jobs job_ids (lines ++ [line])
        = <[job_id := PyStr "R"]> (get_state_of_jobs job_ids lines)) ∧
  (∀ job_ids lines line job_id depends,
      Forall digestible lines → fields line = [job_id; "PD"; depends] →
      depends ≠ "" →
      get_state_of_jobs job_ids (lines ++ [line])
        = <[job_id := PyStr "H"]> (get_state_of_jobs job_ids lines)) ∧
  (∀ job_ids lines line job_id,
      Forall digestible lines → fields line = [job_id; "PD"; ""] →
      get_state_of_jobs job_ids (lines ++ [line])
        = <[job_id := PyStr "Q"]> (get_state_of_jobs job_ids lines)).
Proof.
  split_and!.
  - reflexivity.
  - reflexivity.
  - intros line rest. reflexivity.
  - reflexivity.
  - intros job_ids lines line job_id depends Hall Hf.
    by rewrite (state_loop_row _ _ _ _ _ _ "R" Hall Hf).
  - intros job_ids lines line job_id depends Hall Hf Hdep.
    rewrite (state_loop_row _ _ _ _ _ _ "Q" Hall Hf) by reflexivity.
    by rewrite decide_True.
  - intros job_ids lines line job_id Hall Hf.
    rewrite (state_loop_row _ _ _ _ _ _ "Q" Hall Hf) by reflexivity.
    rewrite decide_False; [done|]. by intros [_ ?].
Qed.

Lemma live_job_states_raises_on_any_row_witness :
  get_state_of_jobs ["4712"] (["4711;R;"] ++ ["4712;R;"])
    = <["4712" := PyStr "R"]> (get_state_of_jobs ["4712"] ["4711;R;"]) ∧
  get_state_of_jobs ["4712"] (["4711;R;"] ++ ["4800;PD;afterok:4711"])
    = <["4800" := PyStr "H"]> (get_state_of_jobs ["4712"] ["4711;R;"]) ∧
  get_state_of_jobs ["4712"] (["4711;R;"] ++ ["4801;PD;"])
    = <["4801" := PyStr "Q"]> (get_state_of_jobs ["4712"] ["4711;R;"]).
Proof.
  destruct live_job_states_raises_on_any_row as (_ & _ & _ & HR & HH & HQ).
  assert (Forall digestible ["4711;R;"]) as Hd.
  { repeat constructor. exists "4711", "R", "". split; [reflexivity|].
    vm_compute. eauto. }
  split; [|split].
  - apply (HR ["4712"] ["4711;R;"] "4712;R;" "4712" ""); [done|reflexivity].
  - apply (HH ["4712"] ["4711;R;"] "4800;PD;afterok:4711" "4800" "afterok:4711");
      [done|reflexivity|discriminate].
  - apply (HQ ["4712"] ["4711;R;"] "4801;PD;" "4801"); [done|reflexivity].
Defined.

End Job_states.

(** * Submission scripts *)

Section Scripts.
Import Slurm SlurmSpec.
Import Legacy.SlurmBackend.

Lemma directives_foldl (options : list (string * value)) (out : list string) :
  foldl (λ out kv,
           if decide (kv.1 ∈ supported_options)
           then out ++ ["#SBATCH " +:+ (OPTION_TABLE !!! kv.1) +:+ str kv.2]
           else out) out options
  = out ++ (directive <$> filter (λ kv, kv.1 ∈ supported_options) options).
Proof.
  revert out. induction options as [|kv options IH]; intros out; simpl.
  - by rewrite app_nil_r.
  - rewrite IH. destruct (decide (kv.1 ∈ supported_options)) as [Hin|Hnin].
    + rewrite filter_cons_True by done. by rewrite <- app_assoc.
    + by rewrite filter_cons_False by done.
Qed.

Lemma compile_script_lines target :
  _compile_script target =
    join newline
      ("#!/bin/bash"
         :: (directive <$> filter (λ kv, kv.1 ∈ supported_options) (options target))
         ++ epilogue target).
Proof.
  unfold _compile_script. rewrite directives_foldl. unfold epilogue.
  by rewrite <- !app_assoc.
Qed.

Lemma filter_recognised_twice (options : list (string * value)) :
  filter (λ kv, kv.1 ∈ supported_options)
    (filter (λ kv, kv.1 ∈ supported_options) options)
  = filter (λ kv, kv.1 ∈ supported_options) options.
Proof.
  induction options as [|kv options IH]; [done|].
  destruct (decide (kv.1 ∈ supported_options)) as [Hin|Hnin].
  - rewrite !(filter_cons_True (λ kv, kv.1 ∈ supported_options)) by done.
    by f_equal.
  - by rewrite (filter_cons_False (λ kv, kv.1 ∈ supported_options)) by done.
Qed.

(** C7, as the code has it.  The script of [_compile_script] is the
    interpreter line, then one directive line for each recognised option
    of the target in the order in which the target lists its options,
    then the environment exports and the raw spec; options outside the
    option table change nothing.  The older [write_script_header] is the
    one that writes the directives in the fixed order, whatever other
    options there are. *)
Theorem script_layout :
  (∀ target,
      _compile_script target =
        join newline
          ("#!/bin/bash"
             :: (directive <$>
                   filter (λ kv, kv.1 ∈ supported_options) (options target))
             ++ epilogue target)) ∧
  (∀ target,
      _compile_script target =
        _compile_script
          (with_options target
             (filter (λ kv, kv.1 ∈ supported_options) (options target)))) ∧
  (∀ key flag, (key, flag) ∈ fixed_order ↔ OPTION_TABLE !! key = Some flag) ∧
  (∀ options lines,
      write_script_header options = (lines, None) →
      lines = in_fixed_order options) ∧
  (∀ options options',
      (∀ key, key ∈ fixed_order.*1 → options !! key = options' !! key) →
      write_script_header options = write_script_header options').
Proof.
  split_and!.
  - apply compile_script_lines.
  - intros target. rewrite !compile_script_lines. simpl.
    by rewrite filter_recognised_twice.
  - intros key flag. unfold fixed_order, OPTION_TABLE. split.
    + rewrite !elem_of_cons, elem_of_nil.
      intros [[= -> ->]|[[= -> ->]|[[= -> ->]|[[= -> ->]|[[= -> ->]|
              [[= -> ->]|[[= -> ->]|[[= -> ->]|[[= -> ->]|[]]]]]]]]]];
        reflexivity.
    + intros Hl. apply elem_of_list_to_map_2 in Hl. exact Hl.
  - intros options lines.
    unfold write_script_header, in_fixed_order, fixed_order.
    cbn [omap list_omap fmap option_fmap option_map fst snd].
    generalize (options !! "nodes") (options !! "cores") (options !! "memory")
      (options !! "walltime") (options !! "queue") (options !! "account")
      (options !! "constraint") (options !! "mail_type") (options !! "mail_user").
    intros [v1|] [v2|] [v3|] [v4|] o5 o6 o7 o8 o9 Heq; try discriminate Heq.
    injection Heq as <-.
    destruct o5, o6, o7, o8, o9; exact eq_refl.
  - intros options options' Hsame. unfold write_script_header.
    rewrite <- !Hsame; [done|..]; vm_compute; set_solver.
Qed.

Lemma script_layout_witness :
  _compile_script align =
    _compile_script
      (with_options align [("walltime", VStr "01:00:00"); ("nodes", VInt 2)]) ∧
  [ "#SBATCH -N 2"; "#SBATCH -c 4"; "#SBATCH --mem=8g"; "#SBATCH -t 01:00:00";
    "#SBATCH -p normal" ] = in_fixed_order header_options ∧
  write_script_header header_options
    = write_script_header (delete "threads" header_options).
Proof.
  destruct script_layout as (_ & Hignored & _ & Hfixed & Hsame).
  split_and!.
  - apply (Hignored align).
  - apply (Hfixed header_options). vm_compute. reflexivity.
  - apply (Hsame header_options (delete "threads" header_options)).
    intros key Hkey. rewrite lookup_delete_ne; [done|].
    intros <-. vm_compute in Hkey. set_solver.
Defined.

(** C7, as stated, fails for [_compile_script]: the target lists
    walltime before nodes, and so does its script, where the fixed order
    has nodes first. *)
Lemma directives_follow_the_order_of_the_target :
  _compile_script align =
    join newline
      [ "#!/bin/bash"; "#SBATCH -t 01:00:00"; "#SBATCH -N 2"; "";
        "### Generated by GWF"; "cd /work"; "export GWF_JOBID=$SLURM_JOBID";
        "export GWF_TARGET_NAME=" +:+ dquote +:+ "align" +:+ dquote;
        "set -e"; ""; "bwa mem ref.fa reads.fq" ] ∧
  in_fixed_order (list_to_map (options align))
    = [ "#SBATCH -N 2"; "#SBATCH -t 01:00:00" ] ∧
  _compile_script align ≠
    join newline
      ("#!/bin/bash" :: in_fixed_order (list_to_map (options align))
         ++ epilogue align).
Proof.
  split_and!; [vm_compute; reflexivity|vm_compute; reflexivity|].
  vm_compute. discriminate.
Qed.

End Scripts.

(** * The definitions at work *)

Section Examples.
Import Local SlurmSpec.

Example strip_line : strip ("  4711;R; " +:+ newline) = "4711;R;".
Proof. reflexivity. Qed.

Example split_line : split ";" "4800;PD;afterok:4711" = ["4800"; "PD"; "afterok:4711"].
Proof. reflexivity. Qed.

Example split_trailing : split ";" "4711;R;" = ["4711"; "R"; ""].
Proof. reflexivity. Qed.

Example split_empty : split ";" "" = [""].
Proof. reflexivity. Qed.

(** The loop of [_live_job_states] on lines of text, and on the first
    line of a binary pipe. *)
Example live_loop_text :
  Slurm.live_loop [Str "4711;R;"; Str "4800;PD;afterok:4711"] ∅
  = Returned (<["4800" := "H"]> {[ "4711" := "R" ]}).
Proof. reflexivity. Qed.

Example live_loop_bytes :
  Slurm.live_loop [Bytes "4711;R;"; Str "4800;PD;afterok:4711"] ∅
  = Raised bytes_refuse_str.
Proof. reflexivity. Qed.

Example str_of_negative : str (VInt (-12)) = "-12".
Proof. reflexivity. Qed.

Example dict_set_keeps_position :
  dict_set "b" 5 [("a", 1); ("b", 2); ("c", 3)] = [("a", 1); ("b", 5); ("c", 3)].
Proof. reflexivity. Qed.

Example dict_del_missing : dict_del "z" [("a", 1)] = None.
Proof. reflexivity. Qed.

Example status_of_unknown_name :
  status_of_name "DONE" = Raised (KeyError "DONE").
Proof. reflexivity. Qed.

Example json_dumps_escapes :
  Json.dumps {[ "a" := "x" +:+ dquote +:+ newline ]}
  = "{" +:+ dquote +:+ "a" +:+ dquote +:+ ": " +:+ dquote +:+ "x\"
    +:+ dquote +:+ "\n" +:+ dquote +:+ "}".
Proof. reflexivity. Qed.

Example json_loads_dumps_persisted :
  Json.loads (Json.dumps persisted) = Returned persisted.
Proof. vm_compute. reflexivity. Qed.

Example worker_three_assignments :
  WorkerSpec.reports_of WorkerSpec.worker0 WorkerSpec.three_assignments =
    [ (2, Message.update_task_state "T1" "RUNNING");
      (2, Message.update_task_state "T1" "FAILED");
      (2, Message.update_task_state "T2" "RUNNING");
      (2, Message.update_task_state "T2" "FAILED");
      (2, Message.update_task_state "T3" "RUNNING");
      (2, Message.update_task_state "T3" "COMPLETED") ].
Proof. reflexivity. Qed.

Example worker_shutdown :
  Worker.start WorkerSpec.worker0
    [ (Message.shutdown, Worker.started 0 (Worker.exited 0));
      (Message.run_task (WorkerSpec.job "T1"), Worker.started 0 (Worker.exited 0)) ]
  = (Worker.mk "Worker0" 2 true,
     [ (2, Message.leave_worker "Worker0"); (2, Message.close) ],
     Worker.left_cluster).
Proof. reflexivity. Qed.

(** One worker, two tasks submitted one after the other while it is
    joined: the first is dispatched, the second waits for its report. *)
Example one_worker_two_submissions :
  let s := ServerSpec.after
             [ Server.accept 1; Server.accept 2; ServerSpec.join "Worker0";
               ServerSpec.submit "T1" []; ServerSpec.submit "T2" [] ] in
  Server._used_workers s !! "T1" = Some "Worker0" ∧
  Server._used_workers s !! "T2" = None ∧
  Server._pending_tasks s = {[ "T2" ]}.
Proof. split_and!; vm_compute; reflexivity. Qed.

End Examples.

(** * Passes in a row *)

Section Passes.
Import Local Local.Server ServerSpec PassSpec.

Lemma dispatched_id_app out1 out2 id :
  dispatched_id (out1 ++ out2) id ↔ dispatched_id out1 id ∨ dispatched_id out2 id.
Proof.
  unfold dispatched_id, dispatched. setoid_rewrite elem_of_app. naive_solver.
Qed.

Lemma dispatched_id_nil id : ¬ dispatched_id [] id.
Proof. intros (task & [c Hin] & _). by apply elem_of_nil in Hin. Qed.

Lemma pass_well_formed enum s s' out r :
  well_formed s → _schedule_once enum s = (s', out, r) → well_formed s'.
Proof.
  intros [Hdom Hid] Hpass.
  destruct (schedule_once_fields _ _ _ _ _ Hpass) as (Ht & Hsub & _). split.
  - intros id Hin. rewrite Ht. apply Hdom. set_solver.
  - intros id task. rewrite Ht. apply Hid.
Qed.

(** A pass sends [run_task] only for tasks that were pending. *)
Lemma pass_dispatches_pending enum s s' out r id :
  iteration_order enum → well_formed s →
  _schedule_once enum s = (s', out, r) → dispatched_id out id →
  id ∈ _pending_tasks s.
Proof.
  intros Henum [_ Hid] Hpass (task & [c Hin] & <-).
  destruct (schedule_once_sent _ _ _ _ _ Hpass _ Hin)
    as (id & task' & w & wk & Hin' & Hcl & _ & [= _ ->]).
  apply classify_ready in Hcl as [Htask _]. rewrite (Hid _ _ Htask).
  by apply enum_elem_of in Hin'.
Qed.

(** What every pass keeps. *)
Lemma pass_frame enum s :
  iteration_order enum → well_formed s →
  ∃ s' out,
    _schedule_once enum s = (s', out, None) ∧ well_formed s' ∧
    _tasks s' = _tasks s ∧ _pending_tasks s' ⊆ _pending_tasks s ∧
    (∀ d, _task_states s !! d = Some FAILED → _task_states s' !! d = Some FAILED) ∧
    (∀ d, _task_states s' !! d = Some COMPLETED → _task_states s !! d = Some COMPLETED).
Proof.
  intros Henum Hwf.
  destruct (schedule_once_spec enum s Henum Hwf)
    as (s' & out & Hpass & _ & _ & _ & _ & _ & Hts & _).
  destruct (schedule_once_fields _ _ _ _ _ Hpass) as (Ht & Hsub & Hst).
  exists s', out. split_and!; [done|by eapply pass_well_formed|done|done| |].
  - intros d Hf. rewrite Hts, Hf. by destruct (_ && _).
  - intros d Hc. by destruct (Hst _ _ Hc).
Qed.

(** A pass on a task one of whose dependencies is not completed, and
    which is pending or already failed: it is not dispatched, and after
    the pass it is again pending or failed. *)
Lemma pass_waiting enum s id task d :
  iteration_order enum → well_formed s →
  _tasks s !! id = Some task →
  d ∈ dependencies task → _task_states s !! d ≠ Some COMPLETED →
  id ∈ _pending_tasks s ∨
    (_task_states s !! id = Some FAILED ∧ id ∉ _pending_tasks s) →
  ∃ s' out,
    _schedule_once enum s = (s', out, None) ∧ well_formed s' ∧
    _tasks s' = _tasks s ∧ _task_states s' !! d ≠ Some COMPLETED ∧
    (∀ d', _task_states s !! d' = Some FAILED → _task_states s' !! d' = Some FAILED) ∧
    _pending_tasks s' ⊆ _pending_tasks s ∧
    ¬ dispatched_id out id ∧
    (id ∈ _pending_tasks s' ∨
     (_task_states s' !! id = Some FAILED ∧ id ∉ _pending_tasks s')).
Proof.
  intros Henum Hwf Htask Hd Hnc Hcase.
  destruct (pass_frame enum s Henum Hwf)
    as (s' & out & Hpass & Hwf' & Ht & Hsub & Hf & Hc).
  exists s', out. split_and!; try done.
  - intros Hd'. by apply Hnc, Hc.
  - intros (task' & Hdisp & Hid).
    destruct Hdisp as [c Hin].
    destruct (schedule_once_sent _ _ _ _ _ Hpass _ Hin)
      as (id' & task'' & w & wk & _ & Hcl & _ & [= _ ->]).
    apply classify_ready in Hcl as [Htask' Hall].
    destruct Hwf as [_ Hids]. rewrite (Hids _ _ Htask') in Hid. subst id'.
    rewrite Htask in Htask'. injection Htask' as <-. by apply Hnc, Hall.
  - destruct Hcase as [Hpend|[Hst Hnp]].
    + destruct (schedule_once_spec enum s Henum Hwf)
        as (s'' & out'' & Hpass' & _ & _ & _ & _ & Hp & Hts & _).
      rewrite Hpass in Hpass'. injection Hpass' as <- <-.
      destruct (has_failed_dependency s id) eqn:Hfd.
      * right. split.
        -- rewrite Hts, Hfd. by rewrite bool_decide_eq_true_2.
        -- intros (_ & Hne & _)%Hp. unfold has_failed_dependency in Hfd.
           by destruct (classify s id) as [[| |?]|].
      * left. apply Hp. split_and!; [done| |].
        -- intros Hcl. unfold has_failed_dependency in Hfd. by rewrite Hcl in Hfd.
        -- intros [[task' Hcl] _]. apply classify_ready in Hcl as [Htask' Hall].
           rewrite Htask in Htask'. injection Htask' as <-. by apply Hnc, Hall.
    + right. split; [by apply Hf|]. intros Hin. apply Hnp. set_solver.
Qed.

Lemma passes_waiting enums s id task d :
  Forall iteration_order enums → well_formed s →
  _tasks s !! id = Some task →
  d ∈ dependencies task → _task_states s !! d ≠ Some COMPLETED →
  id ∈ _pending_tasks s ∨
    (_task_states s !! id = Some FAILED ∧ id ∉ _pending_tasks s) →
  ∃ s' out,
    passes enums s = (s', out, None) ∧ well_formed s' ∧
    _tasks s' = _tasks s ∧
    (∀ d', _task_states s !! d' = Some FAILED → _task_states s' !! d' = Some FAILED) ∧
    _pending_tasks s' ⊆ _pending_tasks s ∧
    ¬ dispatched_id out id ∧
    (id ∈ _pending_tasks s' ∨
     (_task_states s' !! id = Some FAILED ∧ id ∉ _pending_tasks s')).
Proof.
  intros Hall. revert s.
  induction Hall as [|enum enums Henum Hall IH]; intros s Hwf Htask Hd Hnc Hcase.
  - exists s, []. split_and!; try done. apply dispatched_id_nil.
  - destruct (pass_waiting enum s id task d Henum Hwf Htask Hd Hnc Hcase)
      as (s1 & out1 & Hpass & Hwf1 & Ht1 & Hnc1 & Hf1 & Hsub1 & Hnd1 & Hcase1).
    destruct (IH s1 Hwf1)
      as (s2 & out2 & Hrest & Hwf2 & Ht2 & Hf2 & Hsub2 & Hnd2 & Hcase2);
      [by rewrite Ht1|done|done|done|].
    exists s2, (out1 ++ out2). simpl. rewrite Hpass, Hrest. split_and!; try done.
    + by rewrite Ht2.
    + intros d' Hd'. by apply Hf2, Hf1.
    + set_solver.
    + intros [?|?]%dispatched_id_app; done.
Qed.

Lemma passes_app e1 e2 s :
  passes (e1 ++ e2) s =
    match passes e1 s with
    | (s1, out1, None) =>
        let '(s2, out2, r) := passes e2 s1 in (s2, out1 ++ out2, r)
    | (s1, out1, Some e) => (s1, out1, Some e)
    end.
Proof.
  revert s. induction e1 as [|enum e1 IH]; intros s; simpl.
  - by destruct (passes e2 s) as [[? ?] ?].
  - destruct (_schedule_once enum s) as [[s1 out1] [e|]]; [done|].
    rewrite IH. destruct (passes e1 s1) as [[s2 out2] [e|]]; [done|].
    destruct (passes e2 s2) as [[s3 out3] r]. by rewrite app_assoc.
Qed.

(** A task with a failed dependency is marked failed by the first of
    any number of passes and stays so. *)
Lemma passes_failed_dependency enums s id task d :
  Forall iteration_order enums → 1 ≤ length enums → well_formed s →
  _tasks s !! id = Some task →
  d ∈ dependencies task → _task_states s !! d = Some FAILED →
  id ∈ _pending_tasks s ∨
    (_task_states s !! id = Some FAILED ∧ id ∉ _pending_tasks s) →
  ∃ s' out,
    passes enums s = (s', out, None) ∧
    _task_states s' !! id = Some FAILED ∧ (id ∉ _pending_tasks s') ∧
    ¬ dispatched_id out id.
Proof.
  intros Hall Hlen Hwf Htask Hd Hf Hcase.
  destruct enums as [|enum enums]; [simpl in Hlen; lia|].
  apply Forall_cons in Hall as [Henum Hall].
  assert (_task_states s !! d ≠ Some COMPLETED) as Hnc by (rewrite Hf; discriminate).
  destruct (pass_waiting enum s id task d Henum Hwf Htask Hd Hnc Hcase)
    as (s1 & out1 & Hpass & Hwf1 & Ht1 & Hnc1 & Hf1 & Hsub1 & Hnd1 & _).
  assert (_task_states s1 !! id = Some FAILED ∧ id ∉ _pending_tasks s1) as Hcase1.
  { destruct Hcase as [Hpend|[Hst Hnp]].
    - destruct (schedule_once_failed_dependency enum s id task d)
        as (s1' & out1' & Hpass' & Hst1 & Hnp1 & _); try done.
      rewrite Hpass in Hpass'. by injection Hpass' as <- <-.
    - split; [by apply Hf1|set_solver]. }
  destruct (passes_waiting enums s1 id task d Hall Hwf1)
    as (s2 & out2 & Hrest & _ & _ & Hf2 & Hsub2 & Hnd2 & _);
    [by rewrite Ht1|done|done|by right|].
  destruct Hcase1 as [Hst1 Hnp1].
  exists s2, (out1 ++ out2). simpl. rewrite Hpass, Hrest. split_and!; [done| | |].
  - by apply Hf2.
  - set_solver.
  - intros [?|?]%dispatched_id_app; done.
Qed.

(** X5.  A pending task below a failed one, at any depth, is marked
    [FAILED] by enough passes in a row: there is a number of passes
    after which, whatever the iteration orders, it is [FAILED], is not
    pending, and was never dispatched. *)
Theorem failure_reaches_doomed_tasks s id :
  well_formed s → doomed s id →
  ∃ n, ∀ enums,
    n ≤ length enums → Forall iteration_order enums →
    ∃ s' out,
      passes enums s = (s', out, None) ∧
      _task_states s' !! id = Some FAILED ∧ (id ∉ _pending_tasks s') ∧
      ¬ dispatched_id out id.
Proof.
  intros Hwf Hdoomed.
  induction Hdoomed as [id task d Hpend Htask Hd Hf|id task d Hpend Htask Hd Hnc _ IH].
  - exists 1. intros enums Hlen Hall.
    by apply (passes_failed_dependency enums s id task d); [..|left].
  - destruct IH as [n IH]. exists (S n). intros enums Hlen Hall.
    rewrite <- (take_drop n enums) in Hall |- *.
    apply Forall_app in Hall as [Hall1 Hall2].
    destruct (IH (take n enums)) as (s1 & out1 & Hp1 & Hfd & _); [|done|].
    { rewrite length_take. lia. }
    destruct (passes_waiting (take n enums) s id task d Hall1 Hwf)
      as (s1' & out1' & Hp1' & Hwf1 & Ht1 & _ & _ & Hnd1 & Hcase1);
      [done|done|done|by left|].
    rewrite Hp1 in Hp1'. injection Hp1' as <- <-.
    destruct (passes_failed_dependency (drop n enums) s1 id task d)
      as (s2 & out2 & Hp2 & Hst2 & Hnp2 & Hnd2); try done.
    { rewrite length_drop. lia. }
    { by rewrite Ht1. }
    exists s2, (out1 ++ out2). rewrite passes_app, Hp1, Hp2.
    split_and!; try done.
    intros [?|?]%dispatched_id_app; done.
Qed.

Lemma failure_reaches_doomed_tasks_witness :
  ∃ n, ∀ enums,
    n ≤ length enums → Forall iteration_order enums →
    ∃ s' out,
      passes enums chain_failed = (s', out, None) ∧
      _task_states s' !! "C" = Some FAILED ∧ ("C" ∉ _pending_tasks s') ∧
      ¬ dispatched_id out "C".
Proof.
  apply failure_reaches_doomed_tasks.
  - by apply at_pass_well_formed.
  - apply (doomed_step _ "C" (task_of "C" ["B"]) "B").
    + vm_compute. set_solver.
    + vm_compute. reflexivity.
    + vm_compute. set_solver.
    + vm_compute. discriminate.
    + apply (doomed_direct _ "B" (task_of "B" ["A"]) "A").
      * vm_compute. set_solver.
      * vm_compute. reflexivity.
      * vm_compute. set_solver.
      * vm_compute. reflexivity.
Defined.
End Passes.

(** * Workers and passes *)

Section Free_workers.
Import Local Local.Server ServerSpec PassSpec.

Lemma first_free_Some joined used worker_id worker :
  first_free joined used = Some (worker_id, worker) →
  (worker_id, worker) ∈ joined ∧ ∀ task_id, used !! task_id ≠ Some worker_id.
Proof.
  unfold first_free. intros Hfind.
  apply find_some in Hfind as [Hin Hfree]. split.
  - by apply list_elem_of_In.
  - intros task_id Hused. apply bool_decide_eq_true_1 in Hfree.
    apply Hfree. unfold values. apply list_elem_of_fmap.
    exists (task_id, worker_id). split; [done|]. by apply elem_of_map_to_list.
Qed.

Lemma first_free_None joined used :
  first_free joined used = None ↔
  ∀ worker_id worker, (worker_id, worker) ∈ joined →
    ∃ task_id, used !! task_id = Some worker_id.
Proof.
  unfold first_free. split.
  - intros Hfind worker_id worker Hin.
    apply list_elem_of_In in Hin.
    pose proof (find_none _ _ Hfind _ Hin) as Hused. simpl in Hused.
    apply bool_decide_eq_false_1 in Hused.
    apply dec_stable in Hused. unfold values in Hused.
    apply list_elem_of_fmap in Hused as ([task_id w] & -> & Hin').
    exists task_id. by apply elem_of_map_to_list in Hin'.
  - intros Hall. destruct (find _ joined) as [[worker_id worker]|] eqn:Hfind; [|done].
    apply first_free_Some in Hfind as [Hin Hfree].
    destruct (Hall _ _ Hin) as [task_id Hused]. by destruct (Hfree task_id).
Qed.

(** X2.  Everything a pass sends is a [run_task] for a task that was
    pending and is in the task table, written to the connection of a
    joined worker that had no task assigned when the pass began. *)
Theorem pass_sends_to_free_joined_workers enum s s' out r c m :
  iteration_order enum → well_formed s →
  _schedule_once enum s = (s', out, r) → (c, m) ∈ out →
  ∃ task worker_id worker,
    m = Message.run_task task ∧
    task_id task ∈ _pending_tasks s ∧ _tasks s !! task_id task = Some task ∧
    (worker_id, worker) ∈ _joined_workers s ∧ JoinedWorker.conn worker = c ∧
    unassigned s worker_id.
Proof.
  intros Henum [_ Hid] Hpass Hin.
  destruct (schedule_once_sent _ _ _ _ _ Hpass _ Hin)
    as (id & task & worker_id & worker & Hin' & Hcl & Hfree & [= -> ->]).
  apply classify_ready in Hcl as [Htask _].
  apply first_free_Some in Hfree as [Hjoined Hfree].
  exists task, worker_id, worker. rewrite (Hid _ _ Htask).
  split_and!; try done. by apply enum_elem_of in Hin'.
Qed.

Lemma pass_sends_to_free_joined_workers_witness :
  ∃ task worker_id worker,
    Message.run_task (task_of "T1" []) = Message.run_task task ∧
    task_id task ∈ _pending_tasks one_ready ∧
    _tasks one_ready
      !! task_id task = Some task ∧
    (worker_id, worker)
      ∈ _joined_workers one_ready ∧
    JoinedWorker.conn worker = 2 ∧
    unassigned one_ready worker_id.
Proof.
  eapply (pass_sends_to_free_joined_workers elements
            one_ready).
  - apply iteration_order_elements.
  - by apply at_pass_well_formed.
  - apply result_eta.
  - vm_compute. set_solver.
Defined.

(** X3.  When each joined worker has a task assigned (in particular when
    no worker has joined), a pass returns, sends nothing and leaves the
    assignment table as it was; tasks that are ready stay pending with
    their state unchanged. *)
Theorem pass_without_free_worker enum s :
  iteration_order enum → well_formed s →
  (∀ worker_id worker, (worker_id, worker) ∈ _joined_workers s →
     ∃ task_id, _used_workers s !! task_id = Some worker_id) →
  ∃ s',
    _schedule_once enum s = (s', [], None) ∧
    _used_workers s' = _used_workers s ∧
    ∀ id task,
      id ∈ _pending_tasks s → classify s id = Some (ready task) →
      id ∈ _pending_tasks s' ∧ _task_states s' !! id = (_task_states s !! id).
Proof.
  intros Henum Hwf Hbusy. apply first_free_None in Hbusy.
  destruct (schedule_once_spec enum s Henum Hwf)
    as (s' & out & Hpass & _ & _ & _ & _ & Hp & Hts & Hused).
  assert (out = []) as ->.
  { destruct out as [|pkt out]; [done|].
    destruct (schedule_once_sent _ _ _ _ _ Hpass pkt)
      as (? & ? & ? & ? & _ & _ & Hfree & _); [left|]. congruence. }
  exists s'. split_and!; [done| |].
  - apply map_eq. intros id. rewrite Hused, Hbusy. done.
  - intros id task Hpend Hcl. split.
    + apply Hp. split_and!; [done|congruence|]. intros [_ [? Hfree]]. congruence.
    + rewrite Hts. unfold has_failed_dependency. rewrite Hcl.
      by rewrite andb_false_r.
Qed.

Lemma pass_without_free_worker_witness :
  ∃ s',
    _schedule_once elements (at_pass busy_worker (submit "T2" [])) = (s', [], None) ∧
    _used_workers s' = _used_workers (at_pass busy_worker (submit "T2" [])) ∧
    ∀ id task,
      id ∈ _pending_tasks (at_pass busy_worker (submit "T2" [])) →
      classify (at_pass busy_worker (submit "T2" [])) id = Some (ready task) →
      id ∈ _pending_tasks s' ∧
      _task_states s' !! id
        = (_task_states (at_pass busy_worker (submit "T2" [])) !! id).
Proof.
  apply pass_without_free_worker.
  - apply iteration_order_elements.
  - by apply at_pass_well_formed.
  - intros worker_id worker Hin. exists "T1".
    vm_compute in Hin. apply list_elem_of_In in Hin. simpl in Hin.
    destruct Hin as [[= <- <-]|[]]. vm_compute. reflexivity.
Defined.

(** X4.  If no worker is shared before a pass and at most one pending
    task is ready, then no worker is shared after it. *)
Theorem one_ready_task_keeps_workers_apart enum s :
  iteration_order enum → well_formed s →
  injective_assignment s → at_most_one_ready s →
  ∃ s' out,
    _schedule_once enum s = (s', out, None) ∧ injective_assignment s'.
Proof.
  intros Henum Hwf Hinj Hone.
  destruct (schedule_once_spec enum s Henum Hwf)
    as (s' & out & Hpass & _ & _ & _ & _ & _ & _ & Hused).
  exists s', out. split; [done|].
  intros t1 t2 w. rewrite !Hused.
  destruct (first_free _ _) as [[worker_id worker]|] eqn:Hfree; [|apply Hinj].
  apply first_free_Some in Hfree as [_ Hfree].
  destruct (classify s t1) as [[| |task1]|] eqn:Hc1;
    destruct (classify s t2) as [[| |task2]|] eqn:Hc2; try apply Hinj;
    repeat case_decide; try apply Hinj; intros H1 H2; simplify_eq;
    try (by destruct (Hfree t1)); try (by destruct (Hfree t2)).
  by eapply Hone.
Qed.

Lemma one_ready_task_keeps_workers_apart_witness :
  ∃ s' out,
    _schedule_once elements one_ready = (s', out, None) ∧ injective_assignment s'.
Proof.
  apply one_ready_task_keeps_workers_apart.
  - apply iteration_order_elements.
  - by apply at_pass_well_formed.
  - intros t1 t2 w H1. vm_compute in H1. discriminate.
  - intros id1 id2 task1 task2 H1 H2 _ _.
    assert (_pending_tasks one_ready = {[ "T1" ]}) as Heq by (vm_compute; reflexivity).
    rewrite Heq in H1, H2. set_solver.
Defined.
End Free_workers.

(** * Submissions, state names and shutdown *)

Section Submission.
Import Local Local.Server ServerSpec PassSpec.

Lemma handle_submit_task_spec enum s conn id name wd spec deps out err :
  iteration_order enum → well_formed s →
  ∃ s' sent,
    handle_submit_task enum s conn id name wd spec deps out err = (s', sent, None) ∧
    well_formed s' ∧ _conns s' = _conns s ∧
    _tasks s' = <[id := mkTask id name wd spec (list_to_set deps) out err]> (_tasks s) ∧
    ((∃ d, d ∈ deps ∧ d ≠ id ∧ _task_states s !! d = Some FAILED) →
     _task_states s' !! id = Some FAILED ∧ (id ∉ _pending_tasks s') ∧
     ¬ dispatched_id sent id) ∧
    (¬ (∃ d, d ∈ deps ∧ d ≠ id ∧ _task_states s !! d = Some FAILED) →
     _task_states s' !! id = Some SUBMITTED).
Proof.
  intros Henum Hwf. unfold handle_submit_task.
  set (task := mkTask id name wd spec (list_to_set deps) out err).
  set (s3 := set_pending_tasks _ _).
  assert (well_formed s3) as Hwf3.
  { destruct Hwf as [Hdom Hid]. split; simpl.
    - intros id' [->%elem_of_singleton|Hin]%elem_of_union.
      + by rewrite lookup_insert_eq.
      + destruct (decide (id' = id)) as [->|Hne].
        * by rewrite lookup_insert_eq.
        * rewrite lookup_insert_ne by done. by apply Hdom.
    - intros id' task'. destruct (decide (id' = id)) as [->|Hne].
      + rewrite lookup_insert_eq. by intros [= <-].
      + rewrite lookup_insert_ne by done. apply Hid. }
  destruct (schedule_once_spec enum s3 Henum Hwf3)
    as (s' & sent & Hpass & Ht & _ & Hc & _ & Hp & Hts & _).
  exists s', sent. split_and!; [done|by eapply pass_well_formed|done|done| |].
  - intros (d & Hd & Hne & Hf).
    apply (schedule_once_failed_dependency enum s3 id task d) in Henum
      as (s'' & sent'' & Hpass' & Hres); try done.
    + rewrite Hpass in Hpass'. by injection Hpass' as <- <-.
    + simpl. set_solver.
    + simpl. by rewrite lookup_insert_eq.
    + simpl. set_solver.
    + simpl. by rewrite lookup_insert_ne.
  - intros Hnone. rewrite Hts.
    destruct (has_failed_dependency s3 id) eqn:Hfd.
    + exfalso. apply Hnone. unfold has_failed_dependency in Hfd.
      destruct (classify s3 id) as [[| |?]|] eqn:Hcl; try done.
      apply classify_failed in Hcl as (task' & d & Htask & Hd & Hf).
      simpl in Htask, Hf. rewrite lookup_insert_eq in Htask.
      injection Htask as <-. simpl in Hd.
      destruct (decide (d = id)) as [->|Hne].
      * by rewrite lookup_insert_eq in Hf.
      * rewrite lookup_insert_ne in Hf by done. exists d. set_solver.
    + rewrite andb_false_r. simpl. by rewrite lookup_insert_eq.
Qed.

(** X6.  On a server whose tables fit together, [submit_task] from an
    accepted connection never raises.  The task is stored under its
    identifier; it is [FAILED] at once, without being dispatched, when
    another task it depends on is recorded as [FAILED], and [SUBMITTED]
    otherwise. *)
Theorem submission_is_recorded enum s conn id name wd spec deps out err :
  iteration_order enum → well_formed s → conn ∈ _conns s →
  ∃ s' sent,
    on_event enum s (readable conn (Message.submit_task id name wd spec deps out err))
      = (s', sent, None) ∧
    well_formed s' ∧
    _tasks s' = <[id := mkTask id name wd spec (list_to_set deps) out err]> (_tasks s) ∧
    ((∃ d, d ∈ deps ∧ d ≠ id ∧ _task_states s !! d = Some FAILED) →
     _task_states s' !! id = Some FAILED ∧ (id ∉ _pending_tasks s') ∧
     ¬ dispatched_id sent id) ∧
    (¬ (∃ d, d ∈ deps ∧ d ≠ id ∧ _task_states s !! d = Some FAILED) →
     _task_states s' !! id = Some SUBMITTED).
Proof.
  intros Henum Hwf Hconn. simpl. unfold _read. rewrite decide_True by done.
  destruct (handle_submit_task_spec enum s conn id name wd spec deps out err Henum Hwf)
    as (s' & sent & Hsubmit & Hwf' & _ & Hrest).
  by exists s', sent.
Qed.

Lemma submission_is_recorded_witness :
  ∃ s' sent,
    on_event elements (after a_running) (submit "D" ["A"]) = (s', sent, None) ∧
    well_formed s' ∧
    _tasks s' = <["D" := mkTask "D" "D" "/work" "true" (list_to_set ["A"])
                          "D.stdout" "D.stderr"]> (_tasks (after a_running)) ∧
    ((∃ d, d ∈ ["A"] ∧ d ≠ "D" ∧ _task_states (after a_running) !! d = Some FAILED) →
     _task_states s' !! "D" = Some FAILED ∧ ("D" ∉ _pending_tasks s') ∧
     ¬ dispatched_id sent "D") ∧
    (¬ (∃ d, d ∈ ["A"] ∧ d ≠ "D" ∧ _task_states (after a_running) !! d = Some FAILED) →
     _task_states s' !! "D" = Some SUBMITTED).
Proof.
  apply (submission_is_recorded elements (after a_running) 1 "D" "D" "/work" "true"
           ["A"] "D.stdout" "D.stderr").
  - apply iteration_order_elements.
  - by apply after_well_formed.
  - vm_compute. set_solver.
Defined.

(** X7.  [LocalStatus[name]] inverts [.name]; an [update_task_state]
    whose state is no member name raises [KeyError] with that name
    before anything is recorded or sent. *)
Theorem state_names_round_trip :
  (∀ st, status_of_name (status_name st) = Returned st) ∧
  (∀ name st, status_of_name name = Returned st → name = status_name st) ∧
  (∀ enum s conn id name,
     (∀ st, name ≠ status_name st) →
     handle_update_task_state enum s conn id name = (s, [], Some (KeyError name))).
Proof.
  split_and!.
  - by intros [].
  - intros name st. unfold status_of_name.
    repeat case_decide; intros [= <-]; by subst.
  - intros enum s conn id name Hname. unfold handle_update_task_state.
    assert (status_of_name name = Raised (KeyError name)) as ->; [|done].
    unfold status_of_name. repeat case_decide; try done; subst.
    + by destruct (Hname UNKNOWN).
    + by destruct (Hname SUBMITTED).
    + by destruct (Hname RUNNING).
    + by destruct (Hname FAILED).
    + by destruct (Hname COMPLETED).
Qed.

Lemma state_names_round_trip_witness :
  "RUNNING" = status_name RUNNING ∧
  handle_update_task_state elements init 1 "A" "DONE" = (init, [], Some (KeyError "DONE")).
Proof.
  destruct state_names_round_trip as (_ & Hname & Hraise). split.
  - apply Hname. reflexivity.
  - apply Hraise. by intros [].
Defined.
End Submission.

Section Shutdown.
Import Local Local.Server ServerSpec PassSpec.

Lemma dict_del_perm {V} k (d : list (string * V)) ks :
  d.*1 ≡ₚ k :: ks → ∃ d', dict_del k d = Some d' ∧ d'.*1 ≡ₚ ks.
Proof.
  revert ks. induction d as [|[k' v] d IH]; intros ks Hperm.
  - by apply Permutation_nil_cons in Hperm.
  - simpl. case_decide as Hk.
    + subst k'. exists d. split; [done|]. by apply (inj (cons k)).
    + assert (k ∈ d.*1) as Hin.
      { assert (k ∈ k' :: d.*1) as Hin by (rewrite fmap_cons in Hperm; rewrite Hperm; left).
        by apply elem_of_cons in Hin as [?|?]. }
      apply elem_of_Permutation in Hin as [ks0 Hks0].
      destruct (IH ks0 Hks0) as (d' & -> & Hd').
      exists ((k', v) :: d'). split; [done|].
      rewrite fmap_cons. simpl. rewrite Hd'.
      apply (inj (cons k)). rewrite <- Hperm, fmap_cons. simpl.
      rewrite Hks0. apply Permutation_swap.
Qed.

Lemma leaves_served enum s ws rest :
  _shutdown_requested s = true →
  (_joined_workers s).*1 ≡ₚ ws.*2 →
  Forall (λ cw, cw.1 ∈ _conns s) ws →
  start enum s (leaves ws ++ rest) =
    (set_joined_workers s [], (λ ev, (ev, [])) <$> leaves ws, None).
Proof.
  revert s. induction ws as [|[c w] ws IH]; intros s Hflag Hperm Hconns.
  - apply Permutation_nil_r, fmap_nil_inv in Hperm.
    assert (serving s = false) as Hserving.
    { unfold serving. rewrite Hflag, Hperm. done. }
    assert (set_joined_workers s [] = s) as ->.
    { destruct s. simpl in Hperm. by subst. }
    simpl. destruct rest; [done|]. simpl. by rewrite Hserving.
  - apply Forall_cons in Hconns as [Hc Hconns]. simpl in Hc.
    rewrite fmap_cons in Hperm. simpl in Hperm.
    destruct (dict_del_perm w (_joined_workers s) (ws.*2) Hperm) as (d' & Hdel & Hd').
    assert (serving s = true) as Hserving.
    { unfold serving. rewrite Hflag. simpl.
      destruct (_joined_workers s); [by apply Permutation_nil_cons in Hperm|done]. }
    simpl. rewrite Hserving. unfold _read. rewrite decide_True by done.
    simpl. unfold handle_leave_worker. rewrite Hdel.
    rewrite (IH (set_joined_workers s d')); [done|done|done|done].
Qed.

(** X8.  Once [shutdown] is called the event loop tells every joined
    worker to shut down, on its connection, and serves their
    [leave_worker] messages; when the last has left the condition of
    the loop fails. *)
Theorem loop_ends_when_workers_have_left enum s ws :
  _shutdown_requested s = false →
  (_joined_workers s).*1 ≡ₚ ws.*2 →
  Forall (λ cw, cw.1 ∈ _conns s) ws →
  start enum s (stop :: leaves ws) =
    (set_joined_workers (set_shutdown_requested s true) [],
     (stop, (λ kv, (JoinedWorker.conn kv.2, Message.shutdown)) <$> _joined_workers s)
       :: ((λ ev, (ev, [])) <$> leaves ws),
     None) ∧
  serving (set_joined_workers (set_shutdown_requested s true) []) = false.
Proof.
  intros Hflag Hperm Hconns. split; [|done].
  assert (serving s = true) as Hserving by (unfold serving; by rewrite Hflag).
  change (start enum s (stop :: leaves ws))
    with (if serving s then
            match on_event enum s stop with
            | (s1, out, Some e) => (s1, [(stop, out)], Some e)
            | (s1, out, None) =>
                let '(s2, log, r) := start enum s1 (leaves ws) in
                (s2, (stop, out) :: log, r)
            end
          else (s, [], None)).
  rewrite Hserving. simpl on_event. unfold shutdown. cbv iota beta.
  rewrite <- (app_nil_r (leaves ws)) at 1. rewrite leaves_served; done.
Qed.

Lemma loop_ends_when_workers_have_left_witness :
  start elements (after busy_worker) (stop :: leaves [(2, "Worker0")]) =
    (set_joined_workers (set_shutdown_requested (after busy_worker) true) [],
     (stop, (λ kv, (JoinedWorker.conn kv.2, Message.shutdown))
              <$> _joined_workers (after busy_worker))
       :: ((λ ev, (ev, [])) <$> leaves [(2, "Worker0")]),
     None) ∧
  serving (set_joined_workers (set_shutdown_requested (after busy_worker) true) [])
    = false.
Proof.
  apply loop_ends_when_workers_have_left.
  - vm_compute. reflexivity.
  - vm_compute. reflexivity.
  - constructor; [|constructor]. vm_compute. set_solver.
Defined.
End Shutdown.

(** * The client and the server *)

Section Client_server.
Import Local Local.Server ServerSpec PassSpec.

Lemma status_of_name_name st : status_of_name (status_name st) = Returned st.
Proof. by destruct st. Qed.

Lemma status_name_inj st1 st2 : status_name st1 = status_name st2 → st1 = st2.
Proof. by destruct st1, st2. Qed.

Lemma status_of_name_returned name st :
  status_of_name name = Returned st → name = status_name st.
Proof.
  unfold status_of_name. repeat case_decide; intros [= <-]; by subst.
Qed.

Lemma decode_states_names (l : list (string * string)) acc :
  NoDup l.*1 →
  (∀ k v, (k, v) ∈ l → ∃ st, v = status_name st) →
  ∃ m, Client.decode_states l acc = Returned m ∧
       ∀ k st, m !! k = Some st ↔
               (k, status_name st) ∈ l ∨ ((k ∉ l.*1) ∧ acc !! k = Some st).
Proof.
  revert acc. induction l as [|[k0 v0] l IH]; intros acc Hnd Hnames.
  - exists acc. split; [done|]. intros k st. set_solver.
  - rewrite fmap_cons in Hnd. apply NoDup_cons in Hnd as [Hk0 Hnd]. simpl in Hk0.
    destruct (Hnames k0 v0) as [st0 ->]; [left|].
    simpl. rewrite status_of_name_name.
    destruct (IH (<[k0 := st0]> acc)) as (m & -> & Hm); [done| |].
    { intros k v Hin. apply (Hnames k v). by right. }
    exists m. split; [done|]. intros k st. rewrite Hm.
    rewrite elem_of_cons, not_elem_of_cons.
    destruct (decide (k = k0)) as [->|Hne].
    + rewrite lookup_insert_eq. split.
      * intros [Hin|[_ [= ->]]]; [|by left; left].
        destruct Hk0. apply list_elem_of_fmap. by exists (k0, status_name st).
      * intros [[[= ->%status_name_inj]|Hin]|[[? _] _]]; [|by left|done].
        right. done.
    + rewrite lookup_insert_ne by done. split.
      * intros [Hin|[? ?]]; [left; by right|by right].
      * intros [[[= ? _]|Hin]|[[_ ?] ?]]; [done|by left|by right].
Qed.

Lemma failed_dependency_dec s id (deps : list string) :
  (∃ d, d ∈ deps ∧ d ≠ id ∧ _task_states s !! d = Some FAILED) ∨
  ¬ (∃ d, d ∈ deps ∧ d ≠ id ∧ _task_states s !! d = Some FAILED).
Proof.
  induction deps as [|d deps [IH|IH]].
  - right. intros (d & Hin & _). by apply elem_of_nil in Hin.
  - left. destruct IH as (d' & ? & ?). exists d'. split; [by right|done].
  - destruct (decide (d ≠ id ∧ _task_states s !! d = Some FAILED)) as [[? ?]|Hno].
    + left. exists d. split_and!; [left|done|done].
    + right. intros (d' & [->|Hin]%elem_of_cons & Hne & Hf).
      * by apply Hno.
      * apply IH. by exists d'.
Qed.

Lemma decode_states_bad (l : list (string * string)) acc k v :
  (k, v) ∈ l → (∀ st, v ≠ status_name st) →
  ∃ k' v', (k', v') ∈ l ∧ (∀ st, v' ≠ status_name st) ∧
           Client.decode_states l acc = Raised (KeyError v').
Proof.
  revert acc. induction l as [|[k0 v0] l IH]; intros acc Hin Hbad.
  - by apply elem_of_nil in Hin.
  - simpl. destruct (status_of_name v0) as [st0|e] eqn:Hst0.
    + apply elem_of_cons in Hin as [[= -> ->]|Hin].
      * apply status_of_name_returned in Hst0. by destruct (Hbad st0).
      * destruct (IH (<[k0 := st0]> acc) Hin Hbad) as (k' & v' & Hin' & Hbad' & ->).
        exists k', v'. split_and!; [by right|done|done].
    + exists k0, v0. split_and!; [left| |].
      * intros st ->. by rewrite status_of_name_name in Hst0.
      * unfold status_of_name in Hst0. repeat case_decide; by simplify_eq.
Qed.

(** X9.  What [Client.status] makes of the reply of
    [handle_get_task_states] is the very state table of the server, which
    the request leaves unchanged.  A reply with a state that is no member
    name raises [KeyError]; a reply of another type fails the
    assertion. *)
Theorem status_reads_the_state_table :
  (∀ enum s c,
     Client.conn c ∈ _conns s →
     ∃ reply,
       on_event enum s (readable (Client.conn c) Message.get_task_states)
         = (s, [(Client.conn c, reply)], None) ∧
       Client.status c reply
         = ((Client.conn c, Message.get_task_states), Returned (_task_states s))) ∧
  (∀ c tasks k v,
     tasks !! k = Some v → (∀ st, v ≠ status_name st) →
     ∃ k' v', tasks !! k' = Some v' ∧ (∀ st, v' ≠ status_name st) ∧
       (Client.status c (Message.task_states tasks)).2 = Raised (KeyError v')) ∧
  (∀ c reply,
     (∀ tasks, reply ≠ Message.task_states tasks) →
     (Client.status c reply).2 = Raised (Exception "invalid response received")).
Proof.
  split_and!.
  - intros enum s c Hconn. exists (Message.task_states (status_name <$> _task_states s)).
    split.
    + simpl. unfold _read. by rewrite decide_True.
    + unfold Client.status. f_equal.
      destruct (decode_states_names (map_to_list (status_name <$> _task_states s)) ∅)
        as (m & -> & Hm).
      * apply NoDup_fst_map_to_list.
      * intros k v Hin. apply elem_of_map_to_list in Hin.
        rewrite lookup_fmap in Hin.
        destruct (_task_states s !! k) as [st|]; [|done]. exists st.
        by injection Hin as <-.
      * f_equal. apply map_eq. intros k. apply option_eq. intros st.
        rewrite Hm, elem_of_map_to_list, lookup_fmap, lookup_empty.
        destruct (_task_states s !! k) as [st'|]; simpl.
        -- split; [intros [[= ->%status_name_inj]|[_ ?]]|intros [= ->]];
             [done|done|by left].
        -- split; [intros [?|[_ ?]]|]; done.
  - intros c tasks k v Hk Hbad.
    destruct (decode_states_bad (map_to_list tasks) ∅ k v)
      as (k' & v' & Hin & Hbad' & Hraise); [by apply elem_of_map_to_list|done|].
    exists k', v'. split_and!; [by apply elem_of_map_to_list|done|done].
  - intros c reply Hreply. destruct reply; try done. by destruct (Hreply tasks).
Qed.

Lemma status_reads_the_state_table_witness :
  (∃ reply,
     on_event elements (after a_running) (readable 1 Message.get_task_states)
       = (after a_running, [(1, reply)], None) ∧
     Client.status (Client.mk 1) reply
       = ((1, Message.get_task_states), Returned (_task_states (after a_running)))) ∧
  (∃ k' v', ({[ "A" := "DONE" ]} : gmap string string) !! k' = Some v' ∧
     (∀ st, v' ≠ status_name st) ∧
     (Client.status (Client.mk 1) (Message.task_states {[ "A" := "DONE" ]})).2
       = Raised (KeyError v')) ∧
  (Client.status (Client.mk 1) Message.close).2
     = Raised (Exception "invalid response received").
Proof.
  destruct status_reads_the_state_table as (Hread & Hname & Hreply).
  split; [|split].
  - apply (Hread elements (after a_running) (Client.mk 1)). vm_compute. set_solver.
  - apply (Hname (Client.mk 1) {[ "A" := "DONE" ]} "A" "DONE").
    + reflexivity.
    + by intros [].
  - apply Hreply. discriminate.
Defined.

Lemma pass_state_keeps_ids s ev s1 id :
  pass_state s ev = Some s1 →
  is_Some (_task_states s !! id) → is_Some (_task_states s1 !! id).
Proof.
  destruct ev as [client|client m|]; simpl; [done| |done].
  case_decide; [|done].
  destruct m as [w|w|tid nm wd sp deps so se|tid new_state| |tbl|tk| |]; simpl; try done.
  - by intros [= <-].
  - intros [= <-]. simpl. intros Hid.
    destruct (decide (id = tid)) as [->|Hne].
    + by rewrite lookup_insert_eq.
    + by rewrite lookup_insert_ne.
  - destruct (status_of_name new_state) as [st|]; [|done]. simpl.
    assert (is_Some (_task_states s !! id) →
            is_Some (<[tid := st]> (_task_states s) !! id)) as Hins.
    { intros Hid. destruct (decide (id = tid)) as [->|Hne].
      - by rewrite lookup_insert_eq.
      - by rewrite lookup_insert_ne. }
    destruct (is_terminal st).
    + destruct (_used_workers s !! tid); [|done]. by intros [= <-].
    + by intros [= <-].
Qed.

Lemma step_keeps_ids s ev s' out id :
  step s ev (s', out, None) → well_formed s →
  is_Some (_task_states s !! id) → is_Some (_task_states s' !! id).
Proof.
  intros (Hserving & enum & Henum & Hev) Hwf Hid.
  destruct (pass_state s ev) as [s1|] eqn:Hpass.
  - rewrite (on_event_pass _ _ _ _ Hpass) in Hev.
    destruct (pass_state_fields _ _ _ Hpass) as (_ & _ & Hwf1).
    destruct (schedule_once_spec enum s1 Henum (Hwf1 Hwf))
      as (s'' & out'' & Hpass' & _ & _ & _ & _ & _ & Hts & _).
    rewrite Hev in Hpass'. injection Hpass' as <- <-.
    rewrite Hts. destruct (_ && _); [done|].
    by apply (pass_state_keeps_ids _ _ _ _ Hpass).
  - destruct (on_event_no_pass _ _ _ _ _ _ Hpass Hev) as [_ Hsame].
    destruct (Hsame eq_refl) as (_ & -> & _). done.
Qed.

Lemma run_keeps_ids s log s' id :
  run s log s' → well_formed s →
  is_Some (_task_states s !! id) → is_Some (_task_states s' !! id).
Proof.
  induction 1 as [|s ev s1 out log s2 Hstep _ IH]; [done|].
  intros Hwf Hid. apply IH.
  - by apply (step_fields _ _ _ _ _ Hstep).
  - by apply (step_keeps_ids _ _ _ _ _ Hstep).
Qed.

(** X10.  The identifier [Client.submit] returns is a key of every
    later [Client.status] made while the connection of the client is
    open, whatever the server has served in between; when nothing was
    served in between, its state is [SUBMITTED] or [FAILED].  Neither
    request raises on a server whose tables fit together. *)
Theorem submitted_task_shows_in_status enum s c task_id name spec wd out err deps :
  iteration_order enum → well_formed s → Client.conn c ∈ _conns s →
  ∃ s1 sent,
    (Client.submit c task_id name spec wd out err deps).2 = task_id ∧
    on_event enum s
      (readable (Client.submit c task_id name spec wd out err deps).1.1
                (Client.submit c task_id name spec wd out err deps).1.2)
      = (s1, sent, None) ∧
    ∀ log s2 enum2,
      run s1 log s2 → Client.conn c ∈ _conns s2 →
      ∃ reply states,
        on_event enum2 s2 (readable (Client.conn c) Message.get_task_states)
          = (s2, [(Client.conn c, reply)], None) ∧
        (Client.status c reply).2 = Returned states ∧
        is_Some (states !! task_id) ∧
        (log = [] →
         states !! task_id = Some SUBMITTED ∨ states !! task_id = Some FAILED).
Proof.
  intros Henum Hwf Hconn.
  destruct (handle_submit_task_spec enum s (Client.conn c) task_id name wd spec
              (default [] deps) out err Henum Hwf)
    as (s1 & sent & Hsubmit & Hwf1 & Hc & Ht & Hfailed & Hsubmitted).
  exists s1, sent. split_and!; [done| |].
  { simpl. unfold _read. by rewrite decide_True. }
  assert (_task_states s1 !! task_id = Some SUBMITTED ∨
          _task_states s1 !! task_id = Some FAILED) as Hnow.
  { destruct (failed_dependency_dec s task_id (default [] deps)) as [Hf|Hf].
    - right. by destruct (Hfailed Hf) as [-> _].
    - left. by rewrite (Hsubmitted Hf). }
  intros log s2 enum2 Hrun Hconn2.
  destruct (decode_states_names (map_to_list (status_name <$> _task_states s2)) ∅)
    as (states & Hdecode & Hstates).
  { apply NoDup_fst_map_to_list. }
  { intros k v Hin. apply elem_of_map_to_list in Hin.
    rewrite lookup_fmap in Hin.
    destruct (_task_states s2 !! k) as [st|]; [|done]. exists st.
    by injection Hin as <-. }
  assert (∀ st, states !! task_id = Some st ↔ _task_states s2 !! task_id = Some st)
    as Hsame.
  { intros st. rewrite Hstates, elem_of_map_to_list, lookup_fmap, lookup_empty.
    destruct (_task_states s2 !! task_id) as [st'|]; simpl.
    - split; [intros [[= ->%status_name_inj]|[_ ?]]|intros [= ->]];
        [done|done|by left].
    - split; [intros [?|[_ ?]]|]; done. }
  exists (Message.task_states (status_name <$> _task_states s2)), states.
  split_and!; [|done| |].
  - simpl. unfold _read. by rewrite decide_True.
  - assert (is_Some (_task_states s2 !! task_id)) as [st Hst].
    { apply (run_keeps_ids _ _ _ _ Hrun Hwf1). by destruct Hnow as [->| ->]. }
    exists st. by apply Hsame.
  - intros ->. inversion Hrun; subst. destruct Hnow as [Hst|Hst]; [left|right];
      by apply Hsame.
Qed.

Lemma submitted_task_shows_in_status_witness :
  ∃ s1 sent s2 out reply states,
    on_event elements (after [accept 1; accept 2; join "Worker0"]) (submit "T1" [])
      = (s1, sent, None) ∧
    run s1 [(report "T1" RUNNING, out)] s2 ∧
    on_event elements s2 (readable 1 Message.get_task_states)
      = (s2, [(1, reply)], None) ∧
    (Client.status (Client.mk 1) reply).2 = Returned states ∧
    is_Some (states !! "T1").
Proof.
  destruct (submitted_task_shows_in_status elements
              (after [accept 1; accept 2; join "Worker0"]) (Client.mk 1)
              "T1" "T1" "true" "/work" "T1.stdout" "T1.stderr" None)
    as (s1 & sent & _ & Hev & Hlater).
  { apply iteration_order_elements. }
  { by apply after_well_formed. }
  { vm_compute. set_solver. }
  assert (s1 = (on_event elements (after [accept 1; accept 2; join "Worker0"])
                  (submit "T1" [])).1.1) as Hs1.
  { change (submit "T1" [])
      with (readable
              (Client.submit (Client.mk 1) "T1" "T1" "true" "/work" "T1.stdout"
                 "T1.stderr" None).1.1
              (Client.submit (Client.mk 1) "T1" "T1" "true" "/work" "T1.stdout"
                 "T1.stderr" None).1.2).
    by rewrite Hev. }
  assert (run s1 [(report "T1" RUNNING, (on_event elements s1 (report "T1" RUNNING)).1.2)]
            (on_event elements s1 (report "T1" RUNNING)).1.1) as Hrun.
  { eapply run_cons; [|apply run_nil].
    assert ((on_event elements s1 (report "T1" RUNNING)).2 = None) as Hnone.
    { rewrite Hs1. vm_compute. reflexivity. }
    rewrite <- Hnone, <- result_eta. apply step_elements.
    rewrite Hs1. vm_compute. reflexivity. }
  destruct (Hlater _ _ elements Hrun) as (reply & states & Hreply & Hstatus & Hkey & _).
  { rewrite Hs1. vm_compute. set_solver. }
  exists s1, sent, (on_event elements s1 (report "T1" RUNNING)).1.1,
    (on_event elements s1 (report "T1" RUNNING)).1.2, reply, states.
  split; [exact Hev|]. split; [exact Hrun|]. split; [exact Hreply|].
  split; [exact Hstatus|exact Hkey].
Defined.
End Client_server.

(** * The worker and the server *)

Section Worker_exits.
Import Local Local.Worker WorkerSpec.

Lemma start_after_assignments w pre rest :
  _shutdown_requested w = false → Forall assignment pre →
  start w (pre ++ rest) =
    let '(w2, out2, r) := start w rest in (w2, reports_of w pre ++ out2, r).
Proof.
  intros Hflag Hall. induction Hall as [|[m env] pre [task Hm] _ IH].
  - simpl. by destruct (start w rest) as [[? ?] ?].
  - simpl in Hm. subst m. simpl. rewrite Hflag, IH.
    destruct (start w rest) as [[w2 out2] r]. unfold handle_run_task.
    by rewrite app_assoc.
Qed.

(** X11.  A worker that receives [shutdown] after some assignments has
    reported on each of them, then sends [leave_worker] with its
    identifier and closes the connection; what arrives later is never
    read. *)
Theorem worker_leaves_on_shutdown w pre env post :
  _shutdown_requested w = false → Forall assignment pre →
  start w (pre ++ (Message.shutdown, env) :: post) =
    (handle_shutdown w,
     reports_of w pre
       ++ [(conn w, Message.leave_worker (worker_id w)); (conn w, Message.close)],
     left_cluster).
Proof.
  intros Hflag Hall. rewrite start_after_assignments by done.
  simpl. rewrite Hflag. by destruct post.
Qed.

Lemma worker_leaves_on_shutdown_witness :
  start worker0
    (three_assignments ++ (Message.shutdown, setup_raises (Exception "unused"))
       :: [(Message.run_task (job "T4"), started 1 (exited 0))]) =
    (handle_shutdown worker0,
     reports_of worker0 three_assignments
       ++ [(2, Message.leave_worker "Worker0"); (2, Message.close)],
     left_cluster).
Proof.
  apply (worker_leaves_on_shutdown worker0 three_assignments).
  - reflexivity.
  - repeat constructor; by eexists.
Defined.

(** X12.  A message that is neither [run_task] nor [shutdown] ends the
    worker with [AttributeError]: it has reported on the assignments
    before it and sends no [leave_worker]. *)
Theorem worker_crashes_on_other_messages w pre m env post :
  _shutdown_requested w = false → Forall assignment pre →
  (∀ task, m ≠ Message.run_task task) → m ≠ Message.shutdown →
  start w (pre ++ (m, env) :: post) =
    (w, reports_of w pre, crashed (AttributeError ("handle_" +:+ Message.type m))).
Proof.
  intros Hflag Hall Hrun Hshutdown. rewrite start_after_assignments by done.
  destruct m as [?|?|? ? ? ? ? ? ?|? ?| |?|task| |]; try done;
    try (by destruct (Hrun task)); simpl; by rewrite Hflag, app_nil_r.
Qed.

Lemma worker_crashes_on_other_messages_witness :
  start worker0
    (three_assignments ++ (Message.get_task_states, setup_raises (Exception "unused"))
       :: [(Message.shutdown, setup_raises (Exception "unused"))]) =
    (worker0, reports_of worker0 three_assignments,
     crashed (AttributeError ("handle_" +:+ Message.type Message.get_task_states))).
Proof.
  apply (worker_crashes_on_other_messages worker0 three_assignments).
  - reflexivity.
  - repeat constructor; by eexists.
  - discriminate.
  - discriminate.
Defined.
End Worker_exits.

Section Reports_served.
Import Local Local.Server ServerSpec PassSpec.

Lemma start_cons_returned enum s ev rest s1 out :
  serving s = true → on_event enum s ev = (s1, out, None) →
  start enum s (ev :: rest) =
    let '(s2, log, r) := start enum s1 rest in (s2, (ev, out) :: log, r).
Proof. intros Hserving Hev. simpl. by rewrite Hserving, Hev. Qed.

Lemma pass_of_other_tasks enum s id :
  iteration_order enum → well_formed s → id ∉ _pending_tasks s →
  ∃ s' out,
    _schedule_once enum s = (s', out, None) ∧ well_formed s' ∧
    _conns s' = _conns s ∧ _shutdown_requested s' = _shutdown_requested s ∧
    (id ∉ _pending_tasks s') ∧
    _task_states s' !! id = (_task_states s !! id) ∧
    _used_workers s' !! id = (_used_workers s !! id).
Proof.
  intros Henum Hwf Hnp.
  destruct (schedule_once_spec enum s Henum Hwf)
    as (s' & out & Hpass & _ & _ & Hc & Hflag & Hp & Hts & Hused).
  exists s', out. split_and!; [done|by eapply pass_well_formed|done|done| | |].
  - rewrite Hp. tauto.
  - rewrite Hts. by rewrite bool_decide_eq_false_2.
  - rewrite Hused. destruct (first_free _ _) as [[? ?]|]; [|done].
    destruct (classify s id) as [[| |?]|]; try done. by rewrite decide_False.
Qed.

(** X13.  When the server serves the two reports of a worker about a
    task assigned to it, both handlers return; afterwards the task has
    the terminal state the worker reported and is out of the assignment
    table. *)
Theorem reports_free_the_worker enum s w task env worker_id :
  iteration_order enum → well_formed s → _shutdown_requested s = false →
  Worker.conn w ∈ _conns s →
  _used_workers s !! task_id task = Some worker_id →
  task_id task ∉ _pending_tasks s →
  ∃ s' log,
    start enum s ((λ p, readable p.1 p.2) <$> Worker.run_task w task env)
      = (s', log, None) ∧
    _task_states s' !! task_id task = Some (terminal_state w task env) ∧
    _used_workers s' !! task_id task = None.
Proof.
  intros Henum Hwf Hflag Hconn Hused Hnp.
  assert (Worker.run_task w task env =
            [Worker._update_state w (task_id task) RUNNING;
             Worker._update_state w (task_id task) (terminal_state w task env)]) as ->.
  { unfold Worker.run_task, terminal_state. by destruct (Worker.try_body w task env). }
  assert (is_terminal (terminal_state w task env) = true) as Hterm.
  { unfold terminal_state. by destruct (Worker.try_body w task env). }
  set (st := terminal_state w task env) in *. clearbody st.
  set (id := task_id task) in *. clearbody id.
  (* the first report *)
  set (s1 := set_task_states s (<[id := RUNNING]> (_task_states s))).
  destruct (pass_of_other_tasks enum s1 id Henum)
    as (s2 & out2 & Hpass2 & Hwf2 & Hc2 & Hflag2 & Hnp2 & _ & Hused2); [by destruct Hwf|done|].
  unfold s1 in Hc2, Hflag2, Hused2. simpl in Hc2, Hflag2, Hused2.
  (* the second report *)
  set (s3 := set_used_workers
               (set_task_states s2 (<[id := st]> (_task_states s2)))
               (delete id (_used_workers s2))).
  destruct (pass_of_other_tasks enum s3 id Henum)
    as (s4 & out4 & Hpass4 & _ & _ & _ & _ & Hts4 & Hused4); [by destruct Hwf2|done|].
  unfold s3 in Hts4, Hused4. simpl in Hts4, Hused4.
  exists s4, [(readable (Worker.conn w) (Message.update_task_state id "RUNNING"), out2);
              (readable (Worker.conn w)
                 (Message.update_task_state id (status_name st)), out4)].
  split_and!.
  - simpl fmap.
    rewrite (start_cons_returned enum s _ _ s2 out2).
    + rewrite (start_cons_returned enum s2 _ _ s4 out4); [done| |].
      * unfold serving. by rewrite Hflag2, Hflag.
      * simpl. unfold _read. rewrite Hc2, decide_True by done. simpl.
        unfold handle_update_task_state. rewrite status_of_name_name, Hterm.
        simpl. rewrite Hused2. simpl. rewrite Hused. done.
    + unfold serving. by rewrite Hflag.
    + simpl. unfold _read. rewrite decide_True by done. done.
  - rewrite Hts4. by rewrite lookup_insert_eq.
  - rewrite Hused4. by rewrite lookup_delete_eq.
Qed.

Lemma reports_free_the_worker_witness :
  ∃ s' log,
    start elements (after busy_worker)
      ((λ p, readable p.1 p.2)
         <$> Worker.run_task WorkerSpec.worker0 (task_of "T1" [])
               (Worker.started 3 (Worker.exited 1)))
      = (s', log, None) ∧
    _task_states s' !! "T1"
      = Some (terminal_state WorkerSpec.worker0 (task_of "T1" [])
                (Worker.started 3 (Worker.exited 1))) ∧
    _used_workers s' !! "T1" = None.
Proof.
  apply (reports_free_the_worker elements (after busy_worker) WorkerSpec.worker0
           (task_of "T1" []) (Worker.started 3 (Worker.exited 1)) "Worker0").
  - apply iteration_order_elements.
  - by apply after_well_formed.
  - vm_compute. reflexivity.
  - vm_compute. set_solver.
  - vm_compute. reflexivity.
  - vm_compute. set_solver.
Defined.
End Reports_served.

(** * More on the Slurm backend *)

Section Slurm_tables.
Import Slurm SlurmSpec BackendSpec.

Lemma job_state_codes_values state simple :
  JOB_STATE_CODES !! state = Some simple → simple ∈ ["R"; "Q"; "?"].
Proof.
  intros Hcode. apply elem_of_list_to_map_2 in Hcode.
  repeat (apply elem_of_cons in Hcode as [[= _ <-]|Hcode]; [set_solver|]).
  by apply elem_of_nil in Hcode.
Qed.

End Slurm_tables.

Section Slurm_configure_errors.
Import Slurm SlurmSpec BackendSpec.
Variable json_load : string → outcome (gmap string string).

(** X15.  [configure] raises [BackendError] naming the first of squeue,
    sbatch and scancel that is not found (an empty path counts as not
    found), before the job database or the listing is read.  When it
    returns, the three paths are those found. *)
Theorem configure_needs_the_three_tools which fs lines :
  (which "squeue" = None ∨ which "squeue" = Some "" →
   configure json_load which fs lines = Raised (not_found "squeue")) ∧
  (∀ c exe, which "squeue" = Some (String c exe) →
   which "sbatch" = None ∨ which "sbatch" = Some "" →
   configure json_load which fs lines = Raised (not_found "sbatch")) ∧
  (∀ c exe c' exe', which "squeue" = Some (String c exe) →
   which "sbatch" = Some (String c' exe') →
   which "scancel" = None ∨ which "scancel" = Some "" →
   configure json_load which fs lines = Raised (not_found "scancel")) ∧
  (∀ b, configure json_load which fs lines = Returned b →
   which "squeue" = Some (squeue b) ∧ which "sbatch" = Some (sbatch b) ∧
   which "scancel" = Some (scancel b)).
Proof.
  unfold configure. split_and!.
  - intros Hq. by rewrite (find_exe_missing _ _ Hq).
  - intros c exe Hq Hb.
    by rewrite (find_exe_found _ _ _ _ Hq), (find_exe_missing _ _ Hb).
  - intros c exe c' exe' Hq Hb Hc.
    by rewrite (find_exe_found _ _ _ _ Hq), (find_exe_found _ _ _ _ Hb),
      (find_exe_missing _ _ Hc).
  - intros b. unfold _find_exe.
    destruct (which "squeue") as [[|? ?]|]; try done.
    destruct (which "sbatch") as [[|? ?]|]; try done.
    destruct (which "scancel") as [[|? ?]|]; try done. simpl.
    destruct (_read_job_db json_load fs job_db_path) as [db|]; [|done]. simpl.
    destruct (_live_job_states lines); [|done]. simpl. by intros [= <-].
Qed.
End Slurm_configure_errors.

Section Slurm_configure_witness.
Import Slurm SlurmSpec BackendSpec.

Lemma configure_needs_the_three_tools_witness :
  configure Json.loads only_squeue disk squeue_prints = Raised (not_found "sbatch") ∧
  ∃ b, configure Json.loads which disk [] = Returned b ∧
       which "squeue" = Some (squeue b) ∧ which "sbatch" = Some (sbatch b) ∧
       which "scancel" = Some (scancel b).
Proof.
  split.
  - destruct (configure_needs_the_three_tools Json.loads only_squeue disk squeue_prints)
      as (_ & Hsbatch & _).
    eapply Hsbatch; [reflexivity|by left].
  - destruct (configure_needs_the_three_tools Json.loads which disk [])
      as (_ & _ & _ & Hreturned).
    eexists. split; [vm_compute; reflexivity|].
    eapply Hreturned. vm_compute. reflexivity.
Defined.
End Slurm_configure_witness.

Section Slurm_submit.
Import Slurm SlurmSpec BackendSpec.

Lemma omap_submitted (db : gmap string string) (deps : list string) :
  omap (λ dep, db !! dep) (filter (λ dep, dep ∈ dom db) deps)
  = omap (λ dep, db !! dep) deps.
Proof.
  induction deps as [|dep deps IH]; [done|].
  rewrite filter_cons. case_decide as Hin.
  - csimpl. by rewrite IH.
  - csimpl. rewrite IH. apply not_elem_of_dom in Hin. by rewrite Hin.
Qed.

(** X16.  [submit] never records a job.  [Popen] is asked for no pipe,
    so [communicate] hands back [None] for the output and the error text
    of [sbatch], whatever it wrote: when [sbatch] fails, [submit] raises
    [BackendError] without its error text, and when it succeeds,
    [submit] raises [AttributeError] where it strips the job identifier.
    Either way the backend is as it was.  The one command run is the
    tool with [--parsable], followed by one [--dependency=afterok:]
    clause with the job identifiers of the dependencies that have one,
    in order, when there is any; dependencies without one change
    nothing. *)
Theorem submit_never_records b target deps run :
  submit b target deps run =
    (b,
     [sbatch_command b
        ((λ dep, default "" (_job_db b !! dep))
           <$> filter (λ dep, dep ∈ dom (_job_db b)) deps)],
     Some (if decide (Subprocess.returncode run = 0%Z)
           then AttributeError "strip" else BackendError "None")) ∧
  submit b target (filter (λ dep, dep ∈ dom (_job_db b)) deps) run
    = submit b target deps run.
Proof.
  assert (omap (λ dep, _job_db b !! dep) deps
          = (λ dep, default "" (_job_db b !! dep))
              <$> filter (λ dep, dep ∈ dom (_job_db b)) deps) as Hids.
  { induction deps as [|dep deps IH]; [done|].
    rewrite filter_cons. csimpl. case_decide as Hin.
    - apply elem_of_dom in Hin as [job_id Hjob]. rewrite fmap_cons. cbn beta.
      rewrite Hjob. csimpl. by rewrite IH.
    - apply not_elem_of_dom in Hin. by rewrite Hin. }
  split.
  - unfold submit, Subprocess.communicate, sbatch_command. simpl.
    rewrite Hids.
    destruct (decide (Subprocess.returncode run ≠ 0%Z)) as [Hne|Heq],
      (decide (Subprocess.returncode run = 0%Z)) as [Hz|Hnz]; try done;
      by destruct (_ <$> _).
  - unfold submit. by rewrite omap_submitted.
Qed.

Lemma submit_never_records_witness :
  submit tracking (target "merge") ["fetch"; "align"] (Subprocess.ran "4900" "" 0) =
    (tracking,
     [sbatch_command tracking
        ((λ dep, default "" (_job_db tracking !! dep))
           <$> filter (λ dep, dep ∈ dom (_job_db tracking)) ["fetch"; "align"])],
     Some (if decide (Subprocess.returncode (Subprocess.ran "4900" "" 0) = 0%Z)
           then AttributeError "strip" else BackendError "None")) ∧
  submit tracking (target "merge")
    (filter (λ dep, dep ∈ dom (_job_db tracking)) ["fetch"; "align"])
    (Subprocess.ran "4900" "" 0)
    = submit tracking (target "merge") ["fetch"; "align"] (Subprocess.ran "4900" "" 0).
Proof. apply submit_never_records. Defined.
End Slurm_submit.

Section Slurm_dump.
Import Slurm SlurmSpec BackendSpec.
Variable json_dump : gmap string string → string.

(** X17.  After [dump_atomic] the path holds the dumped text, the
    temporary file is gone whatever was there before, no file is left
    open, and every other file is as it was. *)
Theorem dump_atomic_touches_two_paths fs obj path :
  ∃ fs',
    FS.run fs (dump_atomic json_dump obj path) = Returned fs' ∧
    FS.files fs' !! path = Some (json_dump obj) ∧
    FS.files fs' !! (path +:+ ".new") = None ∧
    FS.handle fs' = None ∧
    ∀ p, p ≠ path → p ≠ path +:+ ".new" → FS.files fs' !! p = FS.files fs !! p.
Proof.
  eexists. split; [apply dump_atomic_run|]. simpl.
  pose proof (new_path_differs path) as Hnew. split_and!.
  - by rewrite lookup_insert_eq.
  - rewrite lookup_insert_ne by done. by rewrite lookup_delete_eq.
  - done.
  - intros p Hp Hp'. rewrite lookup_insert_ne by done.
    rewrite lookup_delete_ne by done. by rewrite !lookup_insert_ne.
Qed.
End Slurm_dump.

Section Slurm_dump_witness.
Import Slurm SlurmSpec BackendSpec.

Lemma dump_atomic_touches_two_paths_witness :
  ∃ fs',
    FS.run disk (dump_atomic Json.dumps persisted job_db_path) = Returned fs' ∧
    FS.files fs' !! job_db_path = Some (Json.dumps persisted) ∧
    FS.files fs' !! (job_db_path +:+ ".new") = None ∧
    FS.handle fs' = None ∧
    ∀ p, p ≠ job_db_path → p ≠ job_db_path +:+ ".new" →
         FS.files fs' !! p = FS.files disk !! p.
Proof. apply dump_atomic_touches_two_paths. Defined.
End Slurm_dump_witness.

(** * More on the older wrappers *)

Section Legacy_tables.
Import Slurm SlurmSpec BackendSpec Legacy.

Lemma state_loop_values lines acc job_id v :
  SlurmBackend.state_loop lines acc !! job_id = Some v →
  acc !! job_id = Some v ∨
  ∃ st, v = SlurmBackend.PyStr st ∧ st ∈ ["R"; "Q"; "H"; "?"] ∧
        ∃ line state depends, line ∈ lines ∧ fields line = [job_id; state; depends].
Proof.
  revert acc. induction lines as [|line lines IH]; intros acc Hv; [by left|].
  simpl in Hv. change (split _ (strip line)) with (fields line) in Hv.
  destruct (fields line) as [|job [|state [|depends [|]]]] eqn:Hf; try by left.
  change SlurmBackend.map_state with JOB_STATE_CODES in Hv.
  destruct (JOB_STATE_CODES !! state) as [simple|] eqn:Hcode; [|by left].
  apply job_state_codes_values in Hcode.
  assert (SlurmBackend.state_loop lines
            (<[job := SlurmBackend.PyStr
                        (if decide (simple = "Q" ∧ depends ≠ "") then "H" else simple)]>
               acc) !! job_id = Some v) as Hv' by (by case_decide).
  destruct (IH _ Hv') as [Hacc|(st & -> & Hst & l & s' & d & Hin & ?)].
  - destruct (decide (job_id = job)) as [->|Hne].
    + rewrite lookup_insert_eq in Hacc. injection Hacc as <-.
      right. eexists. split_and!; [done| |].
      * case_decide; set_solver.
      * exists line, state, depends. split; [left|done].
    + rewrite lookup_insert_ne in Hacc by done. by left.
  - right. exists st. split_and!; [done|done|].
    exists l, s', d. split; [by right|done].
Qed.

(** X19.  The older Slurm wrapper answers for every job asked about.
    An entry is [False] only for a job that was asked about, and a state
    is one of R, Q, H and ? and belongs to a listed job. *)
Theorem legacy_table_entries job_ids lines :
  (∀ job_id, job_id ∈ job_ids →
     is_Some (SlurmBackend.get_state_of_jobs job_ids lines !! job_id)) ∧
  (∀ job_id,
     SlurmBackend.get_state_of_jobs job_ids lines !! job_id
       = Some SlurmBackend.PyFalse →
     job_id ∈ job_ids) ∧
  (∀ job_id st,
     SlurmBackend.get_state_of_jobs job_ids lines !! job_id
       = Some (SlurmBackend.PyStr st) →
     st ∈ ["R"; "Q"; "H"; "?"] ∧
     ∃ line state depends, line ∈ lines ∧ fields line = [job_id; state; depends]).
Proof.
  unfold SlurmBackend.get_state_of_jobs. split_and!.
  - intros job_id Hin.
    rewrite <- (left_id_L ∅ (∪) (list_to_map _)).
    rewrite state_loop_union, lookup_union, requested_lookup.
    rewrite decide_True by done.
    by destruct (SlurmBackend.state_loop lines ∅ !! job_id).
  - intros job_id Hv.
    apply state_loop_values in Hv as [Hacc|(st & ? & _)]; [|done].
    rewrite requested_lookup in Hacc. by case_decide.
  - intros job_id st Hv.
    apply state_loop_values in Hv as [Hacc|(st' & [= <-] & ? & ?)]; [|done].
    rewrite requested_lookup in Hacc. by case_decide.
Qed.

Lemma legacy_table_entries_witness :
  is_Some (SlurmBackend.get_state_of_jobs ["4711"; "4712"] squeue_prints !! "4712") ∧
  "4712" ∈ ["4711"; "4712"] ∧
  ("R" ∈ ["R"; "Q"; "H"; "?"] ∧
   ∃ line state depends,
     line ∈ squeue_prints ∧ fields line = ["4711"; state; depends]).
Proof.
  destruct (legacy_table_entries ["4711"; "4712"] squeue_prints)
    as (Hreq & Hfalse & Hstr).
  split; [|split].
  - apply Hreq. set_solver.
  - apply Hfalse. vm_compute. reflexivity.
  - apply Hstr. vm_compute. reflexivity.
Defined.
End Legacy_tables.

Section Torque_tables.
Import Legacy.

Lemma state_lines_spec lines job_id result :
  TorqueBackend.state_lines lines job_id result = result ∨
  ∃ line status,
    line ∈ lines ∧ startswith "job_state" (strip line) = true ∧
    words (strip line) !! 2 = Some status ∧
    TorqueBackend.state_lines lines job_id result = <[job_id := Some status]> result.
Proof.
  revert result. induction lines as [|line lines IH]; intros result; [by left|].
  cbn [TorqueBackend.state_lines].
  destruct (startswith "job_state" (strip line)) eqn:Hstart.
  - destruct (words (strip line) !! 2) as [status|] eqn:Hword; [|by left].
    destruct (IH (<[job_id := Some status]> result))
      as [->|(line' & status' & Hin & Hs & Hw & ->)].
    + right. exists line, status. split_and!; [left|done|done|done].
    + right. exists line', status'. split_and!; [by right|done|done|].
      by rewrite insert_insert_eq.
  - destruct (IH result) as [->|(line' & status' & Hin & Hs & Hw & ->)]; [by left|].
    right. exists line', status'. split_and!; [by right|done|done|done].
Qed.

Lemma torque_fold qstat (job_ids : list string) init job_id :
  foldl (λ result job_id,
           match qstat job_id with
           | Returned lines => TorqueBackend.state_lines lines job_id result
           | Raised _ => result
           end) init job_ids !! job_id = init !! job_id ∨
  (job_id ∈ job_ids ∧
   ∃ lines line status,
     qstat job_id = Returned lines ∧ line ∈ lines ∧
     startswith "job_state" (strip line) = true ∧
     words (strip line) !! 2 = Some status ∧
     foldl (λ result job_id,
              match qstat job_id with
              | Returned lines => TorqueBackend.state_lines lines job_id result
              | Raised _ => result
              end) init job_ids !! job_id = Some (Some status)).
Proof.
  induction job_ids as [|j job_ids IH] using rev_ind; [by left|].
  rewrite foldl_app. simpl.
  set (r := foldl _ init job_ids) in *.
  assert (r !! job_id = init !! job_id ∨
          (job_id ∈ job_ids ++ [j] ∧
           ∃ lines line status,
             qstat job_id = Returned lines ∧ line ∈ lines ∧
             startswith "job_state" (strip line) = true ∧
             words (strip line) !! 2 = Some status ∧
             r !! job_id = Some (Some status))) as Hr.
  { destruct IH as [?|(Hin & ?)]; [by left|right]. split; [|done].
    apply elem_of_app. by left. }
  destruct (qstat j) as [lines|e] eqn:Hq; [|done].
  destruct (state_lines_spec lines j r) as [->|(line & status & Hin & Hs & Hw & ->)];
    [done|].
  destruct (decide (job_id = j)) as [->|Hne].
  - right. split; [apply elem_of_app; right; left|].
    exists lines, line, status. by rewrite lookup_insert_eq.
  - by rewrite lookup_insert_ne.
Qed.

Lemma torque_requested_lookup (job_ids : list string) job_id :
  (list_to_map ((λ j, (j, None)) <$> job_ids) : gmap string (option string)) !! job_id
  = if decide (job_id ∈ job_ids) then Some None else None.
Proof.
  induction job_ids as [|j job_ids IH].
  - simpl. rewrite lookup_empty.
    by destruct (decide (job_id ∈ [])) as [?%elem_of_nil|].
  - rewrite fmap_cons, list_to_map_cons.
    destruct (decide (job_id = j)) as [->|Hne].
    + rewrite lookup_insert_eq.
      destruct (decide (j ∈ j :: job_ids)) as [|Hnin]; [done|].
      destruct Hnin. apply list_elem_of_here.
    + rewrite lookup_insert_ne by done. rewrite IH.
      destruct (decide (job_id ∈ job_ids)), (decide (job_id ∈ j :: job_ids));
        try done; set_solver.
Qed.

(** X20.  The Torque wrapper answers for exactly the jobs asked about.
    A job whose [qstat] cannot be started has [None]; any other state is
    the third word of a line of that job's [qstat] output that starts
    with [job_state]. *)
Theorem torque_table_entries qstat job_ids :
  dom (TorqueBackend.get_state_of_jobs qstat job_ids) = list_to_set job_ids ∧
  (∀ job_id e,
     job_id ∈ job_ids → qstat job_id = Raised e →
     TorqueBackend.get_state_of_jobs qstat job_ids !! job_id = Some None) ∧
  (∀ job_id status,
     TorqueBackend.get_state_of_jobs qstat job_ids !! job_id = Some (Some status) →
     ∃ lines line,
       qstat job_id = Returned lines ∧ line ∈ lines ∧
       startswith "job_state" (strip line) = true ∧
       words (strip line) !! 2 = Some status).
Proof.
  unfold TorqueBackend.get_state_of_jobs. split_and!.
  - apply set_eq. intros job_id. rewrite elem_of_dom, elem_of_list_to_set.
    destruct (torque_fold qstat job_ids
                (list_to_map ((λ j, (j, None)) <$> job_ids)) job_id)
      as [->|(Hin & lines & line & status & _ & _ & _ & _ & ->)].
    + rewrite torque_requested_lookup. case_decide; [done|].
      split; [by intros [? ?]|done].
    + done.
  - intros job_id e Hin Hq.
    destruct (torque_fold qstat job_ids
                (list_to_map ((λ j, (j, None)) <$> job_ids)) job_id)
      as [->|(_ & lines & line & status & Hq' & _)].
    + rewrite torque_requested_lookup. by rewrite decide_True.
    + congruence.
  - intros job_id status Hst.
    destruct (torque_fold qstat job_ids
                (list_to_map ((λ j, (j, None)) <$> job_ids)) job_id)
      as [Hsame|(_ & lines & line & status' & Hq & Hin & Hs & Hw & Hres)].
    + rewrite Hsame, torque_requested_lookup in Hst. by case_decide.
    + rewrite Hres in Hst. injection Hst as <-. by exists lines, line.
Qed.

Lemma torque_table_entries_witness :
  TorqueBackend.get_state_of_jobs
    (λ job_id, if decide (job_id = "17") then Returned ["    job_state = R"]
               else Raised (Exception "qstat")) ["17"; "18"] !! "18" = Some None ∧
  ∃ lines line,
    (if decide ("17" = "17") then Returned ["    job_state = R"]
     else Raised (Exception "qstat")) = Returned lines ∧ line ∈ lines ∧
    startswith "job_state" (strip line) = true ∧
    words (strip line) !! 2 = Some "R".
Proof.
  destruct (torque_table_entries
              (λ job_id, if decide (job_id = "17") then Returned ["    job_state = R"]
                         else Raised (Exception "qstat")) ["17"; "18"])
    as (_ & Hraise & Hstatus).
  split.
  - apply (Hraise "18" (Exception "qstat")); [set_solver|reflexivity].
  - apply (Hstatus "17" "R"). vm_compute. reflexivity.
Defined.
End Torque_tables.

Section Headers.
Import Legacy BackendSpec.

Lemma slurm_header_error options :
  (SlurmBackend.write_script_header options).2 = first_missing options.
Proof.
  unfold SlurmBackend.write_script_header, first_missing, mandatory.
  rewrite !filter_cons, filter_nil.
  generalize (options !! "nodes") (options !! "cores") (options !! "memory")
    (options !! "walltime") (options !! "queue") (options !! "account")
    (options !! "constraint") (options !! "mail_type") (options !! "mail_user").
  intros [n|] [c|] [m|] [w|] o5 o6 o7 o8 o9; try exact eq_refl.
Qed.

Lemma torque_header_error options :
  (TorqueBackend.write_script_header options).2 = first_missing options.
Proof.
  unfold TorqueBackend.write_script_header, first_missing, mandatory.
  rewrite !filter_cons, filter_nil.
  generalize (options !! "nodes") (options !! "cores") (options !! "memory")
    (options !! "walltime") (options !! "queue") (options !! "account").
  intros [n|] [c|] [m|] [w|] o5 o6; try exact eq_refl.
Qed.

Lemma first_missing_None options :
  first_missing options = None ↔ ∀ key, key ∈ mandatory → is_Some (options !! key).
Proof.
  unfold first_missing. rewrite fmap_None, head_None. split.
  - intros Hnil key Hin.
    destruct (options !! key) eqn:Hkey; [done|].
    assert (key ∈ filter (λ key, options !! key = None) mandatory) as Hin'.
    { by apply list_elem_of_filter. }
    rewrite Hnil in Hin'. by apply elem_of_nil in Hin'.
  - intros Hall.
    destruct (filter _ mandatory) as [|key l] eqn:Hf; [done|].
    assert (key ∈ filter (λ key, options !! key = None) mandatory) as Hin.
    { rewrite Hf. left. }
    apply list_elem_of_filter in Hin as [Hnone Hin].
    destruct (Hall key Hin) as [v Hv]. congruence.
Qed.

Lemma first_missing_Some options e :
  first_missing options = Some e →
  ∃ key, key ∈ mandatory ∧ options !! key = None ∧ e = KeyError key.
Proof.
  unfold first_missing. intros Hhead.
  apply fmap_Some in Hhead as (key & Hhead & ->).
  apply head_Some_elem_of, list_elem_of_filter in Hhead as [Hnone Hin].
  by exists key.
Qed.

(** X21.  The Slurm and the Torque header fail alike: each raises the
    [KeyError] of the first of nodes, cores, memory and walltime that is
    missing, and returns exactly when all four are given. *)
Theorem header_needs_mandatory_options options :
  (SlurmBackend.write_script_header options).2 = first_missing options ∧
  (TorqueBackend.write_script_header options).2 = first_missing options ∧
  ((SlurmBackend.write_script_header options).2 = None ↔
   ∀ key, key ∈ mandatory → is_Some (options !! key)) ∧
  (∀ e, (SlurmBackend.write_script_header options).2 = Some e →
        ∃ key, key ∈ mandatory ∧ options !! key = None ∧ e = KeyError key).
Proof.
  split_and!.
  - apply slurm_header_error.
  - apply torque_header_error.
  - rewrite slurm_header_error. apply first_missing_None.
  - intros e. rewrite slurm_header_error. apply first_missing_Some.
Qed.

Lemma header_needs_mandatory_options_witness :
  (SlurmBackend.write_script_header SlurmSpec.header_options).2 = None ∧
  ∃ key, key ∈ mandatory ∧
         (delete "memory" SlurmSpec.header_options) !! key = None ∧
         KeyError "memory" = KeyError key.
Proof.
  split.
  - destruct (header_needs_mandatory_options SlurmSpec.header_options)
      as (_ & _ & Hall & _).
    apply Hall. intros key Hin. unfold mandatory in Hin.
    repeat (apply elem_of_cons in Hin as [->|Hin]; [by eexists|]).
    by apply elem_of_nil in Hin.
  - destruct (header_needs_mandatory_options (delete "memory" SlurmSpec.header_options))
      as (_ & _ & _ & Hmissing).
    apply Hmissing. vm_compute. reflexivity.
Defined.
End Headers.

(** * Dispatch *)

Section Ready_dispatch.
Import Local Local.Server ServerSpec PassSpec.

Lemma schedule_loop_keeps_sent s order p p' r pkt :
  schedule_loop s order p = (p', r) → pkt ∈ sent p → pkt ∈ sent p'.
Proof.
  revert p. induction order as [|id rest IH]; intros p Hloop Hpkt.
  - simpl in Hloop. by injection Hloop as <- <-.
  - rewrite schedule_loop_cons in Hloop.
    destruct (classify s id) as [[| |task]|]; [by eapply IH|by eapply IH| |].
    + destruct (first_free _ _) as [[worker_id worker]|]; [|by eapply IH].
      eapply IH; [done|]. simpl. apply elem_of_app. by left.
    + by injection Hloop as <- <-.
Qed.

Lemma schedule_loop_sends s order p p' id task worker_id worker :
  schedule_loop s order p = (p', None) →
  id ∈ order → classify s id = Some (ready task) →
  first_free (_joined_workers s) (_used_workers s) = Some (worker_id, worker) →
  JoinedWorker.run_task worker task ∈ sent p'.
Proof.
  revert p. induction order as [|id0 rest IH]; intros p Hloop Hin Hcl Hfree.
  - by apply elem_of_nil in Hin.
  - rewrite schedule_loop_cons in Hloop.
    apply elem_of_cons in Hin as [->|Hin].
    + rewrite Hcl, Hfree in Hloop.
      eapply schedule_loop_keeps_sent; [done|]. simpl.
      apply elem_of_app. right. left.
    + destruct (classify s id0) as [[| |task0]|]; [by eapply IH|by eapply IH| |done].
      destruct (first_free _ _) as [[? ?]|]; by eapply IH.
Qed.

(** X1.  A pass dispatches every pending task whose dependencies are all
    [COMPLETED] as soon as some joined worker has no task assigned: a
    [run_task] for it is sent, it leaves the pending set, it is entered
    in the assignment table, and its recorded state is not touched. *)
Theorem ready_task_goes_to_the_free_worker enum s id task worker_id worker :
  iteration_order enum → well_formed s →
  id ∈ _pending_tasks s → _tasks s !! id = Some task →
  (∀ d, d ∈ dependencies task → _task_states s !! d = Some COMPLETED) →
  (worker_id, worker) ∈ _joined_workers s → unassigned s worker_id →
  ∃ s' out c,
    _schedule_once enum s = (s', out, None) ∧
    (c, Message.run_task task) ∈ out ∧
    (id ∉ _pending_tasks s') ∧ is_Some (_used_workers s' !! id) ∧
    _task_states s' !! id = (_task_states s !! id).
Proof.
  intros Henum Hwf Hpend Htask Hdeps Hjoined Hfree.
  assert (classify s id = Some (ready task)) as Hcl by (by apply classify_ready).
  destruct (first_free (_joined_workers s) (_used_workers s))
    as [[wid w]|] eqn:Hff.
  2:{ destruct (proj1 (first_free_None _ _) Hff _ _ Hjoined) as [tid Hused].
      by destruct (Hfree tid). }
  destruct (schedule_once_spec enum s Henum Hwf)
    as (s' & out & Hpass & _ & _ & _ & _ & Hp & Hts & Hused).
  exists s', out, (JoinedWorker.conn w). split_and!; [done| | | |].
  - unfold _schedule_once in Hpass.
    destruct (schedule_loop _ _ _) as [p [e|]] eqn:Hloop;
      [simplify_eq|].
    assert (out = sent p) as ->.
    { destruct (remove_scheduled _ _) as [s2 [e|]]; [simplify_eq|].
      destruct (fail_tasks _ _). by simplify_eq. }
    apply (schedule_loop_sends _ _ _ _ id task wid w Hloop); [|done|done].
    by apply enum_elem_of.
  - rewrite Hp. intros (_ & _ & Hno). apply Hno. split; [by exists task|by rewrite Hff].
  - rewrite Hused, Hff, Hcl. by rewrite decide_True.
  - rewrite Hts. unfold has_failed_dependency. rewrite Hcl. by rewrite andb_false_r.
Qed.

Lemma ready_task_goes_to_the_free_worker_witness :
  ∃ s' out c,
    _schedule_once elements one_ready = (s', out, None) ∧
    (c, Message.run_task (task_of "T1" [])) ∈ out ∧
    ("T1" ∉ _pending_tasks s') ∧ is_Some (_used_workers s' !! "T1") ∧
    _task_states s' !! "T1" = (_task_states one_ready !! "T1").
Proof.
  apply (ready_task_goes_to_the_free_worker elements one_ready "T1" (task_of "T1" [])
           "Worker0" (JoinedWorker.mk "Worker0" 2)).
  - apply iteration_order_elements.
  - by apply at_pass_well_formed.
  - vm_compute. set_solver.
  - vm_compute. reflexivity.
  - intros d Hd. simpl in Hd. set_solver.
  - vm_compute. set_solver.
  - intros task_id Hused. vm_compute in Hused. discriminate.
Defined.
End Ready_dispatch.

